(** * Projectile lab (lab01/source.js): atmosphere, integrator and result store

    A shallow embedding of the JavaScript of [src/lab01/source.js].

    - JavaScript numbers are IEEE-754 binary64 values: they are modelled by
      Rocq's primitive [float], whose operations are the correctly rounded
      binary64 ones and whose comparisons are false on NaN, as in JavaScript.
    - The loop counter [steps] and the colour counter hold small non-negative
      integers (far below 2^53, where binary64 is exact): they are modelled by
      [Z] and [nat].
    - [computedKeys] (a JavaScript [Set] of strings) is a [gset string];
      arrays are lists, [push] appends at the end.
    - The DOM (input fields, canvas, table, legend, log box) is outside the
      model.  What [simulate] reads from the form is an argument ([Form]);
      the warning it logs on an early return is returned as an [Outcome]. *)

From Stdlib Require Import ZArith NArith List String Ascii Bool Lia.
From Stdlib Require Import Floats.
From Stdlib Require Import Reals Lra.
From stdpp Require Import base gmap sets list strings.

Set Warnings "-inexact-float".

Local Open Scope string_scope.
Local Open Scope Z_scope.

(** * The model *)

(** ** JavaScript numbers and their conversion to strings *)

Module JS.

Definition number := float.

(** [isNaN(x)] *)
Definition isNaN (x : number) : bool := PrimFloat.is_nan x.

(** [x || 0] on a number: NaN, [+0] and [-0] are falsy. *)
Definition orZero (x : number) : number :=
  if (isNaN x || (x =? 0)%float)%bool then 0%float else x.

(** *** [Number::toString] (ECMA-262, radix 10)

    A positive finite binary64 value is [m * 2^e].  The decimal that is
    printed is the shortest [s * 10^p] that rounds back to the value, and the
    closest to it among the shortest ones.  All comparisons are exact, by
    cross multiplication over [Z]. *)

(** [s * 10^p ?= n * 2^e] *)
Definition cmp_scaled (s p n e : Z) : comparison :=
  (s * 10 ^ Z.max p 0 * 2 ^ Z.max (- e) 0
     ?= n * 2 ^ Z.max e 0 * 10 ^ Z.max (- p) 0).

(** The reals that round to [m * 2^e] lie between the midpoints with its two
    neighbours; in units of [2^(e-2)] these are [lo] and [hi] below (the gap
    below a power of two is half the gap above it).  The ends of the interval
    belong to it when [m] is even (round half to even). *)
Definition round_lo (m e : Z) : Z :=
  if (m =? 2 ^ 52) && (-1074 <? e) then 4 * m - 1 else 4 * m - 2.
Definition round_hi (m : Z) : Z := 4 * m + 2.

Definition rounds_to (m e s p : Z) : bool :=
  let incl := Z.even m in
  let above :=
    match cmp_scaled s p (round_lo m e) (e - 2) with
    | Gt => true | Eq => incl | Lt => false
    end in
  let below :=
    match cmp_scaled s p (round_hi m) (e - 2) with
    | Lt => true | Eq => incl | Gt => false
    end in
  above && below.

(** [floor (log10 (m * 2^e))], from the bit length and two corrections. *)
Definition up_if (m e est : Z) : Z :=
  match cmp_scaled 1 (est + 1) m e with Gt => est | _ => est + 1 end.
Definition down_if (m e est : Z) : Z :=
  match cmp_scaled 1 est m e with Gt => est - 1 | _ => est end.
Definition log10_floor (m e : Z) : Z :=
  let est := (Z.log2 m + e) * 30103 / 100000 in
  down_if m e (down_if m e (up_if m e (up_if m e est))).

(** Trailing zeros of [s] moved to the exponent; a positive [s] has fewer
    than [log2 s + 1] of them. *)
Fixpoint strip_zeros_fuel (fuel : nat) (s p : Z) : Z * Z :=
  match fuel with
  | O => (s, p)
  | S f => if s mod 10 =? 0 then strip_zeros_fuel f (s / 10) (p + 1) else (s, p)
  end.

Definition strip_zeros (s p : Z) : Z * Z :=
  strip_zeros_fuel (S (Z.to_nat (Z.log2 s))) s p.

(** [m * 2^e] written out as [s * 10^p]. *)
Definition exact_decimal (m e : Z) : Z * Z :=
  if 0 <=? e then (m * 2 ^ e, 0) else (m * 5 ^ (- e), e).

(** Try [k = 1, 2, ...] digits; 17 digits always identify a binary64, and
    the value written out in full is what is left after them. *)
Fixpoint shortest_from (fuel : nat) (m e e10 k : Z) : Z * Z :=
  match fuel with
  | O => exact_decimal m e
  | S f =>
      let p := e10 - k + 1 in
      let num := m * 2 ^ Z.max e 0 * 10 ^ Z.max (- p) 0 in
      let den := 2 ^ Z.max (- e) 0 * 10 ^ Z.max p 0 in
      let slo := num / den in
      let shi := slo + 1 in
      let vlo := rounds_to m e slo p in
      let vhi := rounds_to m e shi p in
      if vlo || vhi then
        let r := num - slo * den in
        if vlo && vhi then
          match 2 * r ?= den with
          | Lt => (slo, p)
          | Gt => (shi, p)
          | Eq => if Z.even slo then (slo, p) else (shi, p)
          end
        else if vlo then (slo, p) else (shi, p)
      else shortest_from f m e e10 (k + 1)
  end.

Definition shortest (m e : Z) : Z * Z :=
  let '(s, p) := shortest_from 17 m e (log10_floor m e) 1 in
  strip_zeros s p.

(** The decimal digit [d] as a character. *)
Definition digit (d : Z) : ascii := ascii_of_nat (48 + Z.to_nat d).

(** The digits of [s], the least significant first. *)
Fixpoint digits_le (fuel : nat) (s : Z) : list ascii :=
  match fuel with
  | O => []
  | S f => digit (s mod 10) :: (if s <? 10 then [] else digits_le f (s / 10))
  end.

Definition digits_of (s : Z) : string :=
  string_of_list_ascii (reverse (digits_le (S (Z.to_nat (Z.log2 s))) s)).

Fixpoint zeros (n : nat) : string :=
  match n with O => "" | S n => String "0" (zeros n) end.

(** Steps 6 to 10 of [Number::toString]: [s] has [k] digits and the value is
    [s * 10^(n-k)]. *)
Definition format_decimal (s p : Z) : string :=
  let ds := digits_of s in
  let k := Z.of_nat (String.length ds) in
  let n := p + k in
  if (k <=? n) && (n <=? 21) then ds ++ zeros (Z.to_nat (n - k))
  else if (0 <? n) && (n <=? 21) then
    substring 0 (Z.to_nat n) ds ++ "." ++ substring (Z.to_nat n) (Z.to_nat (k - n)) ds
  else if (-6 <? n) && (n <=? 0) then "0." ++ zeros (Z.to_nat (- n)) ++ ds
  else
    let ex := n - 1 in
    let sign := if 0 <=? ex then "+" else "-" in
    let mant :=
      if k =? 1 then ds
      else substring 0 1 ds ++ "." ++ substring 1 (Z.to_nat (k - 1)) ds in
    mant ++ "e" ++ sign ++ digits_of (Z.abs ex).

Definition Number_toString (x : number) : string :=
  match Prim2SF x with
  | S754_nan => "NaN"
  | S754_zero _ => "0"
  | S754_infinity false => "Infinity"
  | S754_infinity true => "-Infinity"
  | S754_finite sign m e =>
      let '(s, p) := shortest (Zpos m) e in
      (if sign then "-" else "") ++ format_decimal s p
  end.

(** [SameValueZero] (ECMA-262): the same number, or the two zeros. *)
Definition SameValueZero (x y : number) : Prop :=
  x = y \/ ((x =? 0)%float = true /\ (y =? 0)%float = true).

End JS.

(** ** The [Math] object

    ECMA-262 leaves the accuracy of [Math.cos], [Math.sin], [Math.exp] and
    [Math.pow] to the implementation and fixes only their values at special
    arguments.  The program is therefore modelled over any implementation;
    the two special values the proofs rely on are part of the interface. *)

Class JSMath := {
  Math_cos : float -> float;
  Math_sin : float -> float;
  Math_exp : float -> float;
  Math_pow : float -> float -> float;
  Math_cos_zero : Math_cos 0 = 1%float;
  Math_sin_zero : Math_sin 0 = 0%float
}.

(** [Math.PI] *)
Definition Math_PI : float := 3.141592653589793.

(** One implementation, by truncated power series, on which the examples
    below are run.  The theorems hold for every implementation. *)
Module SeriesMath.

Local Open Scope float_scope.

Fixpoint alt_series (n : nat) (x2 term sum i : float) : float :=
  match n with
  | O => sum
  | S n =>
      let term' := - term * x2 / ((i + 1) * (i + 2)) in
      alt_series n x2 term' (sum + term') (i + 2)
  end.

Definition cos (x : float) : float := alt_series 30 (x * x) 1 1 0.
Definition sin (x : float) : float := alt_series 30 (x * x) x x 1.

Fixpoint exp_series (n : nat) (x term sum i : float) : float :=
  match n with
  | O => sum
  | S n =>
      let term' := term * x / i in
      exp_series n x term' (sum + term') (i + 1)
  end.

Definition exp (x : float) : float :=
  if x <? 0 then 1 / exp_series 60 (- x) 1 1 1 else exp_series 60 x 1 1 1.

Fixpoint atanh_series (n : nat) (z2 term sum i : float) : float :=
  match n with
  | O => sum
  | S n =>
      let term' := term * z2 in
      atanh_series n z2 term' (sum + term' / (i + 2)) (i + 2)
  end.

Definition ln (x : float) : float :=
  let z := (x - 1) / (x + 1) in 2 * atanh_series 60 (z * z) z z 1.

Definition pow (b e : float) : float :=
  if e =? 0 then 1 else exp (e * ln b).

End SeriesMath.

#[export] Instance seriesMath : JSMath := {|
  Math_cos := SeriesMath.cos;
  Math_sin := SeriesMath.sin;
  Math_exp := SeriesMath.exp;
  Math_pow := SeriesMath.pow;
  Math_cos_zero := eq_refl;
  Math_sin_zero := eq_refl
|}.

(** ** Constants (source lines 2-4) *)

Definition COLORS : list string :=
  ["#00d4ff"; "#ff6b35"; "#7fff7f"; "#ff4fa3"; "#ffd700"; "#b06fff"; "#ff9999"; "#00ffcc"].
Definition MAX_TRAJ : nat := 20.
Definition G : float := 9.81.

(** ** ISA atmosphere density (source lines 51-63) *)

Section Physics.

Context {M : JSMath}.

Definition getAirDensity (altMeters : float) (model : string) : float :=
  if String.eqb model "const" then 1.225%float
  else if String.eqb model "const129" then 1.29%float
  else
    let altMeters := if (altMeters <? 0)%float then 0%float else altMeters in
    if (altMeters <=? 11000)%float then
      let T := (288.15 - 0.0065 * altMeters)%float in
      (1.225 * Math_pow (T / 288.15) 4.2561)%float
    else
      (0.3639 * Math_exp (-0.0001576 * (altMeters - 11000)))%float.

(** ** Physics simulation (source lines 66-118) *)

Record Point := mkPoint { pt_x : float; pt_y : float }.

(** The variables of the loop of [runPhysics]. *)
Record Sim := mkSim {
  s_vx : float;
  s_vy : float;
  s_x : float;
  s_y : float;
  s_pts : list Point;
  s_maxH : float;
  s_steps : Z
}.

(** The object [runPhysics] returns: [{ pts, range, maxH, finalV, steps }]. *)
Record Result := mkResult {
  r_pts : list Point;
  r_range : float;
  r_maxH : float;
  r_finalV : float;
  r_steps : Z
}.

Definition maxSteps : Z := 20000000.

(** [while (cond) body], run for at most [fuel] iterations.  Once [cond] is
    false the state no longer changes, so any larger [fuel] gives the same
    state. *)
Definition while_ {A : Type} (fuel : N) (cond : A -> bool) (body : A -> A) (s : A) : A :=
  N.iter fuel (fun s => if cond s then body s else s) s.

(** [y >= 0 && steps < maxSteps] (line 80) *)
Definition loop_cond (s : Sim) : bool :=
  (0 <=? s_y s)%float && (s_steps s <? maxSteps).

(** The downsampling test of line 110; [steps] is a non-negative integer, so
    [Math.floor (steps / 5000)] is the integer quotient. *)
Definition keep_point (steps : Z) : bool :=
  (steps <? 50000) || (steps mod (Z.max 1 (steps / 5000)) =? 0).

(** [pts[pts.length - 1]]; [pts] always holds the launch point, so the
    default is never used. *)
Definition last_point (pts : list Point) : Point :=
  List.last pts (mkPoint nan nan).

(** Lines 81-113. *)
Definition loop_body (mass cd area dt windX : float) (atmoModel : string) (s : Sim) : Sim :=
  let rho := getAirDensity (s_y s) atmoModel in
  let k := (0.5 * cd * rho * area / mass)%float in
  let vrx := (s_vx s - windX)%float in
  let vry := s_vy s in
  let vr := PrimFloat.sqrt (vrx * vrx + vry * vry)%float in
  let ax := if (0 <? vr)%float then (0 - k * vrx * vr)%float else 0%float in
  let ay := if (0 <? vr)%float then (- G - k * vry * vr)%float else (- G)%float in
  let vx := (s_vx s + ax * dt)%float in
  let vy := (s_vy s + ay * dt)%float in
  let x := (s_x s + vx * dt)%float in
  let y := (s_y s + vy * dt)%float in
  let maxH := if (s_maxH s <? y)%float then y else s_maxH s in
  let prev := last_point (s_pts s) in
  let frac := (pt_y prev / (pt_y prev - y))%float in
  let x' := if (y <? 0)%float then (pt_x prev + frac * (x - pt_x prev))%float else x in
  let y' := if (y <? 0)%float then 0%float else y in
  let pts := if keep_point (s_steps s) then (s_pts s ++ [mkPoint x' y'])%list else s_pts s in
  mkSim vx vy x' y' pts maxH (s_steps s + 1).

(** One turn of the loop: the body when the test holds. *)
Definition guarded_body (mass cd area dt windX : float) (atmoModel : string) (s : Sim) : Sim :=
  if loop_cond s then loop_body mass cd area dt windX atmoModel s else s.

(** The velocity and the height evolve on their own: the steps counter and
    the recorded points do not feed back into them. *)
Definition kin_of (s : Sim) : float * float * float := (s_vx s, s_vy s, s_y s).

Definition kin_step (mass cd area dt windX : float) (atmoModel : string)
    (k : float * float * float) : float * float * float :=
  let '(vx, vy, y) := k in
  if (0 <=? y)%float then
    let rho := getAirDensity y atmoModel in
    let k := (0.5 * cd * rho * area / mass)%float in
    let vrx := (vx - windX)%float in
    let vr := PrimFloat.sqrt (vrx * vrx + vy * vy)%float in
    let ax := if (0 <? vr)%float then (0 - k * vrx * vr)%float else 0%float in
    let ay := if (0 <? vr)%float then (- G - k * vy * vr)%float else (- G)%float in
    let vy' := (vy + ay * dt)%float in
    let y' := (y + vy' * dt)%float in
    ((vx + ax * dt)%float, vy', if (y' <? 0)%float then 0%float else y')
  else k.

(** The state in which the loop of [runPhysics] is entered, and left. *)
Definition physics_init (v0 angleDeg y0 : float) : Sim :=
  let angleRad := (angleDeg * Math_PI / 180)%float in
  let vx := (v0 * Math_cos angleRad)%float in
  let vy := (v0 * Math_sin angleRad)%float in
  mkSim vx vy 0 y0 [mkPoint 0 y0] y0 0.

Definition windX_of (windSpeed windDirDeg : float) : float :=
  let windRad := (windDirDeg * Math_PI / 180)%float in
  (windSpeed * Math_cos windRad)%float.

Definition physics_loop (v0 angleDeg mass cd area dt y0 windSpeed windDirDeg : float)
    (atmoModel : string) : Sim :=
  while_ (Z.to_N maxSteps) loop_cond
    (loop_body mass cd area dt (windX_of windSpeed windDirDeg) atmoModel)
    (physics_init v0 angleDeg y0).

Definition runPhysics (v0 angleDeg mass cd area dt y0 windSpeed windDirDeg : float)
    (atmoModel : string) : Result :=
  let s := physics_loop v0 angleDeg mass cd area dt y0 windSpeed windDirDeg atmoModel in
  let finalV := PrimFloat.sqrt (s_vx s * s_vx s + s_vy s * s_vy s)%float in
  mkResult (s_pts s) (s_x s) (s_maxH s) finalV (s_steps s).

End Physics.

(** ** State (source lines 7-13) and the operations on it *)

(** What [simulate] reads from the page (lines 124-135): the value
    [parseFloat] returns for each numeric field (NaN when the text is not a
    number), the selected atmosphere model, and the name of the active shape
    button, if any. *)
Record Form := mkForm {
  f_customStep : float;
  f_v0 : float;
  f_angle : float;
  f_mass : float;
  f_area : float;
  f_y0 : float;
  f_windSpeed : float;
  f_windDir : float;
  f_atmoModel : string;
  f_cdDisplay : float;
  f_shape : option string
}.

(** The constants [dt], [v0], ..., [shapeName] of [simulate]. *)
Record Params := mkParams {
  p_dt : float;
  p_v0 : float;
  p_angle : float;
  p_mass : float;
  p_area : float;
  p_y0 : float;
  p_windSpeed : float;
  p_windDir : float;
  p_atmo : string;
  p_cd : float;
  p_shapeName : string
}.

Definition readForm (f : Form) : Params :=
  {| p_dt := f_customStep f;
     p_v0 := f_v0 f;
     p_angle := f_angle f;
     p_mass := f_mass f;
     p_area := f_area f;
     p_y0 := JS.orZero (f_y0 f);
     p_windSpeed := JS.orZero (f_windSpeed f);
     p_windDir := JS.orZero (f_windDir f);
     p_atmo := f_atmoModel f;
     p_cd := f_cdDisplay f;
     p_shapeName := default "Custom" (f_shape f) |}.

(** The template string of line 139. *)
Definition fingerprint (p : Params) : string :=
  JS.Number_toString (p_dt p) ++ "_" ++
  JS.Number_toString (p_cd p) ++ "_" ++
  p_atmo p ++ "_" ++
  JS.Number_toString (p_windSpeed p) ++ "_" ++
  JS.Number_toString (p_windDir p) ++ "_" ++
  JS.Number_toString (p_v0 p) ++ "_" ++
  JS.Number_toString (p_angle p) ++ "_" ++
  JS.Number_toString (p_mass p) ++ "_" ++
  JS.Number_toString (p_area p) ++ "_" ++
  JS.Number_toString (p_y0 p).

(** An element of [trajectories] (line 156). *)
Record Entry := mkEntry {
  e_dt : float;
  e_color : string;
  e_shapeName : string;
  e_cd : float;
  e_atmo : string;
  e_windSpeed : float;
  e_pts : list Point;
  e_range : float;
  e_maxH : float;
  e_finalV : float;
  e_steps : Z
}.

(** The global variables.  [animFrame] holds the id of the last frame
    request; what matters of it is the callback that is still scheduled, the
    closure [step] of [animateProjectile] with the trajectory it captured:
    this is [pendingFrame]. *)
Record App := mkApp {
  trajectories : list Entry;
  colorIdx : nat;
  computedKeys : gset string;
  pendingFrame : option Entry;
  animTraj : option Entry;
  animIdx : Z;
  isRunning : bool
}.

Definition initial : App :=
  {| trajectories := []; colorIdx := 0; computedKeys := ∅;
     pendingFrame := None; animTraj := None; animIdx := 0; isRunning := false |}.

(** The line a call writes to the log box before it returns. *)
Inductive Outcome :=
  | AlreadyRunning      (* 'Simulation already running!' *)
  | InvalidTimeStep     (* 'Invalid time step!' *)
  | AlreadyComputed     (* 'Already computed for dt=... with same parameters!' *)
  | MaxReached          (* 'Max 20 trajectories reached. Clear to add more.' *)
  | Simulated (entry : Entry)
  | WaitForSimulation   (* 'Wait for simulation to finish!' *)
  | Cleared.            (* 'Cleared. Ready for new simulations.' *)

(** [COLORS[i % COLORS.length]] *)
Definition color_at (i : nat) : string :=
  default "undefined" (COLORS !! (i mod length COLORS)%nat).

(** The time step passes the test of line 137. *)
Definition valid_step (f : Form) : bool :=
  negb (JS.isNaN (f_customStep f) || (f_customStep f <=? 0)%float).

Section Store.

Context {M : JSMath}.

Definition make_entry (color : string) (p : Params) : Entry :=
  let result :=
    runPhysics (p_v0 p) (p_angle p) (p_mass p) (p_cd p) (p_area p) (p_dt p) (p_y0 p)
      (p_windSpeed p) (p_windDir p) (p_atmo p) in
  {| e_dt := p_dt p; e_color := color; e_shapeName := p_shapeName p;
     e_cd := p_cd p; e_atmo := p_atmo p; e_windSpeed := p_windSpeed p;
     e_pts := r_pts result; e_range := r_range result; e_maxH := r_maxH result;
     e_finalV := r_finalV result; e_steps := r_steps result |}.

(** [animateProjectile] (lines 182-203), up to its first frame request. *)
Definition animateProjectile (traj : Entry) (st : App) : App :=
  {| trajectories := trajectories st; colorIdx := colorIdx st;
     computedKeys := computedKeys st;
     pendingFrame := Some traj; animTraj := Some traj; animIdx := 0;
     isRunning := true |}.

(** The callback [step] (lines 189-201), run by the browser at a frame. *)
Definition step (traj : Entry) (st : App) : App :=
  let len := Z.of_nat (length (e_pts traj)) in
  let idx := animIdx st + Z.max 1 (len / 300) in
  if len <=? idx then
    {| trajectories := trajectories st; colorIdx := colorIdx st;
       computedKeys := computedKeys st;
       pendingFrame := None; animTraj := None; animIdx := len - 1;
       isRunning := false |}
  else
    {| trajectories := trajectories st; colorIdx := colorIdx st;
       computedKeys := computedKeys st;
       pendingFrame := Some traj; animTraj := animTraj st; animIdx := idx;
       isRunning := isRunning st |}.

Definition frame (st : App) : App :=
  match pendingFrame st with
  | Some traj => step traj st
  | None => st
  end.

(** [simulate] (lines 121-179). *)
Definition simulate (st : App) (f : Form) : App * Outcome :=
  if isRunning st then (st, AlreadyRunning) else
  let p := readForm f in
  if JS.isNaN (p_dt p) || (p_dt p <=? 0)%float then (st, InvalidTimeStep) else
  let key := fingerprint p in
  if bool_decide (key ∈ computedKeys st) then (st, AlreadyComputed) else
  if (MAX_TRAJ <=? length (trajectories st))%nat then (st, MaxReached) else
  let entry := make_entry (color_at (colorIdx st)) p in
  let st' :=
    {| trajectories := (trajectories st ++ [entry])%list;
       colorIdx := S (colorIdx st);
       computedKeys := {[key]} ∪ computedKeys st;
       pendingFrame := pendingFrame st; animTraj := animTraj st;
       animIdx := animIdx st; isRunning := isRunning st |} in
  (animateProjectile entry st', Simulated entry).

(** [clearAll] (lines 410-426). *)
Definition clearAll (st : App) : App * Outcome :=
  if isRunning st then (st, WaitForSimulation) else
  ({| trajectories := []; colorIdx := 0; computedKeys := ∅;
      pendingFrame := None; animTraj := None; animIdx := animIdx st;
      isRunning := isRunning st |}, Cleared).

(** What can happen to the page: a click on Run, a click on Clear, an
    animation frame. *)
Inductive event :=
  | Run (f : Form)
  | Clear
  | Frame.

Definition handle (st : App) (ev : event) : App :=
  match ev with
  | Run f => fst (simulate st f)
  | Clear => fst (clearAll st)
  | Frame => frame st
  end.

Inductive reachable : App -> Prop :=
  | reachable_initial : reachable initial
  | reachable_handle st ev : reachable st -> reachable (handle st ev).

(** Frames until the playback of the last trajectory is over: [step]
    advances [animIdx] by at least one, so as many frames as the trajectory
    has points are enough. *)
Definition finish_playback (st : App) : App :=
  match pendingFrame st with
  | Some traj => Nat.iter (length (e_pts traj)) frame st
  | None => st
  end.

(** A click on Run, then the playback run to its end. *)
Definition run_and_wait (st : App) (f : Form) : App :=
  finish_playback (fst (simulate st f)).

(** The fingerprint [simulate] computes for a form. *)
Definition form_key (f : Form) : string := fingerprint (readForm f).

(** The state [simulate] leaves when it accepts [f]. *)
Definition accepted (st : App) (f : Form) : App :=
  let entry := make_entry (color_at (colorIdx st)) (readForm f) in
  {| trajectories := (trajectories st ++ [entry])%list;
     colorIdx := S (colorIdx st);
     computedKeys := {[form_key f]} ∪ computedKeys st;
     pendingFrame := Some entry; animTraj := Some entry; animIdx := 0;
     isRunning := true |}.

(** The same state once the playback is over. *)
Definition settled (st : App) (f : Form) : App :=
  let entry := make_entry (color_at (colorIdx st)) (readForm f) in
  {| trajectories := (trajectories st ++ [entry])%list;
     colorIdx := S (colorIdx st);
     computedKeys := {[form_key f]} ∪ computedKeys st;
     pendingFrame := None; animTraj := None;
     animIdx := Z.of_nat (length (e_pts entry)) - 1;
     isRunning := false |}.

(** The state in which the playback of [traj] ends. *)
Definition played (traj : Entry) (st : App) : App :=
  {| trajectories := trajectories st; colorIdx := colorIdx st;
     computedKeys := computedKeys st;
     pendingFrame := None; animTraj := None;
     animIdx := Z.of_nat (length (e_pts traj)) - 1;
     isRunning := false |}.

(** What holds of every reachable state. *)
Record store_inv (st : App) : Prop := {
  inv_size : (length (trajectories st) <= MAX_TRAJ)%nat;
  inv_counter : colorIdx st = length (trajectories st);
  inv_colors : forall i e, trajectories st !! i = Some e -> e_color e = color_at i;
  inv_keys : size (computedKeys st) = length (trajectories st);
  inv_idle : isRunning st = false <-> pendingFrame st = None
}.

(** The entries of accepted forms, coloured from counter value [c] on. *)
Fixpoint entries_from (c : nat) (fs : list Form) : list Entry :=
  match fs with
  | [] => []
  | f :: fs => make_entry (color_at c) (readForm f) :: entries_from (S c) fs
  end.

End Store.

(** ** What [drawAllTrajectories] computes of the stored paths
    (source lines 206-353)

    The canvas is outside the model.  What is modelled is what the drawing
    is computed from: the bounds of the plot, the part of the active path
    that is shown, the point of the height marker, and the points of the
    trail behind the animated dot. *)

(** [x || d] on numbers: NaN, [+0] and [-0] are falsy. *)
Definition number_or (x d : float) : float :=
  if (JS.isNaN x || (x =? 0)%float)%bool then d else x.

(** Lines 226-227: the bounds after one more point. *)
Definition grow_bounds (b : float * float) (p : Point) : float * float :=
  ((if (fst b <? pt_x p)%float then pt_x p else fst b),
   (if (snd b <? pt_y p)%float then pt_y p else snd b)).

(** Lines 223-230: [maxX] and [maxY], over all points of all trajectories
    (they are computed when there is a trajectory, line 220). *)
Definition plot_bounds (ts : list Entry) : float * float :=
  let b := foldl (fun b t => foldl grow_bounds b (e_pts t)) (0%float, 0%float) ts in
  (number_or (fst b) 100, number_or (snd b) 50).

(** [a.slice(0, e)] for an integer [e]: a negative [e] counts from the
    end. *)
Definition slice_to {A : Type} (a : list A) (e : Z) : list A :=
  let len := Z.of_nat (length a) in
  let k := if e <? 0 then Z.max (len + e) 0 else Z.min e len in
  take (Z.to_nat k) a.

(** Line 260, for the active trajectory: [traj.pts.slice(0, activeIdx + 1)]. *)
Definition shown_pts (pts : list Point) (activeIdx : Z) : list Point :=
  slice_to pts (activeIdx + 1).

(** Lines 290-291: the point of the height marker; [pts[0]] of an empty
    path is [undefined]. *)
Definition higher (peak p : Point) : Point :=
  if (pt_y peak <? pt_y p)%float then p else peak.

Definition peak_point (pts : list Point) : option Point :=
  match pts with
  | [] => None
  | p0 :: _ => Some (foldl higher p0 pts)
  end.

(** Lines 312-314: the indices [activeIdx - i] of the trail, for
    [i = trailLen, ..., 1]. *)
Definition trail_indices (activeIdx : Z) : list Z :=
  let trailLen := Z.min activeIdx 15 in
  map (fun k => activeIdx - (trailLen - k)) (seqZ 0 trailLen).

(** ** Notions the properties are stated with *)

(** [a] and [b] have opposite signs. *)
Definition opposite_sign (a b : float) : bool :=
  ((a <? 0) && (0 <? b))%float || ((0 <? a) && (b <? 0))%float.

(** The ten fields of the template string of line 139, in its order. *)
Inductive Field :=
  | F_dt | F_cd | F_atmo | F_windSpeed | F_windDir
  | F_v0 | F_angle | F_mass | F_area | F_y0.

Definition fields : list Field :=
  [F_dt; F_cd; F_atmo; F_windSpeed; F_windDir; F_v0; F_angle; F_mass; F_area; F_y0].

(** What the template string holds for a field. *)
Definition render (g : Field) (p : Params) : string :=
  match g with
  | F_dt => JS.Number_toString (p_dt p)
  | F_cd => JS.Number_toString (p_cd p)
  | F_atmo => p_atmo p
  | F_windSpeed => JS.Number_toString (p_windSpeed p)
  | F_windDir => JS.Number_toString (p_windDir p)
  | F_v0 => JS.Number_toString (p_v0 p)
  | F_angle => JS.Number_toString (p_angle p)
  | F_mass => JS.Number_toString (p_mass p)
  | F_area => JS.Number_toString (p_area p)
  | F_y0 => JS.Number_toString (p_y0 p)
  end.

(** [p] and [q] hold the same value in a field. *)
Definition same_field (g : Field) (p q : Params) : Prop :=
  match g with
  | F_dt => p_dt p = p_dt q
  | F_cd => p_cd p = p_cd q
  | F_atmo => p_atmo p = p_atmo q
  | F_windSpeed => p_windSpeed p = p_windSpeed q
  | F_windDir => p_windDir p = p_windDir q
  | F_v0 => p_v0 p = p_v0 q
  | F_angle => p_angle p = p_angle q
  | F_mass => p_mass p = p_mass q
  | F_area => p_area p = p_area q
  | F_y0 => p_y0 p = p_y0 q
  end.

(** [p] and [q] hold the same value in a field, or the two zeros. *)
Definition same_printed (g : Field) (p q : Params) : Prop :=
  match g with
  | F_dt => JS.SameValueZero (p_dt p) (p_dt q)
  | F_cd => JS.SameValueZero (p_cd p) (p_cd q)
  | F_atmo => p_atmo p = p_atmo q
  | F_windSpeed => JS.SameValueZero (p_windSpeed p) (p_windSpeed q)
  | F_windDir => JS.SameValueZero (p_windDir p) (p_windDir q)
  | F_v0 => JS.SameValueZero (p_v0 p) (p_v0 q)
  | F_angle => JS.SameValueZero (p_angle p) (p_angle q)
  | F_mass => JS.SameValueZero (p_mass p) (p_mass q)
  | F_area => JS.SameValueZero (p_area p) (p_area q)
  | F_y0 => JS.SameValueZero (p_y0 p) (p_y0 q)
  end.

(** *** Decimals and their digits

    What the statements on [Number::toString] are written with: characters
    that are digits, the layout of a printed number, and the real numbers
    that decimals and binary64 values stand for. *)

Section Decimals.
Import JS.

(** A decimal digit. *)
Definition is_digit (c : ascii) : Prop := (48 <= nat_of_ascii c <= 57)%nat.

(** The number a list of digits stands for, the least significant first. *)
Fixpoint value_le (l : list ascii) : Z :=
  match l with
  | [] => 0
  | c :: l => Z.of_nat (nat_of_ascii c) - 48 + 10 * value_le l
  end.

(** The digits of [s], the most significant first. *)
Definition digit_list (s : Z) : list ascii :=
  reverse (digits_le (S (Z.to_nat (Z.log2 s))) s).

(** [format_decimal] on lists of characters: [ds] are the digits and the
    value is [0.ds * 10^n]. *)
Definition format_list (ds : list ascii) (n : Z) : list ascii :=
  let k := Z.of_nat (length ds) in
  if (k <=? n) && (n <=? 21) then
    (ds ++ replicate (Z.to_nat (n - k)) "0"%char)%list
  else if (0 <? n) && (n <=? 21) then
    (take (Z.to_nat n) ds ++ "."%char :: drop (Z.to_nat n) ds)%list
  else if (-6 <? n) && (n <=? 0) then
    ("0"%char :: "."%char :: replicate (Z.to_nat (- n)) "0"%char ++ ds)%list
  else
    ((if k =? 1 then ds else take 1 ds ++ "."%char :: drop 1 ds)
       ++ "e"%char :: (if 0 <=? n - 1 then "+"%char else "-"%char)
       :: digit_list (Z.abs (n - 1)))%list.

(** Digits of a positive number without trailing zero. *)
Record good_digits (ds : list ascii) : Prop := {
  gd_digits : Forall is_digit ds;
  gd_head : exists c, head ds = Some c /\ c <> "0"%char;
  gd_last : exists c, last ds = Some c /\ c <> "0"%char
}.

(** Which of the four layouts is used, and how the layout shows in the
    output. *)
Definition layout (ds : list ascii) (n : Z) : nat :=
  let k := Z.of_nat (length ds) in
  if (k <=? n) && (n <=? 21) then 0%nat
  else if (0 <? n) && (n <=? 21) then 1%nat
  else if (-6 <? n) && (n <=? 0) then 2%nat
  else 3%nat.

Definition layout_of (o : list ascii) : nat :=
  if bool_decide ("e"%char ∈ o) then 3%nat
  else if bool_decide ("."%char ∈ o) then
    if bool_decide (head o = Some "0"%char) then 2%nat else 1%nat
  else 0%nat.

(** [s * 10^p] and [n * 2^e] as real numbers. *)
Definition dec_val (s p : Z) : R := (IZR s * powerRZ 10 p)%R.
Definition bin_val (n e : Z) : R := (IZR n * powerRZ 2 e)%R.

(** [s * 10^p] rounds to [m * 2^e]: it lies between the two midpoints, which
    belong to the interval when [m] is even. *)
Definition in_round_interval (m e : Z) (v : R) : Prop :=
  ((bin_val (round_lo m e) (e - 2) < v)%R
   \/ (bin_val (round_lo m e) (e - 2) = v /\ Z.even m = true))
  /\ ((v < bin_val (round_hi m) (e - 2))%R
      \/ (v = bin_val (round_hi m) (e - 2) /\ Z.even m = true)).

(** The mantissa and exponent of a finite nonzero double. *)
Definition double_repr (m e : Z) : Prop :=
  1 <= m < 2 ^ 53 /\ -1074 <= e /\ (-1074 < e -> 2 ^ 52 <= m).

End Decimals.

(** *** The order of the numbers

    The comparisons of binary64 values, read on keys that are compared as
    integers. *)

(** The place of a binary64 value in the order of the comparisons: the sign
    class, then the exponent, then the mantissa.  NaN has none. *)
Definition order_key (x : spec_float) : option (Z * Z * Z) :=
  match x with
  | S754_nan => None
  | S754_infinity true => Some (-2, 0, 0)
  | S754_finite true m e => Some (-1, - e, - Zpos m)
  | S754_zero _ => Some (0, 0, 0)
  | S754_finite false m e => Some (1, e, Zpos m)
  | S754_infinity false => Some (2, 0, 0)
  end.

Definition key_compare (a b : Z * Z * Z) : comparison :=
  let '(a1, a2, a3) := a in
  let '(b1, b2, b3) := b in
  match a1 ?= b1 with
  | Eq => match a2 ?= b2 with Eq => a3 ?= b3 | c => c end
  | c => c
  end.

(** The key of a number. *)
Definition float_key (x : float) : option (Z * Z * Z) := order_key (Prim2SF x).

Definition key_ltb (a b : Z * Z * Z) : bool :=
  let '(a1, a2, a3) := a in
  let '(b1, b2, b3) := b in
  (a1 <? b1) || ((a1 =? b1) && ((a2 <? b2) || ((a2 =? b2) && (a3 <? b3)))).

Definition key_eqb (a b : Z * Z * Z) : bool :=
  let '(a1, a2, a3) := a in
  let '(b1, b2, b3) := b in
  (a1 =? b1) && (a2 =? b2) && (a3 =? b3).

(** *** IEEE rounding, as [SpecFloat] computes it

    [located v m e l] places the real [v] with respect to the grid of step
    [2^e]: on the point [m], or after it, below, on or above the middle of
    the cell that starts at [m]. *)
Definition located (v : R) (m e : Z) (l : SpecFloat.location) : Prop :=
  match l with
  | SpecFloat.loc_Exact => v = bin_val m e
  | SpecFloat.loc_Inexact Lt =>
      (bin_val (2 * m) (e - 1) < v < bin_val (2 * m + 1) (e - 1))%R
  | SpecFloat.loc_Inexact Eq => v = bin_val (2 * m + 1) (e - 1)
  | SpecFloat.loc_Inexact Gt =>
      (bin_val (2 * m + 1) (e - 1) < v < bin_val (2 * m + 2) (e - 1))%R
  end.

Definition loc_code (l : SpecFloat.location) : Z :=
  match l with
  | SpecFloat.loc_Exact => 0
  | SpecFloat.loc_Inexact Lt => 1
  | SpecFloat.loc_Inexact Eq => 2
  | SpecFloat.loc_Inexact Gt => 3
  end.

Definition fexp64 (e : Z) : Z := SpecFloat.fexp prec emax e.

(** The real value of a finite binary64 number. *)
Definition sval (x : spec_float) : R :=
  match x with
  | S754_finite s m e => if s then (- bin_val (Zpos m) e)%R else bin_val (Zpos m) e
  | _ => 0%R
  end.

Definition finite_sf (x : spec_float) : bool :=
  match x with
  | S754_zero _ | S754_finite _ _ _ => true
  | _ => false
  end.

(** [rounding_of V r]: the operations return [r] for the exact result [V],
    a zero when [V] is zero and else [binary_round_aux], with the sign of
    [V], on a located representation of [|V|]. *)
Definition rounding_of (V : R) (r : spec_float) : Prop :=
  (V = 0%R /\ exists s, r = S754_zero s)
  \/ exists (s : bool) (mx ex : Z) (lx : SpecFloat.location),
       0 <= mx /\ located (Rabs V) mx ex lx
       /\ ex <= fexp64 (SpecFloat.Zdigits2 mx + ex)
       /\ r = SpecFloat.binary_round_aux prec emax s mx ex lx
       /\ (if s then (V < 0)%R else (0 < V)%R).

(** *** What the loop of [runPhysics] keeps, and the playback *)

(** The launch point stays first, and no later point is below the ground. *)
Definition path_from (y0 : float) (s : Sim) : Prop :=
  exists rest,
    s_pts s = mkPoint 0 y0 :: rest
    /\ Forall (fun p => (pt_y p <? 0)%float = false) rest.

(** No recorded point, and not the current height, is above [maxH]. *)
Definition under_maxH (s : Sim) : Prop :=
  Forall (fun p => (s_maxH s <? pt_y p)%float = false) (s_pts s)
  /\ (s_maxH s <? s_y s)%float = false.

(** The counter and the number of points. *)
Definition counted (s : Sim) : Prop :=
  0 <= s_steps s <= maxSteps
  /\ Z.of_nat (length (s_pts s)) <= s_steps s + 1
  /\ (s_steps s <= 50000 -> Z.of_nat (length (s_pts s)) = s_steps s + 1).

(** While a playback runs, the trajectory that is played is the last one
    stored and [animIdx] is an index of its path; otherwise no frame is
    requested. *)
Definition playing_inv (st : App) : Prop :=
  if isRunning st then
    exists traj,
      pendingFrame st = Some traj /\ animTraj st = Some traj
      /\ last (trajectories st) = Some traj
      /\ 0 <= animIdx st < Z.of_nat (length (e_pts traj))
  else pendingFrame st = None /\ animTraj st = None.

(** The bounds are not below a point. *)
Definition covers (b : float * float) (p : Point) : Prop :=
  (fst b <? pt_x p)%float = false /\ (snd b <? pt_y p)%float = false.

(** ** Inputs the examples are run on *)

(** A form as the page is filled in for a sphere, with time step [dt]. *)
Definition sphere_form (dt : float) : Form :=
  {| f_customStep := dt; f_v0 := 50; f_angle := 45; f_mass := 1;
     f_area := 0.01; f_y0 := 0; f_windSpeed := 0; f_windDir := 0;
     f_atmoModel := "const"; f_cdDisplay := 0.47; f_shape := Some "Sphere" |}.

(** Twenty-one forms that differ in their time step. *)
Definition forms21 : list Form :=
  map sphere_form
    [1; 2; 3; 4; 5; 6; 7; 8; 9; 10; 11; 12; 13; 14; 15; 16; 17; 18; 19; 20; 21]%float.

(** A form with a negative launch speed. *)
Definition backwards_form : Form :=
  {| f_customStep := 0.01; f_v0 := -5; f_angle := 45; f_mass := 1;
     f_area := 0.01; f_y0 := 0; f_windSpeed := 0; f_windDir := 0;
     f_atmoModel := "const"; f_cdDisplay := 0.47; f_shape := Some "Sphere" |}.

(** Two launches that differ in the sign of a zero angle only. *)
Definition level_params : Params :=
  {| p_dt := 0.01; p_v0 := 50; p_angle := 0; p_mass := 1; p_area := 0.01;
     p_y0 := 0; p_windSpeed := 0; p_windDir := 0; p_atmo := "const";
     p_cd := 0.47; p_shapeName := "Sphere" |}.

Definition level_params_neg : Params :=
  {| p_dt := 0.01; p_v0 := 50; p_angle := -0; p_mass := 1; p_area := 0.01;
     p_y0 := 0; p_windSpeed := 0; p_windDir := 0; p_atmo := "const";
     p_cd := 0.47; p_shapeName := "Sphere" |}.

(** * Properties *)

(** ** Comparisons of binary64 values *)

Lemma float_not_lt_not_ge_nan (y : float) :
  (y <? 0)%float = false -> (0 <=? y)%float = false -> JS.isNaN y = true.
Proof.
  unfold JS.isNaN, is_nan.
  rewrite FloatAxioms.ltb_spec, FloatAxioms.leb_spec, FloatAxioms.eqb_spec.
  change (Prim2SF 0) with (S754_zero false).
  destruct (Prim2SF y) as [[] | [] | | [] m e]; cbn; congruence.
Qed.

(** Multiplication by [1] is exact: the product of the mantissa by [2^52]
    is shifted back by 52 bits, with nothing to round. *)
Lemma SFmul_one_r (x : spec_float) :
  valid_binary x = true -> SF64mul x (Prim2SF 1) = x.
Proof.
  change (Prim2SF 1) with (S754_finite false 4503599627370496 (-52)).
  destruct x as [s | s | | s m e]; intros Hv;
    try (destruct s; reflexivity); try reflexivity.
  cbn in Hv. unfold bounded, canonical_mantissa in Hv.
  apply andb_prop in Hv as [Hc He]. apply Z.eqb_eq in Hc.
  unfold SF64mul, SFmul. rewrite xorb_false_r, Pos.mul_comm.
  lazy beta iota delta [Pos.mul].
  unfold binary_round_aux.
  unfold shr_fexp at 1. cbn [Zdigits2 digits2_pos shr_record_of_loc].
  match goal with
  | |- context [fexp ?p ?x ?a] => replace a with (Zpos (digits2_pos m) + e) by lia
  end.
  rewrite Hc.
  replace (e - (e + -52)) with 52 by lia.
  cbn [shr SpecFloat.iter_pos shr_1 orb].
  replace (e + -52 + 52) with e by lia.
  cbn [shr_m loc_of_shr_record round_nearest_even].
  unfold shr_fexp. cbn [Zdigits2]. rewrite Hc, Z.sub_diag.
  cbn [shr shr_record_of_loc shr_m]. now rewrite He.
Qed.

Lemma float_mul_one_r (x : float) : (x * 1)%float = x.
Proof.
  apply Prim2SF_inj. rewrite mul_spec. apply SFmul_one_r, Prim2SF_valid.
Qed.

(** ** The loop of [runPhysics] *)

Section Loop.

Context {M : JSMath}.
Variables (mass cd area dt windX : float) (atmoModel : string).

Lemma while_succ (n : N) (s : Sim) :
  while_ (N.succ n) loop_cond (loop_body mass cd area dt windX atmoModel) s
  = guarded_body mass cd area dt windX atmoModel (while_ n loop_cond (loop_body mass cd area dt windX atmoModel) s).
Proof. unfold while_. now rewrite N.iter_succ. Qed.

(** After the ground test of lines 102-107, [y] is [0] or not negative. *)
Lemma loop_body_y (s : Sim) :
  s_y (loop_body mass cd area dt windX atmoModel s) = 0%float
  \/ (s_y (loop_body mass cd area dt windX atmoModel s) <? 0)%float = false.
Proof.
  unfold loop_body; cbn.
  destruct (_ <? 0)%float eqn:Hy; [left | right]; auto.
Qed.

(** A step that went below the ground leaves [y = 0], and with it the loop
    test [y >= 0] true. *)
Lemma loop_body_landed (s : Sim) :
  s_y (loop_body mass cd area dt windX atmoModel s) = 0%float ->
  s_steps s + 1 < maxSteps ->
  loop_cond (loop_body mass cd area dt windX atmoModel s) = true.
Proof.
  intros Hy Hs. unfold loop_cond. rewrite Hy.
  change (0 <=? 0)%float with true. cbn [andb s_steps loop_body].
  apply Z.ltb_lt; exact Hs.
Qed.

(** After [n] iterations, either [n] steps were executed or the test on [y]
    failed. *)
Lemma while_steps (n : N) (s0 : Sim) :
  s_steps s0 = 0 -> Z.of_N n <= maxSteps ->
  let s := while_ n loop_cond (loop_body mass cd area dt windX atmoModel) s0 in
  s_steps s = Z.of_N n \/ ((0 <=? s_y s)%float = false /\ 0 <= s_steps s <= Z.of_N n).
Proof.
  intros H0. induction n as [| n IH] using N.peano_ind; intros Hn.
  - left. exact H0.
  - cbn zeta. rewrite while_succ.
    assert (Hn' : Z.of_N n <= maxSteps) by lia.
    specialize (IH Hn'). cbn zeta in IH.
    set (s := while_ n loop_cond (loop_body mass cd area dt windX atmoModel) s0) in *.
    unfold guarded_body, loop_cond.
    destruct (0 <=? s_y s)%float eqn:Hy; cbn [andb].
    + destruct IH as [IHn | [IHy _]]; [| discriminate].
      destruct (Z.ltb_spec (s_steps s) maxSteps) as [Hlt | Hge]; [| exfalso; lia].
      left. cbn [s_steps loop_body]. lia.
    + right. split; [exact Hy | lia].
Qed.

(** The fuel [maxSteps] is enough: the loop is left with its test false. *)
Lemma while_exit (s0 : Sim) :
  s_steps s0 = 0 ->
  loop_cond (while_ (Z.to_N maxSteps) loop_cond
               (loop_body mass cd area dt windX atmoModel) s0) = false.
Proof.
  intros H0.
  assert (Hf : Z.of_N (Z.to_N maxSteps) = maxSteps) by reflexivity.
  revert Hf. generalize (Z.to_N maxSteps). intros fuel Hf.
  assert (Hle : Z.of_N fuel <= maxSteps) by lia.
  pose proof (while_steps fuel s0 H0 Hle) as H. cbn zeta in H.
  set (s := while_ fuel loop_cond (loop_body mass cd area dt windX atmoModel) s0) in *.
  unfold loop_cond.
  destruct H as [Hs | [Hy _]].
  - rewrite Hs, Hf, Z.ltb_irrefl. apply andb_false_r.
  - now rewrite Hy.
Qed.

(** [y] after the loop: the start value if the body never ran, else [0] or a
    value that is not negative. *)
Lemma while_y (n : N) (s0 : Sim) :
  let s := while_ n loop_cond (loop_body mass cd area dt windX atmoModel) s0 in
  s = s0 \/ s_y s = 0%float \/ (s_y s <? 0)%float = false.
Proof.
  induction n as [| n IH] using N.peano_ind.
  - left. reflexivity.
  - cbn zeta. rewrite while_succ. unfold guarded_body.
    destruct (loop_cond _) eqn:Hc.
    + right. apply loop_body_y.
    + exact IH.
Qed.

Lemma kin_loop_body (s : Sim) :
  (0 <=? s_y s)%float = true ->
  kin_of (loop_body mass cd area dt windX atmoModel s) = kin_step mass cd area dt windX atmoModel (kin_of s).
Proof. intros Hy. unfold kin_step, kin_of at 2. rewrite Hy. reflexivity. Qed.

Lemma kin_while (n : N) (s0 : Sim) :
  s_steps s0 = 0 -> Z.of_N n <= maxSteps ->
  kin_of (while_ n loop_cond (loop_body mass cd area dt windX atmoModel) s0)
  = N.iter n (kin_step mass cd area dt windX atmoModel) (kin_of s0).
Proof.
  intros H0. induction n as [| n IH] using N.peano_ind; intros Hn.
  - reflexivity.
  - assert (Hn' : Z.of_N n <= maxSteps) by lia.
    rewrite while_succ, N.iter_succ, <- (IH Hn').
    pose proof (while_steps n s0 H0 Hn') as H. cbn zeta in H.
    set (s := while_ n loop_cond (loop_body mass cd area dt windX atmoModel) s0) in *.
    unfold guarded_body, loop_cond.
    destruct (0 <=? s_y s)%float eqn:Hy; cbn [andb].
    + destruct H as [Hs | [Hy' _]]; [| congruence].
      destruct (Z.ltb_spec (s_steps s) maxSteps) as [Hlt | Hge]; [| exfalso; lia].
      now apply kin_loop_body.
    + unfold kin_step, kin_of. now rewrite Hy.
Qed.

End Loop.

(** ** The integrator does not stop where the projectile lands *)

Section Landing.

Context {M : JSMath}.

(** The loop is left at the step cap, unless [y] has become NaN or the
    launch height already fails [y >= 0]. *)
Lemma physics_loop_leaves_at_cap
    (v0 angleDeg mass cd area dt y0 windSpeed windDirDeg : float) (atmoModel : string) :
  let s := physics_loop v0 angleDeg mass cd area dt y0 windSpeed windDirDeg atmoModel in
  s_steps s = maxSteps
  \/ JS.isNaN (s_y s) = true
  \/ (s = physics_init v0 angleDeg y0 /\ (0 <=? y0)%float = false).
Proof.
  cbn zeta. unfold physics_loop.
  assert (Hf : Z.of_N (Z.to_N maxSteps) = maxSteps) by reflexivity.
  revert Hf. generalize (Z.to_N maxSteps). intros fuel Hf.
  assert (Hle : Z.of_N fuel <= maxSteps) by lia.
  pose proof (while_steps mass cd area dt (windX_of windSpeed windDirDeg) atmoModel
                fuel (physics_init v0 angleDeg y0) eq_refl Hle) as Hs.
  pose proof (while_y mass cd area dt (windX_of windSpeed windDirDeg) atmoModel
                fuel (physics_init v0 angleDeg y0)) as Hy.
  cbn zeta in Hs, Hy.
  set (s := while_ fuel loop_cond _ _) in *.
  destruct Hs as [Hs | [Hge _]]; [left; lia |].
  right. destruct Hy as [Hy | [Hy | Hy]].
  - right. split; [exact Hy |]. rewrite Hy in Hge. exact Hge.
  - rewrite Hy in Hge. discriminate.
  - left. now apply float_not_lt_not_ge_nan.
Qed.

Lemma windX_of_zero (windSpeed : float) :
  windX_of windSpeed 0 = (windSpeed * 1)%float.
Proof.
  unfold windX_of. change (0 * Math_PI / 180)%float with 0%float.
  now rewrite Math_cos_zero.
Qed.

Lemma physics_init_level (v0 y0 : float) :
  physics_init v0 0 y0 = mkSim (v0 * 1) (v0 * 0) 0 y0 [mkPoint 0 y0] y0 0.
Proof.
  unfold physics_init. change (0 * Math_PI / 180)%float with 0%float.
  now rewrite Math_cos_zero, Math_sin_zero.
Qed.

Lemma iter_fixed {A : Type} (f : A -> A) (x : A) (n : N) :
  f x = x -> N.iter n f x = x.
Proof.
  intros Hx. induction n as [| n IH] using N.peano_ind; [reflexivity |].
  now rewrite N.iter_succ, IH.
Qed.

(** A level launch at 50 m/s from a height of 100 m: [mass = 1],
    [Cd = 0.47], [area = 0.01], [dt = 1], no wind, constant density.  After
    four steps the projectile is still in the air; the fifth step goes
    below the ground and is clamped to [y = 0]. *)
Lemma level_launch_lands :
  let body := loop_body 1 0.47 0.01 1 (windX_of 0 0) "const" in
  let s4 := while_ 4 loop_cond body (physics_init 50 0 100) in
  let s5 := while_ 5 loop_cond body (physics_init 50 0 100) in
  (0 <? s_y s4)%float = true
  /\ (s_y s4 + s_vy s5 * 1 <? 0)%float = true
  /\ s_y s5 = 0%float
  /\ pt_y (last_point (s_pts s5)) = 0%float
  /\ s_steps s5 = 5
  /\ loop_cond s5 = true.
Proof.
  cbn zeta. rewrite windX_of_zero, physics_init_level. lazy.
  repeat split; reflexivity.
Qed.

(** From step 4042 on the velocity no longer changes and [y] stays [0]. *)
Lemma level_launch_settles :
  let f := kin_step 1 0.47 0.01 1 (0 * 1) "const" in
  let k := N.iter 4042 f (50 * 1, 50 * 0, 100)%float in
  f k = k /\ (0 <=? snd k)%float = true.
Proof. lazy. split; reflexivity. Qed.

Lemma level_launch_steps :
  s_steps (physics_loop 50 0 1 0.47 0.01 1 100 0 0 "const") = maxSteps.
Proof.
  unfold physics_loop. rewrite windX_of_zero, physics_init_level.
  assert (Hf : Z.to_N maxSteps = (19995958 + 4042)%N) by reflexivity.
  revert Hf. generalize (Z.to_N maxSteps). intros fuel Hf.
  assert (Hle : Z.of_N fuel <= maxSteps) by (rewrite Hf; lazy; discriminate).
  set (s0 := mkSim _ _ _ _ _ _ _).
  pose proof (while_steps 1 0.47 0.01 1 (0 * 1) "const" fuel s0 eq_refl Hle) as Hs.
  pose proof (kin_while 1 0.47 0.01 1 (0 * 1) "const" fuel s0 eq_refl Hle) as Hkin.
  cbn zeta in Hs.
  set (s := while_ fuel loop_cond _ _) in *.
  destruct Hs as [Hs | [Hy _]].
  - rewrite Hs, Hf. reflexivity.
  - destruct level_launch_settles as [Hfix Hpos].
    change (kin_of s0) with (50 * 1, 50 * 0, 100)%float in Hkin.
    rewrite Hf, N.iter_add, (iter_fixed _ _ _ Hfix) in Hkin.
    rewrite <- Hkin in Hpos. cbn [kin_of snd] in Hpos. congruence.
Qed.

End Landing.

(** ** Wind direction *)

Section Wind.

Context {M : JSMath}.

Lemma windX_of_direction_zero (windSpeed : float) :
  windX_of windSpeed 0 = windSpeed.
Proof. rewrite windX_of_zero. apply float_mul_one_r. Qed.

Lemma opposite_sign_pos_pos (a b : float) :
  (0 <? a)%float = true -> (0 <? b)%float = true -> opposite_sign a b = false.
Proof.
  intros Ha Hb. unfold opposite_sign. rewrite Ha, Hb. cbn.
  assert (Hlt : forall c, (0 <? c)%float = true -> (c <? 0)%float = false).
  { intros c. rewrite !FloatAxioms.ltb_spec.
    change (Prim2SF 0) with (S754_zero false).
    destruct (Prim2SF c) as [[] | [] | | [] m e]; cbn; congruence. }
  now rewrite (Hlt a Ha), (Hlt b Hb).
Qed.

End Wind.

(** ** The result store *)

Section StoreFacts.

Context {M : JSMath}.

Lemma simulate_running (st : App) (f : Form) :
  isRunning st = true -> simulate st f = (st, AlreadyRunning).
Proof. intros H. unfold simulate. now rewrite H. Qed.

Lemma simulate_invalid (st : App) (f : Form) :
  isRunning st = false -> valid_step f = false ->
  simulate st f = (st, InvalidTimeStep).
Proof.
  intros Hr Hv. unfold simulate. rewrite Hr.
  unfold valid_step in Hv. apply negb_false_iff in Hv.
  cbn [readForm p_dt]. now rewrite Hv.
Qed.

Lemma simulate_duplicate (st : App) (f : Form) :
  isRunning st = false -> valid_step f = true ->
  form_key f ∈ computedKeys st ->
  simulate st f = (st, AlreadyComputed).
Proof.
  intros Hr Hv Hk. unfold simulate. rewrite Hr.
  unfold valid_step in Hv. apply negb_true_iff in Hv.
  cbn [readForm p_dt]. rewrite Hv.
  fold (readForm f). fold (form_key f).
  now rewrite bool_decide_eq_true_2.
Qed.

Lemma simulate_full (st : App) (f : Form) :
  isRunning st = false -> valid_step f = true ->
  form_key f ∉ computedKeys st ->
  (MAX_TRAJ <= length (trajectories st))%nat ->
  simulate st f = (st, MaxReached).
Proof.
  intros Hr Hv Hk Hn. unfold simulate. rewrite Hr.
  unfold valid_step in Hv. apply negb_true_iff in Hv.
  cbn [readForm p_dt]. rewrite Hv.
  fold (readForm f). fold (form_key f).
  rewrite bool_decide_eq_false_2 by exact Hk.
  apply Nat.leb_le in Hn. now rewrite Hn.
Qed.

Lemma simulate_accept (st : App) (f : Form) :
  isRunning st = false -> valid_step f = true ->
  form_key f ∉ computedKeys st ->
  (length (trajectories st) < MAX_TRAJ)%nat ->
  simulate st f
  = (accepted st f, Simulated (make_entry (color_at (colorIdx st)) (readForm f))).
Proof.
  intros Hr Hv Hk Hn. unfold simulate. rewrite Hr.
  unfold valid_step in Hv. apply negb_true_iff in Hv.
  cbn [readForm p_dt]. rewrite Hv.
  fold (readForm f). fold (form_key f).
  rewrite bool_decide_eq_false_2 by exact Hk.
  apply Nat.leb_gt in Hn. rewrite Hn. reflexivity.
Qed.

(** The five ways out of [simulate]. *)
Lemma simulate_cases (st : App) (f : Form) :
  simulate st f = (st, AlreadyRunning)
  \/ simulate st f = (st, InvalidTimeStep)
  \/ simulate st f = (st, AlreadyComputed)
  \/ simulate st f = (st, MaxReached)
  \/ (isRunning st = false /\ valid_step f = true
      /\ (form_key f ∉ computedKeys st)
      /\ (length (trajectories st) < MAX_TRAJ)%nat
      /\ simulate st f
         = (accepted st f,
            Simulated (make_entry (color_at (colorIdx st)) (readForm f)))).
Proof.
  destruct (isRunning st) eqn:Hr; [left; now apply simulate_running |].
  destruct (valid_step f) eqn:Hv;
    [| right; left; now apply simulate_invalid].
  destruct (decide (form_key f ∈ computedKeys st)) as [Hk | Hk];
    [right; right; left; now apply simulate_duplicate |].
  destruct (le_lt_dec MAX_TRAJ (length (trajectories st))) as [Hn | Hn];
    [right; right; right; left; now apply simulate_full |].
  right; right; right; right. repeat split; auto. now apply simulate_accept.
Qed.

(** [pts] always holds the launch point. *)
Lemma runPhysics_pts_nonempty
    (v0 angleDeg mass cd area dt y0 windSpeed windDirDeg : float) (atmoModel : string) :
  (0 < length (r_pts (runPhysics v0 angleDeg mass cd area dt y0 windSpeed
                        windDirDeg atmoModel)))%nat.
Proof.
  unfold runPhysics, physics_loop. cbn [r_pts].
  generalize (Z.to_N maxSteps). intros fuel.
  induction fuel as [| fuel IH] using N.peano_ind.
  - cbn. lia.
  - rewrite while_succ. unfold guarded_body.
    destruct (loop_cond _); [| exact IH].
    unfold loop_body. cbn [s_pts].
    destruct (keep_point _); [| exact IH].
    rewrite length_app. cbn [length]. lia.
Qed.

Lemma make_entry_pts_nonempty (c : string) (p : Params) :
  (0 < length (e_pts (make_entry c p)))%nat.
Proof. apply runPhysics_pts_nonempty. Qed.

(** *** Playback *)

Lemma frame_idle (st : App) : pendingFrame st = None -> frame st = st.
Proof. intros H. unfold frame. now rewrite H. Qed.

Lemma frames_idle (k : nat) (st : App) :
  pendingFrame st = None -> Nat.iter k frame st = st.
Proof.
  intros H. induction k as [| k IH]; [reflexivity |].
  rewrite Nat.iter_succ, IH. now apply frame_idle.
Qed.

Lemma frames_finish (traj : Entry) (k : nat) (st : App) :
  pendingFrame st = Some traj ->
  (1 <= k)%nat ->
  Z.of_nat (length (e_pts traj)) - animIdx st <= Z.of_nat k ->
  Nat.iter k frame st = played traj st.
Proof.
  revert st. induction k as [| k IH]; intros st Hp Hk Hlen; [lia |].
  rewrite Nat.iter_succ_r.
  assert (Hstride : 1 <= Z.max 1 (Z.of_nat (length (e_pts traj)) / 300)) by lia.
  unfold frame at 2. rewrite Hp. unfold step.
  destruct (Z.leb_spec (Z.of_nat (length (e_pts traj)))
              (animIdx st + Z.max 1 (Z.of_nat (length (e_pts traj)) / 300)))
    as [Hdone | Hmore].
  - now rewrite frames_idle.
  - rewrite IH; [reflexivity | reflexivity | |];
      cbn [animIdx] in *; lia.
Qed.

Lemma finish_playback_accepted (st : App) (f : Form) :
  finish_playback (accepted st f) = settled st f.
Proof.
  unfold finish_playback. cbn [pendingFrame accepted].
  rewrite (frames_finish (make_entry (color_at (colorIdx st)) (readForm f)));
    [reflexivity | reflexivity | |].
  - pose proof (make_entry_pts_nonempty (color_at (colorIdx st)) (readForm f)). lia.
  - cbn [animIdx accepted]. lia.
Qed.

Lemma finish_playback_idle (st : App) :
  pendingFrame st = None -> finish_playback st = st.
Proof. intros H. unfold finish_playback. now rewrite H. Qed.

Lemma run_and_wait_accept (st : App) (f : Form) :
  isRunning st = false -> valid_step f = true ->
  form_key f ∉ computedKeys st ->
  (length (trajectories st) < MAX_TRAJ)%nat ->
  run_and_wait st f = settled st f.
Proof.
  intros Hr Hv Hk Hn. unfold run_and_wait.
  rewrite simulate_accept by assumption. apply finish_playback_accepted.
Qed.

End StoreFacts.

(** *** Invariants of the reachable states *)

Section StoreInvariant.

Context {M : JSMath}.

Lemma store_inv_initial : store_inv initial.
Proof.
  split; cbn; try done. unfold MAX_TRAJ. lia.
Qed.

Lemma store_inv_accepted (st : App) (f : Form) :
  store_inv st ->
  form_key f ∉ computedKeys st ->
  (length (trajectories st) < MAX_TRAJ)%nat ->
  store_inv (accepted st f).
Proof.
  intros [Hsize Hcount Hcol Hkeys Hidle] Hk Hn.
  split; cbn [accepted trajectories colorIdx computedKeys isRunning pendingFrame].
  - rewrite length_app. cbn. lia.
  - rewrite length_app. cbn. lia.
  - intros i e Hi. apply lookup_app_Some in Hi as [Hi | [Hge Hi]].
    + now apply Hcol.
    + apply list_lookup_singleton_Some in Hi as [Hi <-].
      cbn [e_color make_entry]. rewrite Hcount. f_equal. lia.
  - rewrite size_union by set_solver.
    rewrite size_singleton, length_app, Hkeys. cbn. lia.
  - split; discriminate.
Qed.

Lemma store_inv_simulate (st : App) (f : Form) :
  store_inv st -> store_inv (fst (simulate st f)).
Proof.
  intros Hinv.
  destruct (simulate_cases st f) as [H | [H | [H | [H | (_ & _ & Hk & Hn & H)]]]];
    rewrite H; cbn [fst]; auto using store_inv_accepted.
Qed.

Lemma store_inv_clearAll (st : App) :
  store_inv st -> store_inv (fst (clearAll st)).
Proof.
  intros Hinv. unfold clearAll.
  destruct (isRunning st) eqn:Hr; cbn [fst]; [exact Hinv |].
  split; cbn; try done. unfold MAX_TRAJ. lia.
Qed.

Lemma store_inv_frame (st : App) : store_inv st -> store_inv (frame st).
Proof.
  intros Hinv. unfold frame.
  destruct (pendingFrame st) as [traj |] eqn:Hp; [| exact Hinv].
  destruct Hinv as [Hsize Hcount Hcol Hkeys Hidle].
  unfold step. destruct (_ <=? _); split; cbn; try done.
  split; [| discriminate].
  intros Hr. apply Hidle in Hr. congruence.
Qed.

Lemma store_inv_handle (st : App) (ev : event) :
  store_inv st -> store_inv (handle st ev).
Proof.
  destruct ev; cbn [handle];
    auto using store_inv_simulate, store_inv_clearAll, store_inv_frame.
Qed.

Lemma reachable_inv (st : App) : reachable st -> store_inv st.
Proof.
  induction 1 as [| st ev _ IH];
    [apply store_inv_initial | now apply store_inv_handle].
Qed.

(** The colour of the palette, by position. *)
Lemma color_at_lookup (i : nat) : COLORS !! (i mod 8)%nat = Some (color_at i).
Proof.
  unfold color_at. change (length COLORS) with 8%nat.
  destruct (COLORS !! (i mod 8)%nat) as [c |] eqn:Hc; [reflexivity |].
  apply lookup_ge_None in Hc. change (length COLORS) with 8%nat in Hc.
  pose proof (Nat.mod_upper_bound i 8). lia.
Qed.

(** *** Reaching states by whole runs *)

Lemma reachable_frames (k : nat) (st : App) :
  reachable st -> reachable (Nat.iter k frame st).
Proof.
  intros H. induction k as [| k IH]; [exact H |].
  rewrite Nat.iter_succ. exact (reachable_handle _ Frame IH).
Qed.

Lemma reachable_simulate (st : App) (f : Form) :
  reachable st -> reachable (fst (simulate st f)).
Proof. intros H. exact (reachable_handle _ (Run f) H). Qed.

Lemma reachable_run_and_wait (st : App) (f : Form) :
  reachable st -> reachable (run_and_wait st f).
Proof.
  intros H. unfold run_and_wait, finish_playback.
  destruct (pendingFrame _);
    [apply reachable_frames |]; now apply reachable_simulate.
Qed.

Lemma reachable_foldl (fs : list Form) (st : App) :
  reachable st -> reachable (foldl run_and_wait st fs).
Proof.
  revert st. induction fs as [| f fs IH]; intros st H; [exact H |].
  cbn [foldl]. now apply IH, reachable_run_and_wait.
Qed.

(** *** Filling the store *)

Lemma length_entries_from (c : nat) (fs : list Form) :
  length (entries_from c fs) = length fs.
Proof. revert c. induction fs as [| f fs IH]; intros c; cbn; [| rewrite IH]; reflexivity. Qed.

Lemma run_and_wait_full (st : App) (f : Form) :
  isRunning st = false -> pendingFrame st = None ->
  (MAX_TRAJ <= length (trajectories st))%nat ->
  run_and_wait st f = st.
Proof.
  intros Hr Hp Hn. unfold run_and_wait.
  destruct (simulate_cases st f) as [H | [H | [H | [H | (_ & _ & _ & Hlt & _)]]]];
    [| | | | lia]; rewrite H; cbn [fst]; now apply finish_playback_idle.
Qed.

Lemma fill_store (fs : list Form) (st : App) :
  isRunning st = false -> pendingFrame st = None ->
  Forall (fun f => valid_step f = true) fs ->
  NoDup (map form_key fs) ->
  (forall f, f ∈ fs -> form_key f ∉ computedKeys st) ->
  let room := (MAX_TRAJ - length (trajectories st))%nat in
  let st' := foldl run_and_wait st fs in
  trajectories st'
  = (trajectories st ++ entries_from (colorIdx st) (take room fs))%list
  /\ computedKeys st' = list_to_set (map form_key (take room fs)) ∪ computedKeys st
  /\ isRunning st' = false /\ pendingFrame st' = None.
Proof.
  revert st. induction fs as [| f fs IH]; intros st Hr Hp Hv Hnd Hfresh; cbn zeta.
  - rewrite take_nil. cbn. rewrite app_nil_r. repeat split; auto. set_solver.
  - cbn [foldl]. apply Forall_cons in Hv as [Hvf Hv].
    cbn [map] in Hnd. apply NoDup_cons in Hnd as [Hf Hnd].
    destruct (le_lt_dec MAX_TRAJ (length (trajectories st))) as [Hn | Hn].
    + rewrite run_and_wait_full by assumption.
      destruct (IH st Hr Hp Hv Hnd) as (Ht & Hk & Hr' & Hp').
      { intros g Hg. apply Hfresh. now right. }
      cbn zeta in Ht, Hk.
      replace (MAX_TRAJ - length (trajectories st))%nat with 0%nat in * by lia.
      rewrite take_0 in *. auto.
    + rewrite run_and_wait_accept; [| assumption | assumption | | assumption].
      2:{ apply Hfresh. now left. }
      destruct (IH (settled st f)) as (Ht & Hk & Hr' & Hp'); try reflexivity; try assumption.
      { intros g Hg. cbn [computedKeys settled].
        assert (form_key g <> form_key f).
        { intros Heq. apply Hf. rewrite <- Heq. apply list_elem_of_fmap. eauto. }
        assert (form_key g ∉ computedKeys st) by (apply Hfresh; now right).
        set_solver. }
      cbn zeta in Ht, Hk.
      cbn [trajectories colorIdx computedKeys settled] in Ht, Hk.
      rewrite length_app in Ht, Hk. cbn [length] in Ht, Hk.
      replace (MAX_TRAJ - length (trajectories st))%nat
        with (S (MAX_TRAJ - (length (trajectories st) + 1)))%nat by lia.
      cbn [take entries_from map list_to_set].
      rewrite Ht, Hk, <- app_assoc. repeat split; auto. set_solver.
Qed.

(** From the empty store, as long as there is room. *)
Lemma fill_store_initial (fs : list Form) :
  (length fs <= MAX_TRAJ)%nat ->
  Forall (fun f => valid_step f = true) fs ->
  NoDup (map form_key fs) ->
  let st := foldl run_and_wait initial fs in
  trajectories st = entries_from 0 fs
  /\ computedKeys st = list_to_set (map form_key fs)
  /\ isRunning st = false /\ pendingFrame st = None.
Proof.
  intros Hlen Hv Hnd.
  assert (Hnew : forall f, f ∈ fs -> form_key f ∉ computedKeys initial)
    by (cbn; set_solver).
  destruct (fill_store fs initial eq_refl eq_refl Hv Hnd Hnew) as (Ht & Hk & Hr & Hp).
  cbn zeta in *. cbn [initial trajectories colorIdx computedKeys length] in Ht, Hk.
  rewrite Nat.sub_0_r, take_ge in Ht, Hk by lia.
  cbn [app] in Ht. repeat split; try assumption. rewrite Hk. set_solver.
Qed.

End StoreInvariant.

(** ** Strings and [Number::toString] *)

Section NumberToString.
Import JS.

(** *** Strings as lists of characters *)

Lemma list_ascii_of_string_app (a b : string) :
  list_ascii_of_string (a ++ b)
  = (list_ascii_of_string a ++ list_ascii_of_string b)%list.
Proof.
  induction a as [| c a IH]; [reflexivity |].
  change (c :: list_ascii_of_string (a ++ b)
          = c :: (list_ascii_of_string a ++ list_ascii_of_string b)%list).
  now rewrite IH.
Qed.

Lemma list_ascii_of_string_inj (a b : string) :
  list_ascii_of_string a = list_ascii_of_string b -> a = b.
Proof.
  intros H. rewrite <- (string_of_list_ascii_of_string a), H.
  apply string_of_list_ascii_of_string.
Qed.

Lemma append_inv_tail (a b s : string) : a ++ s = b ++ s -> a = b.
Proof.
  intros H. apply (f_equal list_ascii_of_string) in H.
  rewrite !list_ascii_of_string_app in H. apply app_inv_tail in H.
  now apply list_ascii_of_string_inj.
Qed.

Lemma append_inv_head (s a b : string) : s ++ a = s ++ b -> a = b.
Proof. induction s as [| c s IH]; cbn; intros H; [exact H |]. injection H. exact IH. Qed.

Lemma list_ascii_of_zeros (n : nat) :
  list_ascii_of_string (zeros n) = replicate n "0"%char.
Proof. induction n as [| n IH]; cbn; [| rewrite IH]; reflexivity. Qed.

Lemma list_ascii_of_substring (i n : nat) (s : string) :
  list_ascii_of_string (substring i n s) = take n (drop i (list_ascii_of_string s)).
Proof.
  revert i n. induction s as [| c s IH]; intros i n.
  - destruct i, n; reflexivity.
  - destruct i as [| i].
    + destruct n as [| n]; [reflexivity |].
      cbn [substring list_ascii_of_string drop take]. now rewrite (IH 0%nat n), drop_0.
    + cbn [substring list_ascii_of_string drop]. apply IH.
Qed.

Lemma length_list_ascii_of_string (s : string) :
  length (list_ascii_of_string s) = String.length s.
Proof. induction s as [| c s IH]; cbn; [| rewrite IH]; reflexivity. Qed.

(** Cutting at the first occurrence of a character. *)
Lemma app_cons_inj_fresh {A : Type} (c : A) (a b a' b' : list A) :
  c ∉ a -> c ∉ a' ->
  (a ++ c :: b = a' ++ c :: b')%list -> a = a' /\ b = b'.
Proof.
  revert a'. induction a as [| x a IH]; intros [| x' a'] Ha Ha' H; cbn in H.
  - injection H as ->. auto.
  - injection H as <- _. exfalso. apply Ha'. left.
  - injection H as -> _. exfalso. apply Ha. left.
  - injection H as -> H.
    destruct (IH a') as [-> ->]; auto.
    + intros Hin. apply Ha. now right.
    + intros Hin. apply Ha'. now right.
Qed.

(** Zeros in front of a list that starts with another character. *)
Lemma replicate_app_inj_head {A : Type} (z : A) (j j' : nat) (l l' : list A) :
  head l <> Some z -> l <> [] -> head l' <> Some z -> l' <> [] ->
  (replicate j z ++ l = replicate j' z ++ l')%list -> j = j' /\ l = l'.
Proof.
  revert j'. induction j as [| j IH]; intros [| j'] Hl Hn Hl' Hn' H; cbn in H.
  - auto.
  - subst l. cbn in Hl. congruence.
  - subst l'. cbn in Hl'. congruence.
  - injection H as H. destruct (IH j') as [-> ->]; auto.
Qed.

(** Zeros behind a list that ends with another character. *)
Lemma replicate_app_inj_last {A : Type} (z : A) (j j' : nat) (l l' : list A) :
  last l <> Some z -> l <> [] -> last l' <> Some z -> l' <> [] ->
  (l ++ replicate j z = l' ++ replicate j' z)%list -> j = j' /\ l = l'.
Proof.
  intros Hl Hn Hl' Hn' H.
  apply (f_equal reverse) in H. rewrite !reverse_app, !reverse_replicate in H.
  apply replicate_app_inj_head in H.
  - destruct H as [-> H]. split; [reflexivity |].
    now rewrite <- (reverse_involutive l), H, reverse_involutive.
  - now rewrite head_reverse.
  - intros E. apply Hn. now rewrite <- (reverse_involutive l), E.
  - now rewrite head_reverse.
  - intros E. apply Hn'. now rewrite <- (reverse_involutive l'), E.
Qed.

(** *** Decimal digits *)

Lemma nat_of_digit (d : Z) : 0 <= d < 10 -> nat_of_ascii (digit d) = (48 + Z.to_nat d)%nat.
Proof. intros Hd. unfold digit. apply nat_ascii_embedding. lia. Qed.

Lemma is_digit_digit (d : Z) : 0 <= d < 10 -> is_digit (digit d).
Proof. intros Hd. unfold is_digit. rewrite nat_of_digit by exact Hd. lia. Qed.

Lemma digit_inj (a b : Z) : 0 <= a < 10 -> 0 <= b < 10 -> digit a = digit b -> a = b.
Proof.
  intros Ha Hb H. apply (f_equal nat_of_ascii) in H.
  rewrite !nat_of_digit in H by assumption. lia.
Qed.

Lemma digit_zero (d : Z) : 0 <= d < 10 -> digit d = "0"%char -> d = 0.
Proof. intros Hd H. now apply (digit_inj d 0). Qed.

Lemma digits_le_nonempty (f : nat) (s : Z) : digits_le (S f) s <> [].
Proof. discriminate. Qed.

Lemma digits_le_is_digit (f : nat) (s : Z) : Forall is_digit (digits_le f s).
Proof.
  revert s. induction f as [| f IH]; intros s; cbn [digits_le]; constructor.
  - apply is_digit_digit, Z.mod_pos_bound. lia.
  - destruct (s <? 10); [constructor | apply IH].
Qed.

Lemma value_digits_le (f : nat) (s : Z) :
  0 <= s < 2 ^ Z.of_nat f -> value_le (digits_le f s) = s.
Proof.
  revert s. induction f as [| f IH]; intros s Hs.
  - cbn in *. lia.
  - cbn [digits_le value_le].
    rewrite nat_of_digit by (apply Z.mod_pos_bound; lia).
    assert (Hm : 0 <= s mod 10 < 10) by (apply Z.mod_pos_bound; lia).
    destruct (Z.ltb_spec s 10) as [Hlt | Hge].
    + cbn [value_le]. rewrite Z.mod_small by lia. lia.
    + rewrite IH.
      * pose proof (Z.div_mod s 10). lia.
      * rewrite Nat2Z.inj_succ, Z.pow_succ_r in Hs by lia.
        split; [apply Z.div_pos; lia |].
        apply Z.div_lt_upper_bound; lia.
Qed.

Lemma last_digits_le (f : nat) (s : Z) :
  1 <= s < 2 ^ Z.of_nat f -> exists c, last (digits_le f s) = Some c /\ c <> "0"%char.
Proof.
  revert s. induction f as [| f IH]; intros s Hs.
  - cbn in *. lia.
  - cbn [digits_le].
    destruct (Z.ltb_spec s 10) as [Hlt | Hge].
    + exists (digit (s mod 10)). split; [reflexivity |].
      rewrite Z.mod_small by lia. intros H. apply digit_zero in H; lia.
    + rewrite Nat2Z.inj_succ, Z.pow_succ_r in Hs by lia.
      destruct (IH (s / 10)) as (c & Hc & Hne).
      { split; [| apply Z.div_lt_upper_bound; lia].
        apply Z.div_le_lower_bound; lia. }
      exists c. split; [| exact Hne].
      destruct (digits_le f (s / 10)) as [| x l]; [discriminate | exact Hc].
Qed.

Lemma log2_fuel (s : Z) : 0 <= s -> s < 2 ^ Z.of_nat (S (Z.to_nat (Z.log2 s))).
Proof.
  intros Hs. rewrite Nat2Z.inj_succ, Z2Nat.id by apply Z.log2_nonneg.
  destruct (Z.eq_dec s 0) as [-> | Hne]; [reflexivity |].
  apply Z.log2_spec. lia.
Qed.

Lemma list_ascii_of_digits_of (s : Z) :
  list_ascii_of_string (digits_of s) = digit_list s.
Proof. apply list_ascii_of_string_of_list_ascii. Qed.

Lemma digit_list_nonempty (s : Z) : digit_list s <> [].
Proof.
  unfold digit_list. intros H. apply (f_equal reverse) in H.
  rewrite reverse_involutive in H. discriminate.
Qed.

Lemma digit_list_is_digit (s : Z) : Forall is_digit (digit_list s).
Proof.
  unfold digit_list. apply Forall_forall. intros c Hc.
  rewrite elem_of_reverse in Hc.
  exact (proj1 (Forall_forall _ _) (digits_le_is_digit _ s) c Hc).
Qed.

Lemma digit_list_inj (s s' : Z) :
  0 <= s -> 0 <= s' -> digit_list s = digit_list s' -> s = s'.
Proof.
  intros Hs Hs' H. unfold digit_list in H.
  apply (f_equal reverse) in H. rewrite !reverse_involutive in H.
  rewrite <- (value_digits_le (S (Z.to_nat (Z.log2 s))) s),
    <- (value_digits_le (S (Z.to_nat (Z.log2 s'))) s'), H;
    auto using log2_fuel.
Qed.

Lemma head_digit_list (s : Z) :
  1 <= s -> exists c, head (digit_list s) = Some c /\ c <> "0"%char.
Proof.
  intros Hs. unfold digit_list. rewrite head_reverse.
  apply last_digits_le. split; [exact Hs | apply log2_fuel; lia].
Qed.

Lemma last_digit_list (s : Z) :
  0 <= s -> s mod 10 <> 0 ->
  exists c, last (digit_list s) = Some c /\ c <> "0"%char.
Proof.
  intros Hs Hm. unfold digit_list. rewrite last_reverse.
  exists (digit (s mod 10)). split; [reflexivity |].
  intros H. apply digit_zero in H; [contradiction |].
  apply Z.mod_pos_bound. lia.
Qed.

Lemma is_digit_not (c : ascii) :
  is_digit c -> c <> "."%char /\ c <> "e"%char /\ c <> "+"%char /\ c <> "-"%char.
Proof.
  unfold is_digit. intros H.
  repeat split; intros ->; vm_compute in H; lia.
Qed.

Lemma not_in_digit_list (c : ascii) (s : Z) :
  ~ is_digit c -> c ∉ digit_list s.
Proof.
  intros Hc Hin. apply Hc.
  exact (proj1 (Forall_forall _ _) (digit_list_is_digit s) c Hin).
Qed.

(** *** The formatting of [Number::toString] is injective *)

Lemma list_ascii_of_format_decimal (s p : Z) :
  list_ascii_of_string (format_decimal s p)
  = format_list (digit_list s) (p + Z.of_nat (length (digit_list s))).
Proof.
  unfold format_decimal, format_list.
  rewrite <- length_list_ascii_of_string, list_ascii_of_digits_of.
  set (ds := digit_list s). set (k := Z.of_nat (length ds)). set (n := p + k).
  destruct ((k <=? n) && (n <=? 21)) eqn:HA.
  { now rewrite list_ascii_of_string_app, list_ascii_of_zeros, list_ascii_of_digits_of. }
  destruct ((0 <? n) && (n <=? 21)) eqn:HB.
  { rewrite !list_ascii_of_string_app, !list_ascii_of_substring,
      list_ascii_of_digits_of, drop_0.
    fold ds. cbn [list_ascii_of_string app]. f_equal. f_equal.
    apply take_ge. rewrite length_drop. subst k. lia. }
  destruct ((-6 <? n) && (n <=? 0)) eqn:HC.
  { now rewrite !list_ascii_of_string_app, list_ascii_of_zeros, list_ascii_of_digits_of. }
  rewrite !list_ascii_of_string_app. cbn [list_ascii_of_string app].
  f_equal.
  - destruct (k =? 1); [apply list_ascii_of_digits_of |].
    rewrite !list_ascii_of_string_app, !list_ascii_of_substring,
      list_ascii_of_digits_of, drop_0.
    fold ds. cbn [list_ascii_of_string app]. f_equal. f_equal.
    apply take_ge. rewrite length_drop. subst k. lia.
  - f_equal.
    destruct (0 <=? n - 1); cbn [append list_ascii_of_string];
      now rewrite list_ascii_of_digits_of.
Qed.

Lemma good_digit_list (s : Z) : 1 <= s -> s mod 10 <> 0 -> good_digits (digit_list s).
Proof.
  intros Hs Hm. split.
  - apply digit_list_is_digit.
  - now apply head_digit_list.
  - apply last_digit_list; [lia | exact Hm].
Qed.

Lemma digits_no_mark (ds : list ascii) (c : ascii) :
  Forall is_digit ds -> ~ is_digit c -> c ∉ ds.
Proof.
  intros Hds Hc Hin. apply Hc.
  exact (proj1 (Forall_forall _ _) Hds c Hin).
Qed.

Lemma not_digit_e : ~ is_digit "e"%char.
Proof. unfold is_digit. vm_compute. lia. Qed.

Lemma not_digit_dot : ~ is_digit "."%char.
Proof. unfold is_digit. vm_compute. lia. Qed.

Lemma is_digit_zero : is_digit "0"%char.
Proof. unfold is_digit. vm_compute. lia. Qed.

Lemma replicate_zero_is_digit (j : nat) : Forall is_digit (replicate j "0"%char).
Proof. apply Forall_replicate, is_digit_zero. Qed.

Lemma layout_of_format (ds : list ascii) (n : Z) :
  good_digits ds -> layout_of (format_list ds n) = layout ds n.
Proof.
  intros [Hd (c & Hc & Hc0) _].
  assert (He : forall l, Forall is_digit l -> "e"%char ∉ l)
    by (intros l Hl; apply (digits_no_mark l); auto using not_digit_e).
  assert (Hdot : forall l, Forall is_digit l -> "."%char ∉ l)
    by (intros l Hl; apply (digits_no_mark l); auto using not_digit_dot).
  assert (Hne : "e"%char <> "."%char) by discriminate.
  unfold format_list, layout, layout_of.
  destruct ((Z.of_nat (length ds) <=? n) && (n <=? 21)) eqn:HA.
  { assert (Hall : Forall is_digit (ds ++ replicate (Z.to_nat (n - Z.of_nat (length ds))) "0"%char))
      by (apply Forall_app; auto using replicate_zero_is_digit).
    rewrite !bool_decide_eq_false_2; auto. }
  destruct ((0 <? n) && (n <=? 21)) eqn:HB.
  { apply andb_prop in HB as [HB _]. apply Z.ltb_lt in HB.
    rewrite bool_decide_eq_false_2.
    2:{ rewrite elem_of_app, elem_of_cons.
        intros [H | [H | H]]; [| discriminate |].
        - apply (He (take (Z.to_nat n) ds)); [apply Forall_take, Hd | exact H].
        - apply (He (drop (Z.to_nat n) ds)); [apply Forall_drop, Hd | exact H]. }
    rewrite bool_decide_eq_true_2 by (rewrite elem_of_app, elem_of_cons; auto).
    rewrite bool_decide_eq_false_2; [reflexivity |].
    destruct ds as [| x ds]; [discriminate |]. cbn in Hc. injection Hc as ->.
    destruct (Z.to_nat n) as [| j] eqn:Hj; [lia |]. cbn. congruence. }
  destruct ((-6 <? n) && (n <=? 0)) eqn:HC.
  { rewrite bool_decide_eq_false_2.
    2:{ rewrite !elem_of_cons, elem_of_app.
        intros [H | [H | [H | H]]]; try discriminate.
        - apply (He (replicate (Z.to_nat (- n)) "0"%char));
            [apply replicate_zero_is_digit | exact H].
        - now apply (He ds). }
    rewrite bool_decide_eq_true_2 by (rewrite !elem_of_cons; auto).
    now rewrite bool_decide_eq_true_2. }
  rewrite bool_decide_eq_true_2; [reflexivity |].
  rewrite elem_of_app, elem_of_cons. auto.
Qed.

Ltac zbool_in H :=
  rewrite ?andb_true_iff, ?andb_false_iff, ?Z.leb_le, ?Z.leb_gt, ?Z.ltb_lt,
    ?Z.ltb_ge, ?Z.eqb_eq, ?Z.eqb_neq in H.

Lemma format_list_inj (ds ds' : list ascii) (n n' : Z) :
  good_digits ds -> good_digits ds' ->
  format_list ds n = format_list ds' n' -> ds = ds' /\ n = n'.
Proof.
  intros Hg Hg' H.
  assert (Hl : layout ds n = layout ds' n')
    by (rewrite <- !layout_of_format, H by assumption; reflexivity).
  destruct Hg as [Hd (c & Hc & Hc0) (z & Hz & Hz0)].
  destruct Hg' as [Hd' (c' & Hc' & Hc0') (z' & Hz' & Hz0')].
  assert (Hn : ds <> []) by (intros ->; discriminate).
  assert (Hn' : ds' <> []) by (intros ->; discriminate).
  assert (He : forall l, Forall is_digit l -> "e"%char ∉ l)
    by (intros l Hl'; apply (digits_no_mark l); auto using not_digit_e).
  assert (Hdot : forall l, Forall is_digit l -> "."%char ∉ l)
    by (intros l Hl'; apply (digits_no_mark l); auto using not_digit_dot).
  unfold format_list in H. unfold layout in Hl.
  destruct ((Z.of_nat (length ds) <=? n) && (n <=? 21)) eqn:HA;
    destruct ((Z.of_nat (length ds') <=? n') && (n' <=? 21)) eqn:HA';
    try (destruct ((0 <? n') && (n' <=? 21)), ((-6 <? n') && (n' <=? 0)); discriminate);
    try (destruct ((0 <? n) && (n <=? 21)), ((-6 <? n) && (n <=? 0)); discriminate).
  { (* digits, then zeros *)
    zbool_in HA. zbool_in HA'.
    apply replicate_app_inj_last in H as [Hj ->]; try congruence.
    split; [reflexivity | lia]. }
  destruct ((0 <? n) && (n <=? 21)) eqn:HB;
    destruct ((0 <? n') && (n' <=? 21)) eqn:HB';
    try (destruct ((-6 <? n') && (n' <=? 0)); discriminate);
    try (destruct ((-6 <? n) && (n <=? 0)); discriminate).
  { (* a point inside the digits *)
    zbool_in HA. zbool_in HA'. zbool_in HB. zbool_in HB'.
    apply app_cons_inj_fresh in H as [Ht Hdr];
      [| apply Hdot, Forall_take, Hd | apply Hdot, Forall_take, Hd'].
    assert (E : ds = ds') by (rewrite <- (take_drop (Z.to_nat n) ds), Ht, Hdr; apply take_drop).
    subst ds'. split; [reflexivity |].
    apply (f_equal length) in Ht. rewrite !length_take in Ht. lia. }
  destruct ((-6 <? n) && (n <=? 0)) eqn:HC;
    destruct ((-6 <? n') && (n' <=? 0)) eqn:HC'; try discriminate.
  { (* zeros between the point and the digits *)
    zbool_in HC. zbool_in HC'.
    injection H as H.
    apply replicate_app_inj_head in H as [Hj ->]; try congruence.
    split; [reflexivity | lia]. }
  (* exponent notation *)
  clear Hl.
  assert (Hm : forall l : list ascii, Forall is_digit l ->
            "e"%char ∉ (if Z.of_nat (length l) =? 1 then l
                        else take 1 l ++ "."%char :: drop 1 l)%list).
  { intros l Hl'. destruct (Z.of_nat (length l) =? 1); [apply He, Hl' |].
    rewrite elem_of_app, elem_of_cons. intros [H' | [H' | H']]; [| discriminate |].
    - apply (He (take 1 l)); [apply Forall_take, Hl' | exact H'].
    - apply (He (drop 1 l)); [apply Forall_drop, Hl' | exact H']. }
  apply app_cons_inj_fresh in H as [Hmant Hexp]; [| now apply Hm | now apply Hm].
  injection Hexp as Hsign Hexp.
  apply digit_list_inj in Hexp; [| lia | lia].
  assert (En : n = n').
  { destruct (Z.leb_spec 0 (n - 1)), (Z.leb_spec 0 (n' - 1)); try discriminate; lia. }
  split; [| exact En].
  destruct (Z.eqb_spec (Z.of_nat (length ds)) 1) as [Hk | Hk];
    destruct (Z.eqb_spec (Z.of_nat (length ds')) 1) as [Hk' | Hk'].
  - exact Hmant.
  - exfalso. apply (Hdot ds Hd). rewrite Hmant, elem_of_app, elem_of_cons. auto.
  - exfalso. apply (Hdot ds' Hd'). rewrite <- Hmant, elem_of_app, elem_of_cons. auto.
  - apply app_cons_inj_fresh in Hmant as [Ht Hdr];
      [| apply Hdot, Forall_take, Hd | apply Hdot, Forall_take, Hd'].
    rewrite <- (take_drop 1 ds), Ht, Hdr. apply take_drop.
Qed.

(** Two positive numbers without trailing zero, with their exponents, are
    printed differently unless they are the same. *)
Lemma format_decimal_inj (s p s' p' : Z) :
  1 <= s -> s mod 10 <> 0 -> 1 <= s' -> s' mod 10 <> 0 ->
  format_decimal s p = format_decimal s' p' -> s = s' /\ p = p'.
Proof.
  intros Hs Hm Hs' Hm' H.
  apply (f_equal list_ascii_of_string) in H.
  rewrite !list_ascii_of_format_decimal in H.
  apply format_list_inj in H as [Hds Hn]; auto using good_digit_list.
  rewrite Hds in Hn. apply digit_list_inj in Hds; [| lia | lia].
  split; [exact Hds | lia].
Qed.

(** What a positive number is printed as starts with a digit. *)
Lemma format_decimal_head (s p : Z) :
  1 <= s -> s mod 10 <> 0 ->
  exists c l, list_ascii_of_string (format_decimal s p) = c :: l /\ is_digit c.
Proof.
  intros Hs Hm. rewrite list_ascii_of_format_decimal.
  destruct (good_digit_list s Hs Hm) as [Hd (c & Hc & Hc0) _].
  set (ds := digit_list s) in *. set (n := p + Z.of_nat (length ds)).
  destruct ds as [| x ds]; [discriminate |].
  apply Forall_cons in Hd as [Hx Hd].
  unfold format_list.
  destruct ((_ <=? n) && (n <=? 21)); [cbn; eauto |].
  destruct ((0 <? n) && (n <=? 21)) eqn:HB.
  { zbool_in HB. destruct (Z.to_nat n) as [| j] eqn:Hj; [lia |]. cbn. eauto. }
  destruct ((-6 <? n) && (n <=? 0)); [cbn; eauto using is_digit_zero |].
  destruct (_ =? 1); cbn; eauto.
Qed.

(** *** The numbers behind the comparisons *)

Lemma IZR_pow (b a : Z) : 0 <= a -> IZR (b ^ a) = powerRZ (IZR b) a.
Proof.
  intros Ha. rewrite <- (Z2Nat.id a Ha) at 1.
  rewrite <- pow_IZR, pow_powerRZ. now rewrite Z2Nat.id.
Qed.

Lemma powerRZ_split (x : R) (p : Z) :
  (0 < x)%R ->
  (powerRZ x p * powerRZ x (Z.max (- p) 0) = powerRZ x (Z.max p 0))%R.
Proof.
  intros Hx. rewrite <- powerRZ_add by lra. f_equal. lia.
Qed.

Lemma cmp_scaled_spec (s p n e : Z) :
  match cmp_scaled s p n e with
  | Lt => (dec_val s p < bin_val n e)%R
  | Eq => dec_val s p = bin_val n e
  | Gt => (bin_val n e < dec_val s p)%R
  end.
Proof.
  unfold cmp_scaled, dec_val, bin_val.
  set (a := Z.max p 0). set (d := Z.max (- p) 0).
  set (b := Z.max (- e) 0). set (c := Z.max e 0).
  assert (Ha : IZR (10 ^ a) = (powerRZ 10 p * powerRZ 10 d)%R)
    by (rewrite IZR_pow by lia; symmetry; apply powerRZ_split; lra).
  assert (Hc : IZR (2 ^ c) = (powerRZ 2 e * powerRZ 2 b)%R).
    by (rewrite IZR_pow by lia; symmetry; apply powerRZ_split; lra).
  assert (Hd : IZR (10 ^ d) = powerRZ 10 d) by (apply IZR_pow; lia).
  assert (Hb : IZR (2 ^ b) = powerRZ 2 b) by (apply IZR_pow; lia).
  assert (Pd : (0 < powerRZ 10 d)%R) by (apply powerRZ_lt; lra).
  assert (Pb : (0 < powerRZ 2 b)%R) by (apply powerRZ_lt; lra).
  assert (PK : (0 < powerRZ 10 d * powerRZ 2 b)%R) by (apply Rmult_lt_0_compat; assumption).
  assert (EA : IZR (s * 10 ^ a * 2 ^ b)
               = (IZR s * powerRZ 10 p * (powerRZ 10 d * powerRZ 2 b))%R)
    by (rewrite !mult_IZR, Ha, Hb; ring).
  assert (EB : IZR (n * 2 ^ c * 10 ^ d)
               = (IZR n * powerRZ 2 e * (powerRZ 10 d * powerRZ 2 b))%R)
    by (rewrite !mult_IZR, Hc, Hd; ring).
  destruct (Z.compare_spec (s * 10 ^ a * 2 ^ b) (n * 2 ^ c * 10 ^ d)) as [H | H | H].
  - apply (f_equal IZR) in H. rewrite EA, EB in H.
    now apply Rmult_eq_reg_r in H; [| lra].
  - apply IZR_lt in H. rewrite EA, EB in H.
    now apply Rmult_lt_reg_r in H.
  - apply IZR_lt in H. rewrite EA, EB in H.
    now apply Rmult_lt_reg_r in H.
Qed.

Lemma rounds_to_spec (m e s p : Z) :
  rounds_to m e s p = true <-> in_round_interval m e (dec_val s p).
Proof.
  unfold rounds_to, in_round_interval.
  pose proof (cmp_scaled_spec s p (round_lo m e) (e - 2)) as Hlo.
  pose proof (cmp_scaled_spec s p (round_hi m) (e - 2)) as Hhi.
  destruct (cmp_scaled s p (round_lo m e) (e - 2));
    destruct (cmp_scaled s p (round_hi m) (e - 2));
    destruct (Z.even m); cbn; split; intros H;
      try discriminate; try reflexivity;
      try (split; [first [left; lra | right; split; [lra | reflexivity]]
                  | first [left; lra | right; split; [lra | reflexivity]]]);
      try (destruct H as [[H1 | [H1 H1']] [H2 | [H2 H2']]]; try discriminate; lra).
Qed.

Lemma rounds_to_val (m e s p s' p' : Z) :
  dec_val s p = dec_val s' p' -> rounds_to m e s p = rounds_to m e s' p'.
Proof.
  intros H. apply eq_true_iff_eq. rewrite !rounds_to_spec. now rewrite H.
Qed.

(** *** The digits that are printed round back to the number *)

Lemma bin_val_lt (a b e : Z) : a < b -> (bin_val a e < bin_val b e)%R.
Proof.
  intros H. unfold bin_val. apply Rmult_lt_compat_r.
  - apply powerRZ_lt. lra.
  - now apply IZR_lt.
Qed.

Lemma bin_val_shift (m e : Z) : bin_val m e = bin_val (4 * m) (e - 2).
Proof.
  unfold bin_val. replace (e - 2) with (e + -2) by lia.
  rewrite powerRZ_add, mult_IZR by lra.
  change (powerRZ 2 (-2)) with (/ (2 * (2 * 1)))%R. field.
Qed.

Lemma round_lo_bounds (m e : Z) : 4 * m - 2 <= round_lo m e <= 4 * m - 1.
Proof. unfold round_lo. destruct (_ && _); lia. Qed.

Lemma in_round_interval_self (m e : Z) : in_round_interval m e (bin_val m e).
Proof.
  pose proof (round_lo_bounds m e). rewrite (bin_val_shift m e).
  split; left; apply bin_val_lt; unfold round_hi; lia.
Qed.

Lemma exact_decimal_val (m e : Z) :
  dec_val (fst (exact_decimal m e)) (snd (exact_decimal m e)) = bin_val m e.
Proof.
  unfold exact_decimal, dec_val, bin_val.
  destruct (Z.leb_spec 0 e) as [He | He]; cbn [fst snd].
  - rewrite mult_IZR, IZR_pow by lia. cbn [powerRZ]. ring.
  - rewrite mult_IZR, IZR_pow by lia.
    replace 10%R with (2 * 5)%R by lra.
    rewrite powerRZ_mult, powerRZ_neg'.
    assert (powerRZ 5 e <> 0)%R by (apply powerRZ_NOR; lra).
    field. assumption.
Qed.

Lemma shortest_from_sound (fuel : nat) (m e e10 k : Z) :
  rounds_to m e (fst (shortest_from fuel m e e10 k))
    (snd (shortest_from fuel m e e10 k)) = true.
Proof.
  revert k. induction fuel as [| fuel IH]; intros k.
  - cbn [shortest_from]. apply rounds_to_spec.
    rewrite exact_decimal_val. apply in_round_interval_self.
  - cbn [shortest_from]. cbv zeta.
    set (p := e10 - k + 1).
    set (num := m * 2 ^ Z.max e 0 * 10 ^ Z.max (- p) 0).
    set (den := 2 ^ Z.max (- e) 0 * 10 ^ Z.max p 0).
    destruct (rounds_to m e (num / den) p) eqn:Hlo;
      destruct (rounds_to m e (num / den + 1) p) eqn:Hhi;
      cbn [orb andb].
    + destruct (2 * (num - num / den * den) ?= den); [destruct (Z.even _) | |];
        assumption.
    + assumption.
    + assumption.
    + apply IH.
Qed.

Lemma rounds_to_pos (m e s p : Z) : 1 <= m -> rounds_to m e s p = true -> 1 <= s.
Proof.
  intros Hm H. apply rounds_to_spec in H as [Hlo _].
  pose proof (round_lo_bounds m e).
  assert (H0 : (bin_val 0 (e - 2) < bin_val (round_lo m e) (e - 2))%R)
    by (apply bin_val_lt; lia).
  unfold bin_val at 1 in H0. rewrite Rmult_0_l in H0.
  assert (Hv : (0 < dec_val s p)%R) by (destruct Hlo as [Hlo | [Hlo _]]; lra).
  unfold dec_val in Hv.
  assert (Hp : (0 < powerRZ 10 p)%R) by (apply powerRZ_lt; lra).
  assert (Hs : (0 < IZR s)%R) by nra.
  apply lt_IZR in Hs. lia.
Qed.

Lemma dec_val_div10 (s p : Z) : s mod 10 = 0 -> dec_val (s / 10) (p + 1) = dec_val s p.
Proof.
  intros Hm. unfold dec_val.
  assert (Hs : IZR s = (10 * IZR (s / 10))%R).
  { rewrite <- mult_IZR. f_equal. pose proof (Z.div_mod s 10). lia. }
  rewrite Hs, powerRZ_add by lra.
  change (powerRZ 10 1) with (10 * 1)%R. ring.
Qed.

Lemma strip_zeros_fuel_spec (fuel : nat) (s p : Z) :
  dec_val (fst (strip_zeros_fuel fuel s p)) (snd (strip_zeros_fuel fuel s p))
  = dec_val s p
  /\ (1 <= s -> 1 <= fst (strip_zeros_fuel fuel s p))
  /\ (1 <= s < 2 ^ Z.of_nat fuel -> fst (strip_zeros_fuel fuel s p) mod 10 <> 0).
Proof.
  revert s p. induction fuel as [| fuel IH]; intros s p.
  - cbn. repeat split; auto. lia.
  - cbn [strip_zeros_fuel].
    destruct (Z.eqb_spec (s mod 10) 0) as [Hm | Hm]; cbn [fst snd].
    + destruct (IH (s / 10) (p + 1)) as (Hv & Hpos & Hmod).
      pose proof (Z.div_mod s 10) as Hs. rewrite Hm in Hs.
      rewrite Hv, dec_val_div10 by exact Hm. repeat split.
      * intros H1. apply Hpos. lia.
      * intros H1. apply Hmod.
        rewrite Nat2Z.inj_succ, Z.pow_succ_r in H1 by lia. lia.
    + repeat split; auto.
Qed.

Lemma shortest_sound (m e : Z) :
  1 <= m ->
  rounds_to m e (fst (shortest m e)) (snd (shortest m e)) = true
  /\ 1 <= fst (shortest m e)
  /\ fst (shortest m e) mod 10 <> 0.
Proof.
  intros Hm. unfold shortest.
  pose proof (shortest_from_sound 17 m e (log10_floor m e) 1) as Hr.
  destruct (shortest_from 17 m e (log10_floor m e) 1) as [s p]. cbn [fst snd] in Hr.
  pose proof (rounds_to_pos m e s p Hm Hr) as Hs.
  unfold strip_zeros.
  destruct (strip_zeros_fuel_spec (S (Z.to_nat (Z.log2 s))) s p) as (Hv & Hpos & Hmod).
  repeat split.
  - now rewrite (rounds_to_val _ _ _ _ s p).
  - now apply Hpos.
  - apply Hmod. split; [exact Hs | apply log2_fuel; lia].
Qed.

(** *** No two doubles share a decimal that rounds to them *)

Lemma digits2_pos_size (m : positive) : digits2_pos m = Pos.size m.
Proof. induction m as [m IH | m IH |]; cbn; congruence. Qed.

Lemma pos_size_bounds (m : positive) :
  2 ^ (Zpos (Pos.size m) - 1) <= Zpos m < 2 ^ Zpos (Pos.size m).
Proof.
  induction m as [m IH | m IH |]; cbn [Pos.size].
  - rewrite Pos2Z.inj_succ, Z.pow_succ_r by lia.
    replace (Z.succ (Zpos (Pos.size m)) - 1) with (Z.succ (Zpos (Pos.size m) - 1)) by lia.
    rewrite Z.pow_succ_r by lia. lia.
  - rewrite Pos2Z.inj_succ, Z.pow_succ_r by lia.
    replace (Z.succ (Zpos (Pos.size m)) - 1) with (Z.succ (Zpos (Pos.size m) - 1)) by lia.
    rewrite Z.pow_succ_r by lia. lia.
  - cbn. lia.
Qed.

Lemma valid_binary_repr (sign : bool) (m : positive) (e : Z) :
  SpecFloat.valid_binary prec emax (S754_finite sign m e) = true ->
  double_repr (Zpos m) e.
Proof.
  cbn [SpecFloat.valid_binary]. unfold SpecFloat.bounded, SpecFloat.canonical_mantissa, SpecFloat.fexp,
    SpecFloat.emin, prec, emax.
  rewrite digits2_pos_size. intros H.
  apply andb_prop in H as [H _]. apply Z.eqb_eq in H.
  pose proof (pos_size_bounds m) as [Hlo Hhi].
  set (k := Zpos (Pos.size m)) in *.
  assert (Hk : k <= 53) by lia.
  unfold double_repr. repeat split; try lia.
  - apply Z.lt_le_trans with (1 := Hhi). apply Z.pow_le_mono_r; lia.
  - intros He. replace (2 ^ 52) with (2 ^ (k - 1)); [exact Hlo |].
    f_equal. lia.
Qed.

Lemma bin_val_scale (n e d : Z) : 0 <= d -> bin_val n (e + d) = bin_val (n * 2 ^ d) e.
Proof.
  intros Hd. unfold bin_val.
  rewrite powerRZ_add, mult_IZR, IZR_pow by (lra || lia). ring.
Qed.

Lemma bin_val_le_inv (a b e : Z) : (bin_val a e <= bin_val b e)%R -> a <= b.
Proof.
  intros H. destruct (Z_lt_le_dec b a) as [Hlt | Hle]; [| exact Hle].
  apply (bin_val_lt _ _ e) in Hlt. lra.
Qed.

(** Of two doubles the round interval of the smaller one ends where that of
    the larger one starts, or before; where they touch, one of the mantissas
    is odd, so that the common end point belongs to one of them at most. *)
Lemma round_intervals_apart (m e m' e' : Z) :
  double_repr m e -> double_repr m' e' ->
  e < e' \/ (e = e' /\ m < m') ->
  round_hi m < round_lo m' e' * 2 ^ (e' - e)
  \/ (round_hi m = round_lo m' e' * 2 ^ (e' - e)
      /\ (Z.even m = false \/ Z.even m' = false)).
Proof.
  intros (Hm & He & Hn) (Hm' & He' & Hn') Hlt.
  unfold round_hi, round_lo.
  change (2 ^ 52) with 4503599627370496 in *.
  change (2 ^ 53) with 9007199254740992 in *.
  destruct Hlt as [Hlt | [<- Hlt]].
  - specialize (Hn' ltac:(lia)).
    assert (He1 : (-1074 <? e') = true) by (apply Z.ltb_lt; lia).
    rewrite He1, andb_true_r.
    set (d := e' - e). assert (Hd : 1 <= d) by (subst d; lia).
    destruct (Z.eqb_spec m' 4503599627370496) as [-> | Hne].
    + destruct (Z.eq_dec d 1) as [-> | Hd1].
      * change (2 ^ 1) with 2.
        destruct (Z.eq_dec m 9007199254740991) as [-> | Hm1]; [right | left; lia].
        split; [reflexivity | left; reflexivity].
      * left. assert (2 ^ 2 <= 2 ^ d) by (apply Z.pow_le_mono_r; lia).
        change (2 ^ 2) with 4 in *. lia.
    + left. assert (2 ^ 1 <= 2 ^ d) by (apply Z.pow_le_mono_r; lia).
      change (2 ^ 1) with 2 in *. nia.
  - rewrite Z.sub_diag. change (2 ^ 0) with 1.
    destruct ((m' =? 4503599627370496) && (-1074 <? e)) eqn:Hb.
    + apply andb_prop in Hb as [Hb1 Hb2].
      apply Z.eqb_eq in Hb1. apply Z.ltb_lt in Hb2. specialize (Hn Hb2). lia.
    + destruct (Z.eq_dec m' (m + 1)) as [-> | Hne]; [right | left; lia].
      split; [lia |].
      rewrite Z.even_add. cbn. destruct (Z.even m); [right | left]; reflexivity.
Qed.

Lemma round_interval_below (m e m' e' : Z) (v : R) :
  double_repr m e -> double_repr m' e' ->
  e < e' \/ (e = e' /\ m < m') ->
  in_round_interval m e v -> in_round_interval m' e' v -> False.
Proof.
  intros Hr Hr' Hlt [_ Hhi] [Hlo _].
  assert (Hd : 0 <= e' - e) by lia.
  replace (e' - 2) with (e - 2 + (e' - e)) in Hlo by lia.
  rewrite bin_val_scale in Hlo by exact Hd.
  destruct (round_intervals_apart m e m' e' Hr Hr' Hlt) as [Hap | [Hap Hpar]].
  - apply (bin_val_lt _ _ (e - 2)) in Hap.
    destruct Hhi as [Hhi | [Hhi _]]; destruct Hlo as [Hlo | [Hlo _]]; lra.
  - rewrite <- Hap in Hlo.
    destruct Hhi as [Hhi | [Hhi Hev]]; destruct Hlo as [Hlo | [Hlo Hev']];
      try lra.
    destruct Hpar; congruence.
Qed.

Lemma round_interval_unique (m e m' e' : Z) (v : R) :
  double_repr m e -> double_repr m' e' ->
  in_round_interval m e v -> in_round_interval m' e' v ->
  m = m' /\ e = e'.
Proof.
  intros Hr Hr' Hv Hv'.
  destruct (Z.lt_trichotomy e e') as [He | [He | He]].
  - exfalso. apply (round_interval_below m e m' e' v); auto.
  - destruct (Z.lt_trichotomy m m') as [Hm | [Hm | Hm]].
    + exfalso. apply (round_interval_below m e m' e' v); auto.
    + auto.
    + exfalso. apply (round_interval_below m' e' m e v); auto.
  - exfalso. apply (round_interval_below m' e' m e v); auto.
Qed.

(** *** [Number::toString] tells any two numbers apart, but for the zeros *)

Lemma format_decimal_not_zero (s p : Z) :
  1 <= s -> s mod 10 <> 0 -> format_decimal s p <> "0".
Proof.
  intros Hs Hm H. apply (f_equal list_ascii_of_string) in H.
  rewrite list_ascii_of_format_decimal in H. cbn [list_ascii_of_string] in H.
  destruct (good_digit_list s Hs Hm) as [_ (c & Hc & Hc0) _].
  set (ds := digit_list s) in *. set (n := p + Z.of_nat (length ds)) in *.
  destruct ds as [| x ds]; [discriminate |].
  injection Hc as ->. unfold format_list in H.
  destruct ((_ <=? n) && (n <=? 21)); [cbn in H; congruence |].
  destruct ((0 <? n) && (n <=? 21)) eqn:HB.
  { zbool_in HB. destruct (Z.to_nat n) as [| j] eqn:Hj; [lia |]. cbn in H. congruence. }
  destruct ((-6 <? n) && (n <=? 0)); [discriminate |].
  destruct (_ =? 1); cbn in H; congruence.
Qed.

Lemma is_zero_spec (x : number) :
  (x =? 0)%float = true <-> exists sign, Prim2SF x = S754_zero sign.
Proof.
  rewrite FloatAxioms.eqb_spec.
  change (Prim2SF 0) with (S754_zero false).
  destruct (Prim2SF x) as [sign | [] | | [] m e]; cbn; split;
    try discriminate; try (intros [? ?]; discriminate); eauto.
Qed.

(** What is printed for a finite number other than zero. *)
Lemma Number_toString_finite (x : number) (sign : bool) (m : positive) (e : Z) :
  Prim2SF x = S754_finite sign m e ->
  exists s p,
    Number_toString x = (if sign then "-" else "") ++ format_decimal s p
    /\ 1 <= s /\ s mod 10 <> 0
    /\ in_round_interval (Zpos m) e (dec_val s p).
Proof.
  intros Hx. unfold Number_toString. rewrite Hx.
  destruct (shortest_sound (Zpos m) e ltac:(lia)) as (Hr & Hs & Hm).
  destruct (shortest (Zpos m) e) as [s p]. cbn [fst snd] in *.
  exists s, p. repeat split; try assumption; now apply rounds_to_spec.
Qed.

(** Its first character is the sign or a digit, and it is none of the four
    words. *)
Lemma finite_not_word (sign : bool) (s p : Z) (w : string) :
  1 <= s -> s mod 10 <> 0 ->
  w = "NaN" \/ w = "0" \/ w = "Infinity" \/ w = "-Infinity" ->
  (if sign then "-" else "") ++ format_decimal s p <> w.
Proof.
  intros Hs Hm Hw H.
  destruct (format_decimal_head s p Hs Hm) as (c & l & Hl & Hc).
  pose proof (format_decimal_not_zero s p Hs Hm) as Hz.
  apply (f_equal list_ascii_of_string) in H.
  rewrite list_ascii_of_string_app in H.
  destruct sign; cbn [list_ascii_of_string app] in H; rewrite Hl in H;
    destruct Hw as [-> | [-> | [-> | ->]]]; cbn [list_ascii_of_string] in H;
    try discriminate H; inversion H; subst;
    try (unfold is_digit in Hc; vm_compute in Hc; lia).
  apply Hz. apply list_ascii_of_string_inj. now rewrite Hl.
Qed.

Lemma Number_toString_word (x : number) :
  (exists sign m e, Prim2SF x = S754_finite sign m e)
  \/ Number_toString x = "NaN" \/ Number_toString x = "0"
  \/ Number_toString x = "Infinity" \/ Number_toString x = "-Infinity".
Proof.
  unfold Number_toString.
  destruct (Prim2SF x) as [sign | [] | | sign m e]; eauto 10.
Qed.

Theorem Number_toString_inj (x y : number) :
  Number_toString x = Number_toString y -> SameValueZero x y.
Proof.
  intros H.
  destruct (Prim2SF x) as [sx | sx | | sx mx ex] eqn:Hx;
    destruct (Prim2SF y) as [sy | sy | | sy my ey] eqn:Hy.
  all: try match goal with
    | Hx : Prim2SF ?a = S754_finite _ _ _, Hy : Prim2SF ?b = S754_finite _ _ _ |- _ =>
        fail 1
    | Hx : Prim2SF ?a = S754_finite _ _ _, Hy : Prim2SF ?b = _ |- _ =>
        exfalso;
        destruct (Number_toString_finite a _ _ _ Hx) as (s & p & Hs & H1 & H2 & _);
        rewrite Hs in H; revert H; apply finite_not_word; auto;
        unfold Number_toString; rewrite Hy;
        repeat match goal with b : bool |- _ => destruct b end; auto
    | Hy : Prim2SF ?b = S754_finite _ _ _, Hx : Prim2SF ?a = _ |- _ =>
        exfalso;
        destruct (Number_toString_finite b _ _ _ Hy) as (s & p & Hs & H1 & H2 & _);
        rewrite Hs in H; symmetry in H; revert H; apply finite_not_word; auto;
        unfold Number_toString; rewrite Hx;
        repeat match goal with b : bool |- _ => destruct b end; auto
    | _ =>
        unfold Number_toString in H; rewrite Hx, Hy in H;
        repeat match goal with b : bool |- _ => destruct b end;
        try discriminate H;
        first [ left; apply Prim2SF_inj; congruence
              | right; split; apply is_zero_spec; eauto ]
    end.
  destruct (Number_toString_finite x _ _ _ Hx) as (s & p & Hs & H1 & H2 & Hv).
  destruct (Number_toString_finite y _ _ _ Hy) as (s' & p' & Hs' & H1' & H2' & Hv').
  rewrite Hs, Hs' in H.
  assert (Hsign : sx = sy /\ format_decimal s p = format_decimal s' p').
  { destruct (format_decimal_head s p H1 H2) as (c & l & Hl & Hc).
    destruct (format_decimal_head s' p' H1' H2') as (c' & l' & Hl' & Hc').
    apply (f_equal list_ascii_of_string) in H.
    rewrite !list_ascii_of_string_app in H.
    destruct sx, sy; cbn [list_ascii_of_string app] in H;
      try (injection H as H); try (apply list_ascii_of_string_inj in H); auto;
      rewrite ?Hl, ?Hl' in H; injection H as H _; subst;
      unfold is_digit in *; vm_compute in Hc, Hc'; lia. }
  destruct Hsign as [-> Hf].
  apply format_decimal_inj in Hf as [-> ->]; auto.
  pose proof (Prim2SF_valid x) as Vx. rewrite Hx in Vx.
  pose proof (Prim2SF_valid y) as Vy. rewrite Hy in Vy.
  apply valid_binary_repr in Vx, Vy.
  destruct (round_interval_unique _ _ _ _ _ Vx Vy Hv Hv') as [Hm He].
  left. apply Prim2SF_inj. congruence.
Qed.

Lemma Number_toString_same (x y : number) :
  SameValueZero x y -> Number_toString x = Number_toString y.
Proof.
  intros [-> | [Hx Hy]]; [reflexivity |].
  apply is_zero_spec in Hx as [sx Hx]. apply is_zero_spec in Hy as [sy Hy].
  unfold Number_toString. now rewrite Hx, Hy.
Qed.

End NumberToString.

(** The strings of a field are the same for the same value, and for the two
    zeros. *)
Lemma render_same_printed (g : Field) (p q : Params) :
  render g p = render g q <-> same_printed g p q.
Proof.
  destruct g; cbn [render same_printed]; try reflexivity;
    (split; [apply Number_toString_inj | apply Number_toString_same]).
Qed.

Ltac use_same_field H g :=
  let E := fresh "E" in
  assert (E := H g ltac:(discriminate)); cbn [same_field] in E;
  rewrite E in *; clear E.

(** ** Comparisons of binary64 values, by their keys *)

Lemma SFcompare_key (x y : spec_float) :
  SFcompare x y
  = match order_key x, order_key y with
    | Some a, Some b => Some (key_compare a b)
    | _, _ => None
    end.
Proof.
  destruct x as [[] | [] | | [] m e]; destruct y as [[] | [] | | [] m' e'];
    try reflexivity; cbn [SFcompare order_key key_compare].
  - f_equal.
    destruct (Z.compare_spec e e'), (Z.compare_spec (- e) (- e'));
      try lia; reflexivity.
Qed.

Lemma key_compare_spec (a b : Z * Z * Z) :
  key_ltb a b = match key_compare a b with Lt => true | _ => false end
  /\ key_eqb a b = match key_compare a b with Eq => true | _ => false end.
Proof.
  destruct a as [[a1 a2] a3], b as [[b1 b2] b3]. cbn [key_compare key_ltb key_eqb].
  destruct (Z.compare_spec a1 b1), (Z.compare_spec a2 b2), (Z.compare_spec a3 b3);
    split; lia.
Qed.

Lemma ltb_key (x y : float) :
  (x <? y)%float
  = match float_key x, float_key y with
    | Some a, Some b => key_ltb a b
    | _, _ => false
    end.
Proof.
  rewrite FloatAxioms.ltb_spec. unfold SFltb, float_key. rewrite SFcompare_key.
  destruct (order_key (Prim2SF x)) as [a |], (order_key (Prim2SF y)) as [b |];
    try reflexivity.
  rewrite (proj1 (key_compare_spec a b)). now destruct (key_compare a b).
Qed.

Lemma leb_key (x y : float) :
  (x <=? y)%float
  = match float_key x, float_key y with
    | Some a, Some b => key_ltb a b || key_eqb a b
    | _, _ => false
    end.
Proof.
  rewrite FloatAxioms.leb_spec. unfold SFleb, float_key. rewrite SFcompare_key.
  destruct (order_key (Prim2SF x)) as [a |], (order_key (Prim2SF y)) as [b |];
    try reflexivity.
  destruct (key_compare_spec a b) as [-> ->]. now destruct (key_compare a b).
Qed.

Lemma eqb_key (x y : float) :
  (x =? y)%float
  = match float_key x, float_key y with
    | Some a, Some b => key_eqb a b
    | _, _ => false
    end.
Proof.
  rewrite FloatAxioms.eqb_spec. unfold SFeqb, float_key. rewrite SFcompare_key.
  destruct (order_key (Prim2SF x)) as [a |], (order_key (Prim2SF y)) as [b |];
    try reflexivity.
  rewrite (proj2 (key_compare_spec a b)). now destruct (key_compare a b).
Qed.

Lemma is_nan_key (x : float) :
  JS.isNaN x = match float_key x with Some _ => false | None => true end.
Proof.
  unfold JS.isNaN, is_nan. rewrite eqb_key.
  destruct (float_key x) as [[[a b] c] |]; [| reflexivity].
  cbn [key_eqb]. rewrite !Z.eqb_refl. reflexivity.
Qed.

(** Comparisons of numbers, settled on their keys. *)
Ltac float_order :=
  rewrite ?ltb_key, ?leb_key, ?eqb_key, ?is_nan_key in *;
  change (float_key 0) with (Some (0, 0, 0)) in *;
  repeat match goal with
    | H : context [float_key ?x] |- _ => destruct (float_key x) as [[[? ?] ?] |]
    | |- context [float_key ?x] => destruct (float_key x) as [[[? ?] ?] |]
    end;
  cbn [key_ltb key_eqb] in *;
  try discriminate; try reflexivity; try lia.

Lemma ltb_trans (x y z : float) :
  (x <? y)%float = true -> (y <? z)%float = true -> (x <? z)%float = true.
Proof. intros H1 H2. float_order. Qed.

Lemma ltb_irrefl (x : float) : (x <? x)%float = false.
Proof. float_order. Qed.

Lemma leb_not_ltb (x y : float) : (x <=? y)%float = true -> (y <? x)%float = false.
Proof. intros H. float_order. Qed.

(** ** Rounding keeps the order

    The products, differences and quotients of binary64 numbers are the
    roundings of the exact results, and rounding is monotone. *)

(** *** Located values and the shifts *)

Lemma bin_val_half (n e : Z) : bin_val (2 * n) (e - 1) = bin_val n e.
Proof.
  unfold bin_val. rewrite mult_IZR.
  replace e with (1 + (e - 1)) at 2 by lia.
  rewrite powerRZ_add by lra. simpl. lra.
Qed.

Lemma bin_val_plus (a b e : Z) :
  bin_val (a + b) e = (bin_val a e + bin_val b e)%R.
Proof. unfold bin_val. rewrite plus_IZR. ring. Qed.

Lemma bin_val_pos_unit (e : Z) : (0 < bin_val 1 e)%R.
Proof. unfold bin_val. rewrite Rmult_1_l. apply powerRZ_lt. lra. Qed.

Lemma located_exact (v : R) (m e : Z) (l : SpecFloat.location) :
  located v m e l ->
  match l with
  | SpecFloat.loc_Exact => v = bin_val m e
  | SpecFloat.loc_Inexact _ => (bin_val m e < v < bin_val (m + 1) e)%R
  end.
Proof.
  pose proof (bin_val_pos_unit (e - 1)) as Hu.
  rewrite <- (bin_val_half m e), <- (bin_val_half (m + 1) e).
  replace (2 * (m + 1)) with (2 * m + 1 + 1) by lia.
  destruct l as [|[| |]]; simpl; rewrite ?(bin_val_plus _ 1), ?(bin_val_plus _ 2);
    try (replace (bin_val 2 (e - 1)) with (2 * bin_val 1 (e - 1))%R
          by (unfold bin_val; ring));
    intros H; rewrite <- ?(bin_val_half m e) in H; lra.
Qed.

Lemma located_range (v : R) (m e : Z) (l : SpecFloat.location) :
  located v m e l -> (bin_val m e <= v < bin_val (m + 1) e)%R.
Proof.
  intros H. apply located_exact in H.
  pose proof (bin_val_pos_unit e) as Hu. rewrite bin_val_plus in *.
  destruct l; lra.
Qed.

Lemma loc_of_record_of (m : Z) (l : SpecFloat.location) :
  SpecFloat.loc_of_shr_record (SpecFloat.shr_record_of_loc m l) = l.
Proof. destruct l as [|[| |]]; reflexivity. Qed.

Lemma shr_m_record_of (m : Z) (l : SpecFloat.location) :
  SpecFloat.shr_m (SpecFloat.shr_record_of_loc m l) = m.
Proof. destruct l as [|[| |]]; reflexivity. Qed.

(** One shift to the right keeps the location, on the grid twice as wide. *)
Lemma shr_1_located (v : R) (mrs : SpecFloat.shr_record) (e : Z) :
  0 <= SpecFloat.shr_m mrs ->
  located v (SpecFloat.shr_m mrs) e (SpecFloat.loc_of_shr_record mrs) ->
  0 <= SpecFloat.shr_m (SpecFloat.shr_1 mrs)
  /\ located v (SpecFloat.shr_m (SpecFloat.shr_1 mrs)) (e + 1)
       (SpecFloat.loc_of_shr_record (SpecFloat.shr_1 mrs)).
Proof.
  destruct mrs as [m r s]. cbn [SpecFloat.shr_m]. intros Hm H.
  apply located_exact in H.
  assert (Hcase : exists m' b, m = 2 * m' + Z.b2z b /\ 0 <= m'
            /\ SpecFloat.shr_1 (SpecFloat.Build_shr_record m r s)
               = SpecFloat.Build_shr_record m' b (r || s)).
  { destruct m as [|p|p]; [| |lia].
    - exists 0, false. repeat split; lia.
    - destruct p as [p|p|].
      + exists (Zpos p), true. repeat split; cbn; lia.
      + exists (Zpos p), false. repeat split; cbn; lia.
      + exists 0, true. repeat split; cbn; lia. }
  destruct Hcase as (m' & b & -> & Hm' & ->). cbn [SpecFloat.shr_m].
  split; [exact Hm'|].
  pose proof (bin_val_pos_unit e) as Hu.
  assert (H2 : bin_val (2 * m') e = (2 * bin_val m' e)%R)
    by (unfold bin_val; rewrite mult_IZR; ring).
  assert (H0 : bin_val 0 e = 0%R) by (unfold bin_val; ring).
  assert (H1 : bin_val 2 e = (2 * bin_val 1 e)%R) by (unfold bin_val; ring).
  assert (H3 : bin_val m' (e + 1) = (2 * bin_val m' e)%R).
  { rewrite <- H2, <- (bin_val_half m' (e + 1)). f_equal. lia. }
  unfold located.
  replace (e + 1 - 1) with e by lia.
  destruct b, r, s; cbn [Z.b2z orb SpecFloat.loc_of_shr_record] in *;
    rewrite ?bin_val_plus, ?H2, ?H1, ?H0, ?H3 in *; lra.
Qed.

Lemma iter_shr_located (p : positive) :
  forall (v : R) (mrs : SpecFloat.shr_record) (e : Z),
    0 <= SpecFloat.shr_m mrs ->
    located v (SpecFloat.shr_m mrs) e (SpecFloat.loc_of_shr_record mrs) ->
    0 <= SpecFloat.shr_m (SpecFloat.iter_pos SpecFloat.shr_1 p mrs)
    /\ located v (SpecFloat.shr_m (SpecFloat.iter_pos SpecFloat.shr_1 p mrs))
         (e + Zpos p)
         (SpecFloat.loc_of_shr_record (SpecFloat.iter_pos SpecFloat.shr_1 p mrs)).
Proof.
  induction p as [p IH|p IH|]; intros v mrs e Hm H; cbn [SpecFloat.iter_pos].
  - destruct (shr_1_located v mrs e Hm H) as [Hm1 H1].
    destruct (IH _ _ _ Hm1 H1) as [Hm2 H2].
    destruct (IH _ _ _ Hm2 H2) as [Hm3 H3].
    split; [exact Hm3|].
    replace (e + Zpos p~1) with (e + 1 + Zpos p + Zpos p) by lia. exact H3.
  - destruct (IH _ _ _ Hm H) as [Hm2 H2].
    destruct (IH _ _ _ Hm2 H2) as [Hm3 H3].
    split; [exact Hm3|].
    replace (e + Zpos p~0) with (e + Zpos p + Zpos p) by lia. exact H3.
  - apply shr_1_located; assumption.
Qed.

(** [shr_fexp] brings a located value to the exponent of its format. *)
Lemma shr_fexp_located (v : R) (m e : Z) (l : SpecFloat.location) :
  0 <= m -> located v m e l ->
  e <= fexp64 (SpecFloat.Zdigits2 m + e) ->
  exists mrs,
    SpecFloat.shr_fexp prec emax m e l
    = (mrs, fexp64 (SpecFloat.Zdigits2 m + e))
    /\ 0 <= SpecFloat.shr_m mrs
    /\ located v (SpecFloat.shr_m mrs) (fexp64 (SpecFloat.Zdigits2 m + e))
         (SpecFloat.loc_of_shr_record mrs).
Proof.
  intros Hm H Hle. unfold SpecFloat.shr_fexp, SpecFloat.shr.
  fold (fexp64 (SpecFloat.Zdigits2 m + e)).
  set (c := fexp64 (SpecFloat.Zdigits2 m + e)) in *.
  destruct (c - e) as [|p|p] eqn:Hn; [| |lia].
  - exists (SpecFloat.shr_record_of_loc m l).
    replace c with e by lia.
    rewrite shr_m_record_of, loc_of_record_of. auto.
  - exists (SpecFloat.iter_pos SpecFloat.shr_1 p (SpecFloat.shr_record_of_loc m l)).
    replace (e + Zpos p) with c by lia.
    split; [reflexivity|].
    replace c with (e + Zpos p) by lia.
    apply iter_shr_located; rewrite shr_m_record_of, ?loc_of_record_of; assumption.
Qed.

(** *** What [binary_round_aux] returns *)

Lemma fexp64_eq (e : Z) : fexp64 e = Z.max (e - 53) (-1074).
Proof. reflexivity. Qed.

Lemma Zdigits2_bounds (m : Z) :
  0 < m -> 2 ^ (SpecFloat.Zdigits2 m - 1) <= m < 2 ^ SpecFloat.Zdigits2 m.
Proof.
  destruct m as [|p|p]; try lia. intros _. cbn [SpecFloat.Zdigits2].
  rewrite digits2_pos_size. apply pos_size_bounds.
Qed.

Lemma Zdigits2_nonneg (m : Z) : 0 <= m -> 0 <= SpecFloat.Zdigits2 m.
Proof. destruct m; cbn; lia. Qed.

Lemma Zdigits2_succ_le (m : Z) : 0 <= m -> m + 1 <= 2 ^ SpecFloat.Zdigits2 m.
Proof.
  intros Hm. destruct (Z.eq_dec m 0) as [-> | Hn]; [cbn; lia|].
  pose proof (Zdigits2_bounds m). lia.
Qed.

Lemma Zdigits2_above (m k : Z) : 0 < m -> 2 ^ k <= m -> k < SpecFloat.Zdigits2 m.
Proof.
  intros Hm Hk. pose proof (Zdigits2_bounds m Hm) as [_ Hhi].
  destruct (Z_lt_le_dec k (SpecFloat.Zdigits2 m)) as [Hlt | Hge]; [exact Hlt|].
  pose proof (Z.pow_le_mono_r 2 _ _ ltac:(lia) Hge). lia.
Qed.

Lemma Zdigits2_below (m k : Z) : 0 <= k -> 0 <= m < 2 ^ k -> SpecFloat.Zdigits2 m <= k.
Proof.
  intros Hk Hm. destruct (Z.eq_dec m 0) as [-> | Hn]; [cbn; lia|].
  pose proof (Zdigits2_bounds m ltac:(lia)) as [Hlo _].
  destruct (Z_lt_le_dec k (SpecFloat.Zdigits2 m)) as [Hlt | Hge]; [|exact Hge].
  pose proof (Z.pow_le_mono_r 2 k (SpecFloat.Zdigits2 m - 1) ltac:(lia) ltac:(lia)).
  lia.
Qed.

Lemma bin_val_le (a b e : Z) : a <= b -> (bin_val a e <= bin_val b e)%R.
Proof.
  intros H. destruct (Z.eq_dec a b) as [-> | Hn]; [lra|].
  apply Rlt_le, bin_val_lt. lia.
Qed.

Lemma bin_val_lt_inv (a b e : Z) : (bin_val a e < bin_val b e)%R -> a < b.
Proof.
  intros H. destruct (Z_lt_le_dec a b) as [Hlt | Hle]; [exact Hlt|].
  apply (bin_val_le _ _ e) in Hle. lra.
Qed.

Lemma bin_val_pow2 (k e : Z) : 0 <= k -> bin_val (2 ^ k) e = bin_val 1 (e + k).
Proof. intros Hk. rewrite bin_val_scale by exact Hk. f_equal. lia. Qed.

Lemma bin_val_one_le (a b : Z) : a <= b -> (bin_val 1 a <= bin_val 1 b)%R.
Proof.
  intros H. replace b with (a + (b - a)) by lia.
  rewrite <- bin_val_pow2 by lia. apply bin_val_le.
  pose proof (Z.pow_pos_nonneg 2 (b - a)). lia.
Qed.

Lemma bin_val_zero (e : Z) : bin_val 0 e = 0%R.
Proof. unfold bin_val. ring. Qed.

Lemma bin_val_pos (m e : Z) : 0 < m -> (0 < bin_val m e)%R.
Proof. intros H. rewrite <- (bin_val_zero e). now apply bin_val_lt. Qed.

Lemma located_upper (v : R) (m e : Z) (l : SpecFloat.location) :
  0 <= m -> located v m e l -> (v < bin_val 1 (e + SpecFloat.Zdigits2 m))%R.
Proof.
  intros Hm H. apply located_range in H.
  rewrite <- bin_val_pow2 by now apply Zdigits2_nonneg.
  pose proof (bin_val_le _ _ e (Zdigits2_succ_le m Hm)). lra.
Qed.

Lemma located_lower (v : R) (m e : Z) (l : SpecFloat.location) :
  0 < m -> located v m e l -> (bin_val 1 (e + (SpecFloat.Zdigits2 m - 1)) <= v)%R.
Proof.
  intros Hm H. apply located_range in H.
  pose proof (Zdigits2_bounds m Hm) as [Hlo _].
  pose proof (Zdigits2_above m 0 Hm ltac:(simpl; lia)).
  rewrite <- bin_val_pow2 by lia.
  pose proof (bin_val_le _ _ e Hlo). lra.
Qed.

(** The second [shr_fexp] of [binary_round_aux] shifts only after a carry
    into the 54th bit. *)
Lemma shr_fexp_rounded (m c : Z) :
  0 <= m <= 2 ^ 53 -> -1074 <= c ->
  exists m' c',
    SpecFloat.shr_m (fst (SpecFloat.shr_fexp prec emax m c SpecFloat.loc_Exact)) = m'
    /\ snd (SpecFloat.shr_fexp prec emax m c SpecFloat.loc_Exact) = c'
    /\ bin_val m' c' = bin_val m c
    /\ (m < 2 ^ 53 -> m' = m /\ c' = c)
    /\ (m = 2 ^ 53 -> m' = 2 ^ 52 /\ c' = c + 1).
Proof.
  intros Hm Hc. unfold SpecFloat.shr_fexp, SpecFloat.shr.
  fold (fexp64 (SpecFloat.Zdigits2 m + c)). rewrite fexp64_eq.
  destruct (Z.eq_dec m (2 ^ 53)) as [-> | Hn].
  - change (SpecFloat.Zdigits2 (2 ^ 53)) with 54.
    replace (Z.max (54 + c - 53) (-1074) - c) with 1 by lia.
    exists (2 ^ 52), (c + 1). cbn [fst snd SpecFloat.iter_pos].
    repeat split; try reflexivity; try lia.
    rewrite (bin_val_scale (2 ^ 52) c 1) by lia. reflexivity.
  - pose proof (Zdigits2_below m 53 ltac:(lia) ltac:(lia)) as Hd.
    exists m, c.
    destruct (Z.max (SpecFloat.Zdigits2 m + c - 53) (-1074) - c) as [|p|p] eqn:Hs;
      try lia; cbn [fst snd]; rewrite shr_m_record_of; repeat split; lia.
Qed.

Lemma round_nearest_even_range (m : Z) (l : SpecFloat.location) :
  m <= SpecFloat.round_nearest_even m l <= m + 1.
Proof.
  unfold SpecFloat.round_nearest_even.
  destruct l as [|[| |]]; try destruct (Z.even m); lia.
Qed.

(** What [binary_round_aux] returns for a located value: the value is
    brought to the exponent [c] of its format, rounded there to the integer
    [m''], and the result is zero, a binary64 number of value [m'' * 2^c],
    or an infinity when that value is [2^1024] or more. *)
Lemma binary_round_aux_cases (sx : bool) (mx ex : Z) (lx : SpecFloat.location) (v : R) :
  0 <= mx -> located v mx ex lx ->
  ex <= fexp64 (SpecFloat.Zdigits2 mx + ex) ->
  exists m' l' c,
    located v m' c l' /\ 0 <= m' < 2 ^ 53 /\ -1074 <= c
    /\ (-1074 < c -> 2 ^ 52 <= m')
    /\ ((SpecFloat.round_nearest_even m' l' = 0
         /\ SpecFloat.binary_round_aux prec emax sx mx ex lx = S754_zero sx)
        \/ (0 < SpecFloat.round_nearest_even m' l'
            /\ exists mf ef,
                SpecFloat.binary_round_aux prec emax sx mx ex lx = S754_finite sx mf ef
                /\ double_repr (Zpos mf) ef /\ ef <= 971
                /\ bin_val (Zpos mf) ef
                   = bin_val (SpecFloat.round_nearest_even m' l') c)
        \/ (SpecFloat.binary_round_aux prec emax sx mx ex lx = S754_infinity sx
            /\ (bin_val 1 1024
                <= bin_val (SpecFloat.round_nearest_even m' l') c)%R)).
Proof.
  intros Hmx Hloc Hpre.
  destruct (shr_fexp_located v mx ex lx Hmx Hloc Hpre) as (mrs & Heq & Hm' & Hloc').
  set (c := fexp64 (SpecFloat.Zdigits2 mx + ex)) in *.
  set (m' := SpecFloat.shr_m mrs) in *.
  set (l' := SpecFloat.loc_of_shr_record mrs) in *.
  assert (Hc : -1074 <= c) by (unfold c; rewrite fexp64_eq; lia).
  pose proof (located_range _ _ _ _ Hloc') as [Hlo Hhi].
  pose proof (located_upper _ _ _ _ Hmx Hloc) as Hup.
  assert (Hlt : m' < 2 ^ 53).
  { apply (bin_val_lt_inv _ _ c). rewrite bin_val_pow2 by lia.
    apply Rle_lt_trans with (1 := Hlo). apply Rlt_le_trans with (1 := Hup).
    apply bin_val_one_le. unfold c. rewrite fexp64_eq. lia. }
  assert (Hnorm : -1074 < c -> 2 ^ 52 <= m').
  { intros Hn.
    assert (Hpos : 0 < mx).
    { destruct (Z.eq_dec mx 0) as [-> | ?]; [|lia].
      unfold c in Hn, Hpre. rewrite fexp64_eq in Hn, Hpre. cbn in Hn, Hpre. lia. }
    pose proof (located_lower _ _ _ _ Hpos Hloc) as Hlow.
    enough (2 ^ 52 < m' + 1) by lia.
    apply (bin_val_lt_inv _ _ c). rewrite bin_val_pow2 by lia.
    apply Rle_lt_trans with (2 := Hhi). apply Rle_trans with (2 := Hlow).
    apply bin_val_one_le. unfold c in *. rewrite fexp64_eq in *. lia. }
  exists m', l', c. split; [exact Hloc'|]. split; [lia|]. split; [exact Hc|].
  split; [exact Hnorm|].
  unfold SpecFloat.binary_round_aux. rewrite Heq.
  fold m' l'.
  pose proof (round_nearest_even_range m' l') as Hr.
  set (m'' := SpecFloat.round_nearest_even m' l') in *.
  destruct (shr_fexp_rounded m'' c ltac:(lia) Hc) as (mf & cf & Hmf & Hcf & Hval & Hsame & Hcarry).
  destruct (SpecFloat.shr_fexp prec emax m'' c SpecFloat.loc_Exact) as [mrs'' e''].
  cbn [fst snd] in Hmf, Hcf. rewrite Hmf, Hcf.
  assert (Hcases : (m'' < 2 ^ 53 /\ mf = m'' /\ cf = c)
                   \/ (m'' = 2 ^ 53 /\ mf = 2 ^ 52 /\ cf = c + 1)).
  { destruct (Z.eq_dec m'' (2 ^ 53)); [right | left]; intuition lia. }
  destruct mf as [|pf|pf].
  - left. split; [|reflexivity]. lia.
  - change (emax - prec) with 971.
    destruct (cf <=? 971) eqn:Hover.
    + right. left. apply Z.leb_le in Hover. split; [lia|].
      exists pf, cf. split; [reflexivity|]. split; [|split; [exact Hover | exact Hval]].
      unfold double_repr. lia.
    + right. right. split; [reflexivity|]. apply Z.leb_gt in Hover.
      rewrite <- Hval. apply Rle_trans with (bin_val (2 ^ 52) cf).
      * rewrite bin_val_pow2 by lia. apply bin_val_one_le. lia.
      * apply bin_val_le. lia.
  - lia.
Qed.

(** *** Rounding is monotone *)

(** Two located values on the same grid are in the order of their cells,
    and of their places in the cell. *)
Lemma located_order (v1 v2 : R) (m1 m2 c : Z) (l1 l2 : SpecFloat.location) :
  located v1 m1 c l1 -> located v2 m2 c l2 -> (v1 <= v2)%R ->
  m1 < m2 \/ (m1 = m2 /\ loc_code l1 <= loc_code l2).
Proof.
  intros H1 H2 Hle.
  destruct (Z_lt_le_dec m1 m2) as [Hlt | Hge]; [left; exact Hlt | right].
  pose proof (located_range _ _ _ _ H1) as [Hlo1 _].
  pose proof (located_range _ _ _ _ H2) as [_ Hhi2].
  assert (Heq : m1 = m2).
  { enough (m1 < m2 + 1) by lia. apply (bin_val_lt_inv _ _ c). lra. }
  subst m2. split; [reflexivity|].
  pose proof (bin_val_pos_unit (c - 1)) as Hu.
  assert (E1 : bin_val (2 * m1 + 1) (c - 1)
               = (bin_val (2 * m1) (c - 1) + bin_val 1 (c - 1))%R)
    by apply bin_val_plus.
  pose proof (bin_val_half m1 c) as E0.
  destruct l1 as [|[| |]], l2 as [|[| |]]; cbn [located loc_code] in *; try lia; lra.
Qed.

Lemma round_nearest_even_mono (m1 m2 : Z) (l1 l2 : SpecFloat.location) :
  m1 < m2 \/ (m1 = m2 /\ loc_code l1 <= loc_code l2) ->
  SpecFloat.round_nearest_even m1 l1 <= SpecFloat.round_nearest_even m2 l2.
Proof.
  intros [Hlt | [-> Hc]].
  - pose proof (round_nearest_even_range m1 l1).
    pose proof (round_nearest_even_range m2 l2). lia.
  - unfold SpecFloat.round_nearest_even.
    destruct l1 as [|[| |]], l2 as [|[| |]]; cbn [loc_code] in Hc;
      try destruct (Z.even m2); lia.
Qed.

(** Rounding to the format keeps the order of the values. *)
Lemma rounded_value_mono (v1 v2 : R) (m1 m2 c1 c2 : Z) (l1 l2 : SpecFloat.location) :
  located v1 m1 c1 l1 -> 0 <= m1 < 2 ^ 53 -> -1074 <= c1 ->
  (-1074 < c1 -> 2 ^ 52 <= m1) ->
  located v2 m2 c2 l2 -> 0 <= m2 < 2 ^ 53 -> -1074 <= c2 ->
  (-1074 < c2 -> 2 ^ 52 <= m2) ->
  (v1 <= v2)%R ->
  (bin_val (SpecFloat.round_nearest_even m1 l1) c1
   <= bin_val (SpecFloat.round_nearest_even m2 l2) c2)%R.
Proof.
  intros H1 Hm1 Hc1 Hn1 H2 Hm2 Hc2 Hn2 Hle.
  pose proof (round_nearest_even_range m1 l1) as Hr1.
  pose proof (round_nearest_even_range m2 l2) as Hr2.
  pose proof (located_range _ _ _ _ H1) as [Hlo1 Hhi1].
  pose proof (located_range _ _ _ _ H2) as [Hlo2 Hhi2].
  destruct (Z.compare_spec c1 c2) as [Heq | Hlt | Hgt].
  - subst c2. apply bin_val_le, round_nearest_even_mono.
    now apply (located_order v1 v2 m1 m2 c1).
  - apply Rle_trans with (bin_val (2 ^ 53) c1); [apply bin_val_le; lia|].
    apply Rle_trans with (bin_val (2 ^ 52) c2); [|apply bin_val_le; lia].
    rewrite !bin_val_pow2 by lia. apply bin_val_one_le. lia.
  - exfalso.
    assert (bin_val (m2 + 1) c2 <= bin_val m1 c1)%R; [|lra].
    apply Rle_trans with (bin_val (2 ^ 53) c2); [apply bin_val_le; lia|].
    apply Rle_trans with (bin_val (2 ^ 52) c1); [|apply bin_val_le; lia].
    rewrite !bin_val_pow2 by lia. apply bin_val_one_le. lia.
Qed.

Lemma SFleb_finite_pos (m1 m2 : positive) (e1 e2 : Z) :
  double_repr (Zpos m1) e1 -> double_repr (Zpos m2) e2 ->
  (bin_val (Zpos m1) e1 <= bin_val (Zpos m2) e2)%R ->
  SFleb (S754_finite false m1 e1) (S754_finite false m2 e2) = true.
Proof.
  intros (Hm1 & He1 & Hn1) (Hm2 & He2 & Hn2) Hle.
  unfold SFleb. cbn [SFcompare].
  destruct (Z.compare_spec e1 e2) as [Heq | Hlt | Hgt]; [|reflexivity|exfalso].
  - subst e2. apply bin_val_le_inv in Hle.
    fold (Pos.compare m1 m2). destruct (Pos.compare_spec m1 m2); try reflexivity. lia.
  - assert (bin_val (Zpos m2) e2 < bin_val (Zpos m1) e1)%R; [|lra].
    apply Rlt_le_trans with (bin_val (2 ^ 53) e2); [apply bin_val_lt; lia|].
    apply Rle_trans with (bin_val (2 ^ 52) e1); [|apply bin_val_le; lia].
    rewrite !bin_val_pow2 by lia. apply bin_val_one_le. lia.
Qed.

Lemma bin_val_below_overflow (m e : Z) :
  m < 2 ^ 53 -> e <= 971 -> (bin_val m e < bin_val 1 1024)%R.
Proof.
  intros Hm He. apply Rlt_le_trans with (bin_val (2 ^ 53) e); [now apply bin_val_lt|].
  rewrite bin_val_pow2 by lia. apply bin_val_one_le. lia.
Qed.

(** [binary_round_aux] is monotone: rounding keeps the order of two
    non-negative values. *)
Lemma binary_round_aux_mono (mx1 ex1 mx2 ex2 : Z) (lx1 lx2 : SpecFloat.location)
    (v1 v2 : R) :
  0 <= mx1 -> located v1 mx1 ex1 lx1 ->
  ex1 <= fexp64 (SpecFloat.Zdigits2 mx1 + ex1) ->
  0 <= mx2 -> located v2 mx2 ex2 lx2 ->
  ex2 <= fexp64 (SpecFloat.Zdigits2 mx2 + ex2) ->
  (v1 <= v2)%R ->
  SFleb (SpecFloat.binary_round_aux prec emax false mx1 ex1 lx1)
        (SpecFloat.binary_round_aux prec emax false mx2 ex2 lx2) = true.
Proof.
  intros Hm1 Hl1 Hp1 Hm2 Hl2 Hp2 Hle.
  destruct (binary_round_aux_cases false mx1 ex1 lx1 v1 Hm1 Hl1 Hp1)
    as (m1 & l1 & c1 & Hloc1 & Hb1 & Hc1 & Hn1 & Hres1).
  destruct (binary_round_aux_cases false mx2 ex2 lx2 v2 Hm2 Hl2 Hp2)
    as (m2 & l2 & c2 & Hloc2 & Hb2 & Hc2 & Hn2 & Hres2).
  pose proof (rounded_value_mono v1 v2 m1 m2 c1 c2 l1 l2
                Hloc1 Hb1 Hc1 Hn1 Hloc2 Hb2 Hc2 Hn2 Hle) as Hval.
  set (r1 := SpecFloat.round_nearest_even m1 l1) in *.
  set (r2 := SpecFloat.round_nearest_even m2 l2) in *.
  destruct Hres1 as [[Hz1 ->] | [(Hp1' & mf1 & ef1 & -> & Hd1 & Hef1 & Hv1) | [-> Ho1]]];
    destruct Hres2 as [[Hz2 ->] | [(Hp2' & mf2 & ef2 & -> & Hd2 & Hef2 & Hv2) | [-> Ho2]]];
    try reflexivity.
  - exfalso. rewrite Hz2, bin_val_zero in Hval.
    pose proof (bin_val_pos r1 c1 Hp1'). lra.
  - apply SFleb_finite_pos; try assumption. rewrite Hv1, Hv2. exact Hval.
  - exfalso. rewrite Hz2, bin_val_zero in Hval.
    pose proof (bin_val_pos_unit 1024). lra.
  - exfalso. rewrite <- Hv2 in Hval.
    pose proof (bin_val_below_overflow (Zpos mf2) ef2 ltac:(unfold double_repr in Hd2; lia) Hef2).
    lra.
Qed.

(** *** The operations round their exact results *)

Lemma binary_round_aux_opp (mx ex : Z) (lx : SpecFloat.location) :
  SpecFloat.binary_round_aux prec emax true mx ex lx
  = SFopp (SpecFloat.binary_round_aux prec emax false mx ex lx).
Proof.
  unfold SpecFloat.binary_round_aux.
  destruct (SpecFloat.shr_fexp prec emax mx ex lx) as [mrs e'].
  destruct (SpecFloat.shr_fexp prec emax _ e' SpecFloat.loc_Exact) as [mrs' e''].
  destruct (SpecFloat.shr_m mrs') as [|p|p]; try reflexivity.
  destruct (e'' <=? emax - prec); reflexivity.
Qed.

Lemma SFleb_opp (a b : spec_float) : SFleb (SFopp a) (SFopp b) = SFleb b a.
Proof.
  unfold SFleb.
  destruct a as [[]|[]| |[] m1 e1], b as [[]|[]| |[] m2 e2]; try reflexivity;
    cbn [SFopp SFcompare negb];
    rewrite (Z.compare_antisym e1 e2);
    fold (Pos.compare m1 m2); fold (Pos.compare m2 m1);
    rewrite (Pos.compare_antisym m1 m2);
    destruct (e1 ?= e2); cbn [CompOpp]; try reflexivity;
    destruct (m1 ?= m2)%positive; reflexivity.
Qed.

Lemma SFleb_through_zero (a b : spec_float) :
  SFleb a (S754_zero false) = true -> SFleb (S754_zero false) b = true ->
  SFleb a b = true.
Proof.
  destruct a as [[]|[]| |[] m1 e1], b as [[]|[]| |[] m2 e2];
    cbn; intros; try reflexivity; try discriminate.
Qed.

Lemma binary_round_aux_sign (sx : bool) (mx ex : Z) (lx : SpecFloat.location) (v : R) :
  0 <= mx -> located v mx ex lx ->
  ex <= fexp64 (SpecFloat.Zdigits2 mx + ex) ->
  (if sx
   then SFleb (SpecFloat.binary_round_aux prec emax sx mx ex lx) (S754_zero false)
   else SFleb (S754_zero false) (SpecFloat.binary_round_aux prec emax sx mx ex lx))
  = true.
Proof.
  intros Hm Hl Hp.
  destruct (binary_round_aux_cases sx mx ex lx v Hm Hl Hp)
    as (m' & l' & c & _ & _ & _ & _ & Hres).
  destruct Hres as [[_ ->] | [(_ & mf & ef & -> & _) | [-> _]]];
    destruct sx; reflexivity.
Qed.

Lemma rounding_of_sign (V : R) (r : spec_float) :
  rounding_of V r ->
  ((V <= 0)%R -> SFleb r (S754_zero false) = true)
  /\ ((0 <= V)%R -> SFleb (S754_zero false) r = true).
Proof.
  intros [[-> [s ->]] | (s & mx & ex & lx & Hm & Hl & Hp & -> & Hs)].
  - split; intros _; destruct s; reflexivity.
  - pose proof (binary_round_aux_sign s mx ex lx _ Hm Hl Hp) as H.
    destruct s; split; intros HV; try lra; exact H.
Qed.

Lemma rounding_of_not_nan (V : R) (r : spec_float) :
  rounding_of V r ->
  SFleb (S754_infinity true) r = true /\ SFleb r (S754_infinity false) = true.
Proof.
  intros [[-> [s ->]] | (s & mx & ex & lx & Hm & Hl & Hp & -> & Hs)].
  - split; reflexivity.
  - destruct (binary_round_aux_cases s mx ex lx _ Hm Hl Hp)
      as (m' & l' & c & _ & _ & _ & _ & Hres).
    destruct Hres as [[_ ->] | [(_ & mf & ef & -> & _) | [-> _]]];
      destruct s; split; reflexivity.
Qed.

(** The operations are monotone in their exact result. *)
Lemma rounding_of_mono (V1 V2 : R) (r1 r2 : spec_float) :
  rounding_of V1 r1 -> rounding_of V2 r2 -> (V1 <= V2)%R -> SFleb r1 r2 = true.
Proof.
  intros H1 H2 Hle.
  destruct (Rle_dec V1 0) as [Hn1 | Hp1].
  - destruct (Rle_dec 0 V2) as [Hp2 | Hn2].
    + apply SFleb_through_zero.
      * now apply (rounding_of_sign V1 r1).
      * now apply (rounding_of_sign V2 r2).
    + destruct H1 as [[-> _] | (s1 & mx1 & ex1 & lx1 & Hm1 & Hl1 & Hq1 & -> & Hs1)];
        [lra|].
      destruct H2 as [[-> _] | (s2 & mx2 & ex2 & lx2 & Hm2 & Hl2 & Hq2 & -> & Hs2)];
        [lra|].
      destruct s1; [|lra]. destruct s2; [|lra].
      rewrite !binary_round_aux_opp, SFleb_opp.
      rewrite Rabs_left in Hl1, Hl2 by lra.
      apply (binary_round_aux_mono _ _ _ _ _ _ (- V2) (- V1)); try assumption. lra.
  - destruct H1 as [[-> _] | (s1 & mx1 & ex1 & lx1 & Hm1 & Hl1 & Hq1 & -> & Hs1)];
      [lra|].
    destruct H2 as [[-> _] | (s2 & mx2 & ex2 & lx2 & Hm2 & Hl2 & Hq2 & -> & Hs2)];
      [lra|].
    destruct s1; [lra|]. destruct s2; [lra|].
    rewrite Rabs_right in Hl1, Hl2 by lra.
    apply (binary_round_aux_mono _ _ _ _ _ _ V1 V2); try assumption.
Qed.

(** A binary64 number is the rounding of its own value. *)
Lemma binary_round_aux_canonical (s : bool) (m : positive) (e : Z) :
  SpecFloat.valid_binary prec emax (S754_finite s m e) = true ->
  SpecFloat.binary_round_aux prec emax s (Zpos m) e SpecFloat.loc_Exact
  = S754_finite s m e.
Proof.
  intros Hv. cbn [SpecFloat.valid_binary] in Hv.
  unfold SpecFloat.bounded, SpecFloat.canonical_mantissa in Hv.
  apply andb_prop in Hv as [Hc Hb]. apply Z.eqb_eq in Hc.
  unfold SpecFloat.binary_round_aux, SpecFloat.shr_fexp.
  cbn [SpecFloat.Zdigits2 SpecFloat.shr_record_of_loc]. rewrite Hc, Z.sub_diag.
  cbn [SpecFloat.shr SpecFloat.shr_m SpecFloat.loc_of_shr_record
       SpecFloat.round_nearest_even SpecFloat.Zdigits2].
  rewrite Hc, Z.sub_diag. cbn [SpecFloat.shr SpecFloat.shr_m]. rewrite Hb. reflexivity.
Qed.

Lemma valid_exponent (s : bool) (m : positive) (e : Z) :
  SpecFloat.valid_binary prec emax (S754_finite s m e) = true ->
  e = fexp64 (SpecFloat.Zdigits2 (Zpos m) + e) /\ e <= 971.
Proof.
  intros Hv. cbn [SpecFloat.valid_binary] in Hv.
  unfold SpecFloat.bounded, SpecFloat.canonical_mantissa in Hv.
  apply andb_prop in Hv as [Hc Hb]. apply Z.eqb_eq in Hc. apply Z.leb_le in Hb.
  split; [symmetry; exact Hc | exact Hb].
Qed.

Lemma rounding_of_self (x : spec_float) :
  SpecFloat.valid_binary prec emax x = true -> finite_sf x = true ->
  rounding_of (sval x) x.
Proof.
  intros Hv Hf. destruct x as [s| | |s m e]; try discriminate.
  - left. split; [reflexivity | now exists s].
  - right. exists s, (Zpos m), e, SpecFloat.loc_Exact.
    pose proof (bin_val_pos (Zpos m) e ltac:(lia)) as Hpos.
    destruct (valid_exponent s m e Hv) as [He _].
    split; [lia|]. split.
    { cbn [located sval]. destruct s; [rewrite Rabs_left | rewrite Rabs_right]; lra. }
    split; [lia|]. split; [now rewrite binary_round_aux_canonical|].
    cbn [sval]. destruct s; lra.
Qed.

Lemma finite_pos_order (m1 m2 e1 e2 : Z) :
  double_repr m1 e1 -> double_repr m2 e2 ->
  e1 < e2 \/ (e1 = e2 /\ m1 <= m2) ->
  (bin_val m1 e1 <= bin_val m2 e2)%R.
Proof.
  intros (Hm1 & He1 & Hn1) (Hm2 & He2 & Hn2) [Hlt | [-> Hle]].
  - apply Rle_trans with (bin_val (2 ^ 53) e1); [apply bin_val_le; lia|].
    apply Rle_trans with (bin_val (2 ^ 52) e2); [|apply bin_val_le; lia].
    rewrite !bin_val_pow2 by lia. apply bin_val_one_le. lia.
  - now apply bin_val_le.
Qed.

(** The order of two finite binary64 numbers is the order of their values. *)
Lemma SFleb_sval (x y : spec_float) :
  SpecFloat.valid_binary prec emax x = true ->
  SpecFloat.valid_binary prec emax y = true ->
  finite_sf x = true -> finite_sf y = true ->
  SFleb x y = true -> (sval x <= sval y)%R.
Proof.
  intros Hvx Hvy Hfx Hfy.
  destruct x as [sx| | |sx mx ex], y as [sy| | |sy my ey]; try discriminate;
    cbn [sval]; try lra.
  - pose proof (bin_val_pos (Zpos my) ey ltac:(lia)).
    destruct sy; [discriminate | intros _; lra].
  - pose proof (bin_val_pos (Zpos mx) ex ltac:(lia)).
    destruct sx; [intros _; lra | discriminate].
  - pose proof (bin_val_pos (Zpos mx) ex ltac:(lia)).
    pose proof (bin_val_pos (Zpos my) ey ltac:(lia)).
    pose proof (valid_binary_repr _ _ _ Hvx) as Hdx.
    pose proof (valid_binary_repr _ _ _ Hvy) as Hdy.
    unfold SFleb. cbn [SFcompare].
    fold (Pos.compare mx my).
    destruct sx, sy; try discriminate; try (intros _; lra).
    + intros Hc. apply Ropp_le_contravar. apply finite_pos_order; try assumption.
      destruct (Z.compare_spec ex ey); [right | discriminate | left; lia].
      split; [congruence|]. destruct (Pos.compare_spec mx my); try discriminate Hc; lia.
    + intros Hc. apply finite_pos_order; try assumption.
      destruct (Z.compare_spec ex ey); [right | left; lia | discriminate].
      split; [congruence|]. destruct (Pos.compare_spec mx my); try discriminate Hc; lia.
Qed.

(** An operation that rounds an increasing function of its argument, and
    keeps the infinities, is monotone. *)
Lemma monotone_lift (f : spec_float -> spec_float) (phi : R -> R) :
  (forall X, SpecFloat.valid_binary prec emax X = true -> finite_sf X = true ->
             rounding_of (phi (sval X)) (f X)) ->
  (forall u v, (u <= v)%R -> (phi u <= phi v)%R) ->
  f (S754_infinity true) = S754_infinity true ->
  f (S754_infinity false) = S754_infinity false ->
  forall X Y,
    SpecFloat.valid_binary prec emax X = true ->
    SpecFloat.valid_binary prec emax Y = true ->
    SFleb X Y = true -> SFleb (f X) (f Y) = true.
Proof.
  intros Hround Hphi Hninf Hpinf X Y HvX HvY Hle.
  destruct (finite_sf X) eqn:HfX, (finite_sf Y) eqn:HfY.
  - apply (rounding_of_mono (phi (sval X)) (phi (sval Y))); auto.
    apply Hphi. now apply SFleb_sval.
  - destruct Y as [| [] | |]; try discriminate HfY;
      try (destruct X as [[]| | |[]]; discriminate).
    rewrite Hpinf. apply (rounding_of_not_nan (phi (sval X))). auto.
  - destruct X as [| [] | |]; try discriminate HfX;
      try (destruct Y as [[]| | |[]]; discriminate).
    rewrite Hninf. apply (rounding_of_not_nan (phi (sval Y))). auto.
  - destruct X as [| [] | |]; try discriminate HfX;
      destruct Y as [| [] | |]; try discriminate HfY; try discriminate Hle;
      rewrite ?Hninf, ?Hpinf; reflexivity.
Qed.

(** The same for a decreasing function that swaps the infinities. *)
Lemma antitone_lift (f : spec_float -> spec_float) (phi : R -> R) :
  (forall X, SpecFloat.valid_binary prec emax X = true -> finite_sf X = true ->
             rounding_of (phi (sval X)) (f X)) ->
  (forall u v, (u <= v)%R -> (phi v <= phi u)%R) ->
  f (S754_infinity true) = S754_infinity false ->
  f (S754_infinity false) = S754_infinity true ->
  forall X Y,
    SpecFloat.valid_binary prec emax X = true ->
    SpecFloat.valid_binary prec emax Y = true ->
    SFleb X Y = true -> SFleb (f Y) (f X) = true.
Proof.
  intros Hround Hphi Hninf Hpinf X Y HvX HvY Hle.
  destruct (finite_sf X) eqn:HfX, (finite_sf Y) eqn:HfY.
  - apply (rounding_of_mono (phi (sval Y)) (phi (sval X))); auto.
    apply Hphi. now apply SFleb_sval.
  - destruct Y as [| [] | |]; try discriminate HfY;
      try (destruct X as [[]| | |[]]; discriminate).
    rewrite Hpinf. apply (rounding_of_not_nan (phi (sval X))). auto.
  - destruct X as [| [] | |]; try discriminate HfX;
      try (destruct Y as [[]| | |[]]; discriminate).
    rewrite Hninf. apply (rounding_of_not_nan (phi (sval Y))). auto.
  - destruct X as [| [] | |]; try discriminate HfX;
      destruct Y as [| [] | |]; try discriminate HfY; try discriminate Hle;
      rewrite ?Hninf, ?Hpinf; reflexivity.
Qed.

Lemma bin_val_mul (a b e f : Z) :
  (bin_val a e * bin_val b f)%R = bin_val (a * b) (e + f).
Proof.
  unfold bin_val. rewrite mult_IZR, powerRZ_add by lra. ring.
Qed.

Lemma bin_val_opp (a e : Z) : bin_val (- a) e = (- bin_val a e)%R.
Proof. unfold bin_val. rewrite opp_IZR. ring. Qed.

Lemma bin_val_minus (a b e : Z) :
  bin_val (a - b) e = (bin_val a e - bin_val b e)%R.
Proof. unfold bin_val. rewrite minus_IZR. ring. Qed.

Lemma Zdigits2_unique (m k : Z) :
  0 < m -> 2 ^ (k - 1) <= m < 2 ^ k -> SpecFloat.Zdigits2 m = k.
Proof.
  intros Hm [Hlo Hhi].
  assert (Hk : 0 <= k).
  { destruct (Z_lt_le_dec k 0) as [Hneg | ?]; [|assumption].
    rewrite (Z.pow_neg_r 2 k Hneg) in Hhi. lia. }
  pose proof (Zdigits2_above m (k - 1) Hm Hlo).
  pose proof (Zdigits2_below m k Hk ltac:(lia)). lia.
Qed.

Lemma iter_xO (m d : positive) : Zpos (Pos.iter xO m d) = Zpos m * 2 ^ Zpos d.
Proof.
  induction d as [|d IH] using Pos.peano_ind.
  - cbn [Pos.iter]. lia.
  - rewrite Pos.iter_succ, Pos2Z.inj_succ, Z.pow_succ_r by lia.
    rewrite Pos2Z.inj_xO, IH. lia.
Qed.

Lemma Zdigits2_shift (m d : Z) :
  0 < m -> 0 <= d ->
  SpecFloat.Zdigits2 (m * 2 ^ d) = SpecFloat.Zdigits2 m + d.
Proof.
  intros Hm Hd. pose proof (Zdigits2_bounds m Hm) as [Hlo Hhi].
  pose proof (Zdigits2_above m 0 Hm ltac:(simpl; lia)) as Hpos.
  pose proof (Z.pow_pos_nonneg 2 d ltac:(lia) Hd) as Hp.
  apply Zdigits2_unique; [nia|].
  replace (SpecFloat.Zdigits2 m + d - 1) with (SpecFloat.Zdigits2 m - 1 + d) by lia.
  rewrite !Z.pow_add_r by lia. nia.
Qed.

(** [shl_align] lowers the exponent to the one asked for, when that is
    below, and keeps the value. *)
Lemma shl_align_spec (mx : positive) (ex e' : Z) :
  exists mz ez,
    SpecFloat.shl_align mx ex e' = (mz, ez)
    /\ bin_val (Zpos mz) ez = bin_val (Zpos mx) ex
    /\ SpecFloat.Zdigits2 (Zpos mz) + ez = SpecFloat.Zdigits2 (Zpos mx) + ex
    /\ ez = Z.min ex e'.
Proof.
  unfold SpecFloat.shl_align. destruct (e' - ex) as [|d|d] eqn:Hd.
  - exists mx, ex. repeat split; lia.
  - exists mx, ex. repeat split; lia.
  - exists (Pos.iter xO mx d), e'. split; [reflexivity|].
    rewrite iter_xO. split; [|split; [|lia]].
    + rewrite <- bin_val_scale by lia. f_equal. lia.
    + rewrite Zdigits2_shift by lia. lia.
Qed.

Lemma binary_round_rounding (s : bool) (m : positive) (e : Z) :
  rounding_of (if s then (- bin_val (Zpos m) e)%R else bin_val (Zpos m) e)
              (SpecFloat.binary_round prec emax s m e).
Proof.
  unfold SpecFloat.binary_round.
  destruct (shl_align_spec m e (SpecFloat.fexp prec emax (Zpos (digits2_pos m) + e)))
    as (mz & ez & -> & Hval & Hdig & Hez).
  pose proof (bin_val_pos (Zpos m) e ltac:(lia)) as Hpos.
  right. exists s, (Zpos mz), ez, SpecFloat.loc_Exact.
  split; [lia|]. split.
  { cbn [located]. rewrite Hval.
    destruct s; [rewrite Rabs_left | rewrite Rabs_right]; lra. }
  split.
  { rewrite Hdig, Hez. unfold fexp64. cbn [SpecFloat.Zdigits2]. lia. }
  split; [reflexivity|]. destruct s; lra.
Qed.

Lemma binary_normalize_rounding (m e : Z) (szero : bool) :
  rounding_of (bin_val m e) (SpecFloat.binary_normalize prec emax m e szero).
Proof.
  destruct m as [|p|p]; cbn [SpecFloat.binary_normalize].
  - left. split; [apply bin_val_zero | now exists szero].
  - apply (binary_round_rounding false).
  - change (Zneg p) with (- Zpos p). rewrite bin_val_opp.
    apply (binary_round_rounding true).
Qed.

Lemma sval_cond_Zopp (s : bool) (m : positive) (e : Z) :
  sval (S754_finite s m e) = bin_val (SpecFloat.cond_Zopp s (Zpos m)) e.
Proof.
  destruct s; cbn [sval SpecFloat.cond_Zopp]; [|reflexivity].
  now rewrite bin_val_opp.
Qed.

Lemma cond_Zopp_aligned (s : bool) (m : positive) (e e' : Z) :
  e' <= e ->
  bin_val (SpecFloat.cond_Zopp s (Zpos (fst (SpecFloat.shl_align m e e')))) e'
  = sval (S754_finite s m e).
Proof.
  intros Hle. destruct (shl_align_spec m e e') as (mz & ez & -> & Hval & _ & Hez).
  cbn [fst]. replace e' with ez by lia.
  destruct s; cbn [sval SpecFloat.cond_Zopp]; rewrite ?bin_val_opp, Hval; reflexivity.
Qed.

(** The product of two finite numbers is the rounding of the exact
    product. *)
Lemma SFmul_rounding (X Y : spec_float) :
  SpecFloat.valid_binary prec emax X = true ->
  SpecFloat.valid_binary prec emax Y = true ->
  finite_sf X = true -> finite_sf Y = true ->
  rounding_of (sval X * sval Y) (SFmul prec emax X Y).
Proof.
  intros HvX HvY HfX HfY.
  destruct X as [sx| | |sx mx ex], Y as [sy| | |sy my ey]; try discriminate;
    cbn [SFmul sval];
    try (left; split; [ring | eexists; reflexivity]).
  right. exists (xorb sx sy), (Zpos (mx * my)), (ex + ey), SpecFloat.loc_Exact.
  pose proof (bin_val_pos (Zpos mx) ex ltac:(lia)) as Hpx.
  pose proof (bin_val_pos (Zpos my) ey ltac:(lia)) as Hpy.
  pose proof (Rmult_lt_0_compat _ _ Hpx Hpy) as Hp.
  pose proof (bin_val_mul (Zpos mx) (Zpos my) ex ey) as Hmul.
  rewrite <- Pos2Z.inj_mul in Hmul.
  split; [lia|]. split.
  { cbn [located]. rewrite <- Hmul.
    destruct sx, sy; cbn [xorb];
      [rewrite Rabs_right | rewrite Rabs_left | rewrite Rabs_left | rewrite Rabs_right];
      lra. }
  split.
  { destruct (valid_binary_repr _ _ _ HvX) as (Hmx & Hex & Hnx).
    destruct (valid_binary_repr _ _ _ HvY) as (Hmy & Hey & Hny).
    rewrite fexp64_eq.
    destruct (Z_le_gt_dec (ex + ey) (-1074)) as [Hsmall | Hbig]; [lia|].
    assert (Hprod : 2 ^ 52 <= Zpos (mx * my)) by (rewrite Pos2Z.inj_mul; nia).
    pose proof (Zdigits2_above (Zpos (mx * my)) 52 ltac:(lia) Hprod). lia. }
  split; [reflexivity|].
  destruct sx, sy; cbn [xorb]; lra.
Qed.

(** The difference of two finite numbers is the rounding of the exact
    difference. *)
Lemma SFsub_rounding (X Y : spec_float) :
  SpecFloat.valid_binary prec emax X = true ->
  SpecFloat.valid_binary prec emax Y = true ->
  finite_sf X = true -> finite_sf Y = true ->
  rounding_of (sval X - sval Y) (SFsub prec emax X Y).
Proof.
  intros HvX HvY HfX HfY.
  destruct X as [sx| | |sx mx ex], Y as [sy| | |sy my ey]; try discriminate;
    cbn [SFsub].
  - left. split; [cbn [sval]; ring|]. destruct sx, sy; eexists; reflexivity.
  - replace (sval (S754_zero sx) - sval (S754_finite sy my ey))%R
      with (sval (S754_finite (negb sy) my ey))
      by (destruct sy; cbn [sval negb]; ring).
    apply rounding_of_self; [exact HvY | reflexivity].
  - replace (sval (S754_finite sx mx ex) - sval (S754_zero sy))%R
      with (sval (S754_finite sx mx ex)) by (cbn [sval]; ring).
    apply rounding_of_self; [exact HvX | reflexivity].
  - rewrite <- (cond_Zopp_aligned sx mx ex (Z.min ex ey)) by lia.
    rewrite <- (cond_Zopp_aligned sy my ey (Z.min ex ey)) by lia.
    rewrite <- bin_val_minus. apply binary_normalize_rounding.
Qed.

Lemma new_location_spec (nb k : Z) :
  0 <= k < nb ->
  SpecFloat.new_location nb k
  = if k =? 0 then SpecFloat.loc_Exact else SpecFloat.loc_Inexact (2 * k ?= nb).
Proof.
  intros Hk. unfold SpecFloat.new_location.
  destruct (Z.even nb) eqn:Hev;
    unfold SpecFloat.new_location_even, SpecFloat.new_location_odd;
    destruct (k =? 0); try reflexivity.
  f_equal.
  assert (Hodd : Z.odd nb = true) by (rewrite <- Z.negb_even, Hev; reflexivity).
  apply Z.odd_spec in Hodd as [j Hj].
  destruct (Z.compare_spec (2 * k + 1) nb), (Z.compare_spec (2 * k) nb);
    try reflexivity; lia.
Qed.

Lemma quotient_compare (V : R) (d n k e : Z) :
  0 < d -> (V * IZR d)%R = bin_val n e ->
  (k * d < n -> (bin_val k e < V)%R)
  /\ (k * d = n -> V = bin_val k e)
  /\ (n < k * d -> (V < bin_val k e)%R).
Proof.
  intros Hd HV.
  assert (Hk : (bin_val k e * IZR d)%R = bin_val (k * d) e)
    by (unfold bin_val; rewrite mult_IZR; ring).
  assert (Hpos : (0 < IZR d)%R) by now apply IZR_lt.
  repeat split; intros H.
  - apply (bin_val_lt _ _ e) in H. apply Rmult_lt_reg_r with (IZR d); lra.
  - apply Rmult_eq_reg_r with (IZR d); [|lra]. rewrite HV, Hk, H. reflexivity.
  - apply (bin_val_lt _ _ e) in H. apply Rmult_lt_reg_r with (IZR d); lra.
Qed.

(** The quotient that [SFdiv_core_binary] hands to the rounding is located
    at the exact quotient. *)
Lemma SFdiv_core_located (m1 m2 : positive) (e1 e2 : Z) :
  exists q e' l,
    SpecFloat.SFdiv_core_binary prec emax (Zpos m1) e1 (Zpos m2) e2 = (q, e', l)
    /\ 0 <= q
    /\ located (bin_val (Zpos m1) e1 / bin_val (Zpos m2) e2) q e' l
    /\ e' <= fexp64 (SpecFloat.Zdigits2 q + e').
Proof.
  unfold SpecFloat.SFdiv_core_binary.
  set (d1 := SpecFloat.Zdigits2 (Zpos m1)).
  set (d2 := SpecFloat.Zdigits2 (Zpos m2)).
  fold (fexp64 (d1 + e1 - (d2 + e2))).
  set (e' := Z.min (fexp64 (d1 + e1 - (d2 + e2))) (e1 - e2)).
  set (s := e1 - e2 - e').
  assert (Hs : 0 <= s) by (unfold s, e'; lia).
  set (m' := match s with Z.pos _ => Z.shiftl (Zpos m1) s | 0 => Zpos m1 | Z.neg _ => 0 end).
  assert (Hm' : m' = Zpos m1 * 2 ^ s).
  { unfold m'. destruct s as [|p|p] eqn:Es; [lia| |lia].
    rewrite Z.shiftl_mul_pow2 by lia. reflexivity. }
  pose proof (Z_div_mod m' (Zpos m2) ltac:(lia)) as Hdiv.
  destruct (Z.div_eucl m' (Zpos m2)) as [q r]. destruct Hdiv as [Hqr Hr].
  pose proof (Z.pow_pos_nonneg 2 s ltac:(lia) Hs) as Hp.
  assert (Hq : 0 <= q) by nia.
  exists q, e', (SpecFloat.new_location (Zpos m2) r).
  split; [reflexivity|]. split; [exact Hq|]. split.
  - set (V := (bin_val (Zpos m1) e1 / bin_val (Zpos m2) e2)%R).
    assert (HV : (V * IZR (Zpos m2))%R = bin_val m' e').
    { unfold V. rewrite Hm', <- bin_val_scale by lia.
      replace (e' + s) with (e1 - e2) by (unfold s; lia).
      pose proof (powerRZ_lt 2 e2 ltac:(lra)).
      assert (0 < IZR (Zpos m2))%R by (apply IZR_lt; lia).
      unfold bin_val, Zminus. rewrite powerRZ_add, powerRZ_neg' by lra.
      field. split; lra. }
    assert (HV2 : (V * IZR (Zpos m2))%R = bin_val (2 * m') (e' - 1))
      by (rewrite bin_val_half; exact HV).
    rewrite new_location_spec by lia.
    destruct (Z.eqb_spec r 0) as [-> | Hr0].
    + cbn [located].
      apply (quotient_compare V (Zpos m2) m' q e' ltac:(lia) HV). lia.
    + pose proof (quotient_compare V (Zpos m2) (2 * m') (2 * q) (e' - 1) ltac:(lia) HV2)
        as (Hlo & _ & _).
      pose proof (quotient_compare V (Zpos m2) (2 * m') (2 * q + 1) (e' - 1) ltac:(lia) HV2)
        as (Hmid_lt & Hmid_eq & Hmid_gt).
      pose proof (quotient_compare V (Zpos m2) (2 * m') (2 * q + 2) (e' - 1) ltac:(lia) HV2)
        as (_ & _ & Hhi).
      destruct (Z.compare_spec (2 * r) (Zpos m2)) as [Heq | Hlt | Hgt]; cbn [located].
      * apply Hmid_eq. lia.
      * split; [apply Hlo | apply Hmid_gt]; lia.
      * split; [apply Hmid_lt | apply Hhi]; lia.
  - assert (Hdq : d1 + s - d2 <= SpecFloat.Zdigits2 q).
    { pose proof (Zdigits2_nonneg q Hq).
      destruct (Z_lt_le_dec (d1 + s - 1 - d2) 0) as [Hneg | Hk]; [lia|].
      pose proof (Zdigits2_bounds (Zpos m1) ltac:(lia)) as [Hlo1 _].
      pose proof (Zdigits2_bounds (Zpos m2) ltac:(lia)) as [_ Hhi2].
      fold d1 in Hlo1. fold d2 in Hhi2.
      pose proof (Zdigits2_above (Zpos m2) 0 ltac:(lia) ltac:(simpl; lia)) as Hd2.
      fold d2 in Hd2.
      pose proof (Zdigits2_above (Zpos m1) 0 ltac:(lia) ltac:(simpl; lia)) as Hd1.
      fold d1 in Hd1.
      assert (Hpow : 2 ^ (d1 + s - 1 - d2) * 2 ^ d2 = 2 ^ (d1 - 1) * 2 ^ s).
      { rewrite <- !Z.pow_add_r by lia. f_equal. lia. }
      pose proof (Z.pow_pos_nonneg 2 (d1 + s - 1 - d2) ltac:(lia) Hk) as Hpk.
      assert (Hqk : 2 ^ (d1 + s - 1 - d2) <= q) by nia.
      pose proof (Zdigits2_above q _ ltac:(lia) Hqk). lia. }
    rewrite (fexp64_eq (SpecFloat.Zdigits2 q + e')).
    unfold e' at 1. rewrite fexp64_eq. unfold s in Hdq. lia.
Qed.

(** The quotient of a finite number by a finite number other than zero is
    the rounding of the exact quotient. *)
Lemma SFdiv_rounding (X : spec_float) (sy : bool) (my : positive) (ey : Z) :
  SpecFloat.valid_binary prec emax X = true -> finite_sf X = true ->
  rounding_of (sval X / sval (S754_finite sy my ey))
              (SFdiv prec emax X (S754_finite sy my ey)).
Proof.
  intros HvX HfX.
  pose proof (bin_val_pos (Zpos my) ey ltac:(lia)) as Hpy.
  destruct X as [sx| | |sx mx ex]; try discriminate; cbn [SFdiv].
  - left. split; [|eexists; reflexivity].
    cbn [sval]. destruct sy; field; lra.
  - destruct (SFdiv_core_located mx my ex ey) as (q & e' & l & -> & Hq & Hloc & Hpre).
    pose proof (bin_val_pos (Zpos mx) ex ltac:(lia)) as Hpx.
    assert (Hquot : (0 < bin_val (Zpos mx) ex / bin_val (Zpos my) ey)%R)
      by (apply Rdiv_lt_0_compat; assumption).
    right. exists (xorb sx sy), q, e', l.
    split; [exact Hq|]. split.
    { replace (Rabs (sval (S754_finite sx mx ex) / sval (S754_finite sy my ey)))
        with (bin_val (Zpos mx) ex / bin_val (Zpos my) ey)%R; [exact Hloc|].
      cbn [sval].
      destruct sx, sy;
        [rewrite Rabs_right | rewrite Rabs_left | rewrite Rabs_left | rewrite Rabs_right];
        try (field; lra);
        match goal with
        | |- (_ >= 0)%R => apply Rle_ge, Rlt_le
        | |- (_ < 0)%R => idtac
        end;
        match goal with
        | |- (_ < _)%R =>
            first [ replace (- bin_val (Zpos mx) ex / - bin_val (Zpos my) ey)%R
                      with (bin_val (Zpos mx) ex / bin_val (Zpos my) ey)%R
                      by (field; lra); lra
                  | replace (- bin_val (Zpos mx) ex / bin_val (Zpos my) ey)%R
                      with (- (bin_val (Zpos mx) ex / bin_val (Zpos my) ey))%R
                      by (field; lra); lra
                  | replace (bin_val (Zpos mx) ex / - bin_val (Zpos my) ey)%R
                      with (- (bin_val (Zpos mx) ex / bin_val (Zpos my) ey))%R
                      by (field; lra); lra
                  | lra ]
        end. }
    split; [exact Hpre|]. split; [reflexivity|].
    cbn [sval].
    destruct sx, sy; cbn [xorb];
      first [ replace (- bin_val (Zpos mx) ex / - bin_val (Zpos my) ey)%R
                with (bin_val (Zpos mx) ex / bin_val (Zpos my) ey)%R
                by (field; lra); lra
            | replace (- bin_val (Zpos mx) ex / bin_val (Zpos my) ey)%R
                with (- (bin_val (Zpos mx) ex / bin_val (Zpos my) ey))%R
                by (field; lra); lra
            | replace (bin_val (Zpos mx) ex / - bin_val (Zpos my) ey)%R
                with (- (bin_val (Zpos mx) ex / bin_val (Zpos my) ey))%R
                by (field; lra); lra
            | lra ].
Qed.

(** *** The operations of [getAirDensity] *)

Lemma mul_pos_const_mono (c x y : float) (m : positive) (e : Z) :
  Prim2SF c = S754_finite false m e ->
  (x <=? y)%float = true -> (c * x <=? c * y)%float = true.
Proof.
  intros Hc. pose proof (Prim2SF_valid c) as Hvc. rewrite Hc in Hvc.
  rewrite !FloatAxioms.leb_spec, !mul_spec, Hc. unfold SF64mul.
  apply (monotone_lift (SFmul prec emax (S754_finite false m e))
           (fun u => (bin_val (Zpos m) e * u)%R)); try reflexivity;
    try apply Prim2SF_valid.
  - intros X HvX HfX. now apply (SFmul_rounding (S754_finite false m e) X).
  - intros u v Huv. pose proof (bin_val_pos (Zpos m) e ltac:(lia)).
    apply Rmult_le_compat_l; lra.
Qed.

Lemma mul_neg_const_anti (c x y : float) (m : positive) (e : Z) :
  Prim2SF c = S754_finite true m e ->
  (x <=? y)%float = true -> (c * y <=? c * x)%float = true.
Proof.
  intros Hc. pose proof (Prim2SF_valid c) as Hvc. rewrite Hc in Hvc.
  rewrite !FloatAxioms.leb_spec, !mul_spec, Hc. unfold SF64mul.
  apply (antitone_lift (SFmul prec emax (S754_finite true m e))
           (fun u => (- bin_val (Zpos m) e * u)%R)); try reflexivity;
    try apply Prim2SF_valid.
  - intros X HvX HfX. now apply (SFmul_rounding (S754_finite true m e) X).
  - intros u v Huv. pose proof (bin_val_pos (Zpos m) e ltac:(lia)).
    apply Ropp_le_cancel. rewrite <- !Ropp_mult_distr_l, !Ropp_involutive.
    apply Rmult_le_compat_l; lra.
Qed.

Lemma sub_const_mono (c x y : float) (s : bool) (m : positive) (e : Z) :
  Prim2SF c = S754_finite s m e ->
  (x <=? y)%float = true -> (x - c <=? y - c)%float = true.
Proof.
  intros Hc. pose proof (Prim2SF_valid c) as Hvc. rewrite Hc in Hvc.
  rewrite !FloatAxioms.leb_spec, !sub_spec, Hc. unfold SF64sub.
  apply (monotone_lift (fun X => SFsub prec emax X (S754_finite s m e))
           (fun u => (u - sval (S754_finite s m e))%R)); try reflexivity;
    try apply Prim2SF_valid.
  - intros X HvX HfX. now apply SFsub_rounding.
  - intros u v Huv. lra.
Qed.

Lemma const_sub_anti (c x y : float) (s : bool) (m : positive) (e : Z) :
  Prim2SF c = S754_finite s m e ->
  (x <=? y)%float = true -> (c - y <=? c - x)%float = true.
Proof.
  intros Hc. pose proof (Prim2SF_valid c) as Hvc. rewrite Hc in Hvc.
  rewrite !FloatAxioms.leb_spec, !sub_spec, Hc. unfold SF64sub.
  apply (antitone_lift (fun X => SFsub prec emax (S754_finite s m e) X)
           (fun u => (sval (S754_finite s m e) - u)%R)); try reflexivity;
    try apply Prim2SF_valid.
  - intros X HvX HfX. now apply SFsub_rounding.
  - intros u v Huv. lra.
Qed.

Lemma div_pos_const_mono (c x y : float) (m : positive) (e : Z) :
  Prim2SF c = S754_finite false m e ->
  (x <=? y)%float = true -> (x / c <=? y / c)%float = true.
Proof.
  intros Hc.
  rewrite !FloatAxioms.leb_spec, !div_spec, Hc. unfold SF64div.
  apply (monotone_lift (fun X => SFdiv prec emax X (S754_finite false m e))
           (fun u => (u / sval (S754_finite false m e))%R)); try reflexivity;
    try apply Prim2SF_valid.
  - intros X HvX HfX. now apply SFdiv_rounding.
  - intros u v Huv. cbn [sval]. pose proof (bin_val_pos (Zpos m) e ltac:(lia)) as Hp.
    unfold Rdiv. apply Rmult_le_compat_r; [|exact Huv].
    apply Rlt_le, Rinv_0_lt_compat, Hp.
Qed.

Lemma ltb_leb (x y : float) : (x <? y)%float = true -> (x <=? y)%float = true.
Proof. intros H. float_order. Qed.

Lemma leb_trans (x y z : float) :
  (x <=? y)%float = true -> (y <=? z)%float = true -> (x <=? z)%float = true.
Proof. intros H1 H2. float_order. Qed.

Lemma ltb_not_leb (x y : float) : (x <? y)%float = true -> (y <=? x)%float = false.
Proof. intros H. float_order. Qed.

Lemma ltb_leb_trans (x y z : float) :
  (x <? y)%float = true -> (y <=? z)%float = true -> (x <? z)%float = true.
Proof. intros H1 H2. float_order. Qed.

(** The two branches of the ISA model (source lines 56-62). *)
Lemma getAirDensity_troposphere {M : JSMath} (model : string) (alt : float) :
  model <> "const" -> model <> "const129" ->
  (0 <=? alt)%float = true -> (alt <=? 11000)%float = true ->
  getAirDensity alt model
  = (1.225 * Math_pow ((288.15 - 0.0065 * alt) / 288.15) 4.2561)%float.
Proof.
  intros Hc Hc' H0 H1. unfold getAirDensity.
  apply String.eqb_neq in Hc, Hc'. rewrite Hc, Hc'.
  rewrite (leb_not_ltb _ _ H0). cbn zeta. rewrite H1. reflexivity.
Qed.

Lemma getAirDensity_stratosphere {M : JSMath} (model : string) (alt : float) :
  model <> "const" -> model <> "const129" ->
  (11000 <? alt)%float = true ->
  getAirDensity alt model
  = (0.3639 * Math_exp (-0.0001576 * (alt - 11000)))%float.
Proof.
  intros Hc Hc' H1. unfold getAirDensity.
  apply String.eqb_neq in Hc, Hc'. rewrite Hc, Hc'.
  assert (H0 : (0 <=? alt)%float = true).
  { apply ltb_leb. apply ltb_trans with (2 := H1). reflexivity. }
  rewrite (leb_not_ltb _ _ H0). cbn zeta. rewrite (ltb_not_leb _ _ H1). reflexivity.
Qed.

(** * The claims *)

(** ** C1: the integrator and the landing *)

(** C1 (defect of the code).  The claim: a trajectory that crosses the ground
    before the cap ends at the crossing, with a step count strictly below
    20,000,000.  The code: for the level launch [v0 = 50], [angle = 0],
    [mass = 1], [Cd = 0.47], [area = 0.01], [dt = 1], [y0 = 100], no wind,
    constant density, the fifth step crosses the ground and is clamped to
    [y = 0]; the loop test [y >= 0] is then still true, the loop goes on,
    and [runPhysics] returns [steps = 20,000,000]. *)
Theorem runPhysics_runs_past_landing :
  let body := loop_body 1 0.47 0.01 1 (windX_of 0 0) "const" in
  let s4 := while_ 4 loop_cond body (physics_init 50 0 100) in
  let s5 := while_ 5 loop_cond body (physics_init 50 0 100) in
  ((0 <? s_y s4)%float = true
   /\ (s_y s4 + s_vy s5 * 1 <? 0)%float = true
   /\ s_y s5 = 0%float
   /\ pt_y (last_point (s_pts s5)) = 0%float
   /\ s_steps s5 = 5
   /\ loop_cond s5 = true)
  /\ r_steps (runPhysics 50 0 1 0.47 0.01 1 100 0 0 "const") = 20000000.
Proof.
  split; [apply level_launch_lands |].
  unfold runPhysics. cbn [r_steps]. apply level_launch_steps.
Qed.

(** ** C2: the direction of the wind *)




(** ** C3: validation *)

(** C3, counterexample.  A launch speed of -5 is not rejected: the
    trajectory is integrated and stored. *)
Lemma nonpositive_speed_is_simulated :
  (f_v0 backwards_form <=? 0)%float = true
  /\ snd (simulate initial backwards_form)
     = Simulated (make_entry "#00d4ff" (readForm backwards_form))
  /\ length (trajectories (fst (simulate initial backwards_form))) = 1%nat.
Proof.
  split; [reflexivity |].
  rewrite simulate_accept; [split; reflexivity | reflexivity | reflexivity | | cbn; unfold MAX_TRAJ; lia].
  cbn. set_solver.
Qed.

(** C3, as amended.  [simulate] validates the time step only.  When [dt] is
    NaN or [dt <= 0] it returns before the integrator is called and leaves
    the state as it is (the log line is 'Invalid time step!' unless a
    playback is running).  Whatever the other fields are, a form whose time
    step passes is integrated and stored, when no playback is running, its
    fingerprint is new and the store is not full. *)
Theorem simulate_validates_step_only {M : JSMath} (st : App) (f : Form) :
  (JS.isNaN (f_customStep f) = true \/ (f_customStep f <=? 0)%float = true ->
   fst (simulate st f) = st
   /\ (forall e, snd (simulate st f) <> Simulated e)
   /\ (isRunning st = false -> snd (simulate st f) = InvalidTimeStep))
  /\ (JS.isNaN (f_customStep f) = false -> (f_customStep f <=? 0)%float = false ->
      isRunning st = false ->
      form_key f ∉ computedKeys st ->
      (length (trajectories st) < MAX_TRAJ)%nat ->
      simulate st f
      = (accepted st f, Simulated (make_entry (color_at (colorIdx st)) (readForm f)))).
Proof.
  split.
  - intros Hbad.
    assert (Hv : valid_step f = false).
    { unfold valid_step. destruct Hbad as [-> | ->]; [reflexivity |].
      now rewrite orb_true_r. }
    destruct (isRunning st) eqn:Hr.
    + rewrite simulate_running by exact Hr. repeat split; discriminate.
    + rewrite simulate_invalid by assumption. repeat split; discriminate.
  - intros Hn Hp Hr Hk Hlen. apply simulate_accept; auto.
    unfold valid_step. now rewrite Hn, Hp.
Qed.

Lemma simulate_validates_step_only_witness :
  (fst (simulate initial (sphere_form 0)) = initial
   /\ (forall e, snd (simulate initial (sphere_form 0)) <> Simulated e)
   /\ (isRunning initial = false ->
       snd (simulate initial (sphere_form 0)) = InvalidTimeStep))
  /\ simulate initial backwards_form
     = (accepted initial backwards_form,
        Simulated (make_entry (color_at 0) (readForm backwards_form))).
Proof.
  split.
  - apply (proj1 (simulate_validates_step_only initial (sphere_form 0))).
    right. reflexivity.
  - apply (proj2 (simulate_validates_step_only initial backwards_form));
      [reflexivity | reflexivity | reflexivity | | cbn; unfold MAX_TRAJ; lia].
    cbn. set_solver.
Defined.

(** ** C4: capacity *)

Lemma forms21_valid : Forall (fun f => valid_step f = true) forms21.
Proof. repeat constructor. Qed.

Lemma forms21_distinct : NoDup (map form_key forms21).
Proof. apply (bool_decide_unpack _). vm_compute. exact I. Qed.

(** C4.  A reachable store holds at most 20 trajectories.  A call of
    [simulate] that gets to the store with 20 trajectories in it (no playback
    running, valid time step, new fingerprint) is turned down with the log
    line 'Max 20 trajectories reached', and the state, with its trajectories,
    fingerprints and colour counter, is the same afterwards.  Twenty-one
    runs with distinct fingerprints from the empty store, each followed by
    its playback, leave the entries of the first twenty, and the
    twenty-first is turned down for capacity. *)
Theorem store_capacity {M : JSMath} :
  (forall st, reachable st -> (length (trajectories st) <= 20)%nat)
  /\ (forall st f,
        (20 <= length (trajectories st))%nat ->
        fst (simulate st f) = st
        /\ (isRunning st = false -> valid_step f = true ->
            form_key f ∉ computedKeys st ->
            snd (simulate st f) = MaxReached))
  /\ (forall fs f21,
        length fs = 20%nat ->
        Forall (fun f => valid_step f = true) (fs ++ [f21]) ->
        NoDup (map form_key (fs ++ [f21])) ->
        let st20 := foldl run_and_wait initial fs in
        trajectories st20 = entries_from 0 fs
        /\ length (trajectories st20) = 20%nat
        /\ simulate st20 f21 = (st20, MaxReached)
        /\ foldl run_and_wait initial (fs ++ [f21]) = st20).
Proof.
  split; [| split].
  - intros st Hst. exact (inv_size st (reachable_inv st Hst)).
  - intros st f Hn. split.
    + destruct (simulate_cases st f) as [H | [H | [H | [H | (_ & _ & _ & Hlt & _)]]]];
        [now rewrite H .. | unfold MAX_TRAJ in Hlt; lia].
    + intros Hr Hv Hk. now rewrite simulate_full.
  - intros fs f21 Hlen Hv Hnd. cbn zeta.
    apply Forall_app in Hv as [Hv Hv21].
    rewrite Forall_singleton in Hv21.
    rewrite map_app in Hnd. apply NoDup_app in Hnd as (Hnd & Hfresh & _).
    destruct (fill_store_initial fs) as (Ht & Hk & Hr & Hp);
      [unfold MAX_TRAJ; lia | assumption | assumption |].
    cbn zeta in Ht, Hk, Hr, Hp.
    assert (Hfull : length (trajectories (foldl run_and_wait initial fs)) = 20%nat)
      by (now rewrite Ht, length_entries_from).
    assert (Hrej : simulate (foldl run_and_wait initial fs) f21
                   = (foldl run_and_wait initial fs, MaxReached)).
    { apply simulate_full; [assumption | assumption | | unfold MAX_TRAJ; lia].
      rewrite Hk. intros Hin. apply (Hfresh (form_key f21)); [| cbn; set_solver].
      set_solver. }
    repeat split; try assumption.
    rewrite foldl_app. cbn [foldl]. unfold run_and_wait at 1.
    rewrite Hrej. cbn [fst]. now apply finish_playback_idle.
Qed.

Lemma store_capacity_witness :
  let st20 := foldl run_and_wait initial (take 20 forms21) in
  trajectories st20 = entries_from 0 (take 20 forms21)
  /\ length (trajectories st20) = 20%nat
  /\ simulate st20 (sphere_form 21) = (st20, MaxReached)
  /\ foldl run_and_wait initial forms21 = st20.
Proof.
  apply (proj2 (proj2 store_capacity) (take 20 forms21) (sphere_form 21)).
  - reflexivity.
  - exact forms21_valid.
  - exact forms21_distinct.
Defined.

(** ** C5: duplicates *)

(** C5.  A call of [simulate] whose fingerprint is in [computedKeys] leaves
    the whole state as it is, and the log line is 'Already computed' when
    the call gets to the store (no playback running, valid time step).
    More generally every call that does not store a trajectory leaves the
    state unchanged. *)
Theorem duplicate_rejected {M : JSMath} (st : App) (f : Form) :
  (form_key f ∈ computedKeys st ->
   fst (simulate st f) = st
   /\ (isRunning st = false -> valid_step f = true ->
       snd (simulate st f) = AlreadyComputed))
  /\ ((forall e, snd (simulate st f) <> Simulated e) -> fst (simulate st f) = st).
Proof.
  split.
  - intros Hk. split.
    + destruct (simulate_cases st f) as [H | [H | [H | [H | (_ & _ & Hk' & _)]]]];
        [now rewrite H .. | contradiction].
    + intros Hr Hv. now rewrite simulate_duplicate.
  - intros Hrej.
    destruct (simulate_cases st f) as [H | [H | [H | [H | (_ & _ & _ & _ & H)]]]];
      rewrite H in *; cbn [fst snd] in *; try reflexivity.
    now destruct (Hrej _ eq_refl).
Qed.

Lemma duplicate_rejected_witness :
  let st := run_and_wait initial (sphere_form 1) in
  fst (simulate st (sphere_form 1)) = st
  /\ (isRunning st = false -> valid_step (sphere_form 1) = true ->
      snd (simulate st (sphere_form 1)) = AlreadyComputed).
Proof.
  cbn zeta.
  apply (proj1 (duplicate_rejected (run_and_wait initial (sphere_form 1)) (sphere_form 1))).
  rewrite run_and_wait_accept;
    [| reflexivity | reflexivity | cbn; set_solver | cbn; unfold MAX_TRAJ; lia].
  cbn [computedKeys settled]. set_solver.
Defined.

(** ** C6: colours *)

(** C6.  In a reachable state the [i]-th trajectory has the colour
    [COLORS[i mod 8]] of the eight-entry palette, so the ninth has the
    colour of the first; and an event either empties the list (Clear) or
    keeps every stored trajectory, with its colour, at its place. *)
Theorem colors_by_position {M : JSMath} :
  length COLORS = 8%nat
  /\ (forall st i e,
        reachable st -> trajectories st !! i = Some e ->
        COLORS !! (i mod 8)%nat = Some (e_color e))
  /\ (forall st e1 e9,
        reachable st ->
        trajectories st !! 0%nat = Some e1 -> trajectories st !! 8%nat = Some e9 ->
        e_color e9 = e_color e1)
  /\ (forall st ev i e,
        trajectories st !! i = Some e ->
        trajectories (handle st ev) = [] \/ trajectories (handle st ev) !! i = Some e).
Proof.
  split; [reflexivity |]. split; [| split].
  - intros st i e Hst Hi.
    rewrite (inv_colors st (reachable_inv st Hst) i e Hi). apply color_at_lookup.
  - intros st e1 e9 Hst H1 H9.
    rewrite (inv_colors st (reachable_inv st Hst) _ _ H1).
    rewrite (inv_colors st (reachable_inv st Hst) _ _ H9). reflexivity.
  - intros st ev i e Hi. destruct ev as [f | |]; cbn [handle].
    + right.
      destruct (simulate_cases st f) as [H | [H | [H | [H | (_ & _ & _ & _ & H)]]]];
        rewrite H; cbn [fst]; try assumption.
      cbn [accepted trajectories]. apply lookup_app_l_Some, Hi.
    + unfold clearAll. destruct (isRunning st); cbn; auto.
    + right. unfold frame. destruct (pendingFrame st); [| assumption].
      unfold step. destruct (_ <=? _); assumption.
Qed.

Lemma colors_by_position_witness :
  let st := foldl run_and_wait initial (take 9 forms21) in
  let e1 := make_entry (color_at 0) (readForm (sphere_form 1)) in
  let e9 := make_entry (color_at 8) (readForm (sphere_form 9)) in
  (trajectories st !! 0%nat = Some e1 /\ trajectories st !! 8%nat = Some e9)
  /\ COLORS !! (8 mod 8)%nat = Some (e_color e9)
  /\ e_color e9 = e_color e1.
Proof.
  cbn zeta.
  assert (Hst : reachable (foldl run_and_wait initial (take 9 forms21)))
    by apply reachable_foldl, reachable_initial.
  assert (Ht : trajectories (foldl run_and_wait initial (take 9 forms21))
               = entries_from 0 (take 9 forms21)).
  { apply fill_store_initial.
    - cbn. unfold MAX_TRAJ. lia.
    - repeat constructor.
    - apply (bool_decide_unpack _). vm_compute. exact I. }
  assert (H1 : trajectories (foldl run_and_wait initial (take 9 forms21)) !! 0%nat
               = Some (make_entry (color_at 0) (readForm (sphere_form 1))))
    by (rewrite Ht; reflexivity).
  assert (H9 : trajectories (foldl run_and_wait initial (take 9 forms21)) !! 8%nat
               = Some (make_entry (color_at 8) (readForm (sphere_form 9))))
    by (rewrite Ht; reflexivity).
  split; [split; assumption |]. split.
  - exact (proj1 (proj2 colors_by_position) _ 8%nat _ Hst H9).
  - exact (proj1 (proj2 (proj2 colors_by_position)) _ _ _ Hst H1 H9).
Defined.

(** ** C7: the fingerprint *)

(** C7, counterexample.  The angles [0] and [-0] are two binary64 values
    (the text [-0] in the angle field gives the second), both printed as
    ["0"]: the two tuples differ in exactly one field and have the same
    fingerprint. *)
Lemma signed_zero_shares_fingerprint :
  (forall g, g <> F_angle -> same_field g level_params level_params_neg)
  /\ ~ same_field F_angle level_params level_params_neg
  /\ fingerprint level_params = "0.01_0.47_const_0_0_50_0_1_0.01_0"
  /\ fingerprint level_params_neg = fingerprint level_params.
Proof.
  split; [| split; [| split]].
  - intros [] H; try reflexivity. now destruct H.
  - cbn. intros H. apply (f_equal (fun x => (1 / x <? 0)%float)) in H.
    vm_compute in H. discriminate.
  - vm_compute. reflexivity.
  - vm_compute. reflexivity.
Qed.

(** C7, as amended.  The fingerprint is the strings of the ten fields, in
    the order dt, Cd, atmosphere, wind speed, wind direction, v0, angle,
    mass, area, y0, joined by ["_"]; tuples equal in the ten fields have
    equal fingerprints; and two tuples that differ in exactly one field have
    different fingerprints, unless the two values of that field are the
    numbers [0] and [-0] ([Number::toString] tells any other two numbers
    apart). *)
Theorem fingerprint_of_ten_fields (p q : Params) :
  fingerprint p = String.concat "_" (map (fun g => render g p) fields)
  /\ ((forall g, same_field g p q) -> fingerprint p = fingerprint q)
  /\ (forall g,
        (forall g', g' <> g -> same_field g' p q) ->
        (fingerprint p <> fingerprint q <-> ~ same_printed g p q)).
Proof.
  split; [reflexivity |]. split.
  - intros H. unfold fingerprint.
    rewrite (H F_dt), (H F_cd), (H F_atmo), (H F_windSpeed), (H F_windDir),
      (H F_v0), (H F_angle), (H F_mass), (H F_area), (H F_y0).
    reflexivity.
  - intros g Hsame.
    assert (Hiff : fingerprint p = fingerprint q <-> render g p = render g q).
    { unfold fingerprint.
      destruct g; cbn [render];
        try use_same_field Hsame F_dt; try use_same_field Hsame F_cd;
        try use_same_field Hsame F_atmo; try use_same_field Hsame F_windSpeed;
        try use_same_field Hsame F_windDir; try use_same_field Hsame F_v0;
        try use_same_field Hsame F_angle; try use_same_field Hsame F_mass;
        try use_same_field Hsame F_area; try use_same_field Hsame F_y0;
        (split; intros Heq;
         [ repeat (apply append_inv_head in Heq);
           first [exact Heq | exact (append_inv_tail _ _ _ Heq)]
         | now rewrite Heq ]). }
    now rewrite Hiff, render_same_printed.
Qed.

Lemma fingerprint_of_ten_fields_witness :
  fingerprint (readForm (sphere_form 1)) <> fingerprint (readForm (sphere_form 2)).
Proof.
  apply (proj2 (proj2 (fingerprint_of_ten_fields
                         (readForm (sphere_form 1)) (readForm (sphere_form 2)))) F_dt).
  - intros [] H; try reflexivity. now destruct H.
  - cbn [same_printed readForm sphere_form p_dt f_customStep].
    intros [H | [H _]].
    + apply (f_equal (fun x => (x <? 2)%float)) in H. vm_compute in H. discriminate.
    + vm_compute in H. discriminate.
Defined.

(** ** C8: clearing *)

(** C8, counterexample.  After a click on Run the playback is running; this
    state is reachable, and [clearAll] leaves its trajectory, its
    fingerprint and its colour counter in place. *)
Lemma clear_during_playback_keeps_store :
  let st := fst (simulate initial (sphere_form 1)) in
  reachable st
  /\ clearAll st = (st, WaitForSimulation)
  /\ length (trajectories (fst (clearAll st))) = 1%nat
  /\ colorIdx (fst (clearAll st)) = 1%nat
  /\ computedKeys (fst (clearAll st)) <> ∅.
Proof.
  cbn zeta. split; [apply reachable_simulate, reachable_initial |].
  rewrite simulate_accept;
    [| reflexivity | reflexivity | cbn; set_solver | cbn; unfold MAX_TRAJ; lia].
  cbn [fst]. repeat split. cbn. set_solver.
Qed.

(** C8, as amended.  When no playback is running, [clearAll] empties the
    trajectories and the fingerprints and resets the colour counter; a form
    that was turned down as already computed is then accepted, it gets the
    first colour of the palette and is the only stored trajectory. *)
Theorem clear_resets_store {M : JSMath} (st : App) (f : Form) :
  isRunning st = false ->
  snd (simulate st f) = AlreadyComputed ->
  let st' := fst (clearAll st) in
  snd (clearAll st) = Cleared
  /\ trajectories st' = [] /\ computedKeys st' = ∅ /\ colorIdx st' = 0%nat
  /\ exists e,
       snd (simulate st' f) = Simulated e
       /\ COLORS !! 0%nat = Some (e_color e)
       /\ trajectories (fst (simulate st' f)) = [e].
Proof.
  intros Hr Hdup. cbn zeta. unfold clearAll. rewrite Hr. cbn [fst snd].
  repeat split.
  assert (Hv : valid_step f = true).
  { destruct (valid_step f) eqn:Hv; [reflexivity |].
    rewrite simulate_invalid in Hdup by assumption. discriminate. }
  eexists. rewrite simulate_accept;
    [| reflexivity | exact Hv | cbn; set_solver | cbn; unfold MAX_TRAJ; lia].
  cbn [fst snd]. repeat split.
Qed.

Lemma clear_resets_store_witness :
  let st := run_and_wait initial (sphere_form 1) in
  let st' := fst (clearAll st) in
  snd (clearAll st) = Cleared
  /\ trajectories st' = [] /\ computedKeys st' = ∅ /\ colorIdx st' = 0%nat
  /\ exists e,
       snd (simulate st' (sphere_form 1)) = Simulated e
       /\ COLORS !! 0%nat = Some (e_color e)
       /\ trajectories (fst (simulate st' (sphere_form 1))) = [e].
Proof.
  assert (Hst : run_and_wait initial (sphere_form 1) = settled initial (sphere_form 1)).
  { apply run_and_wait_accept;
      [reflexivity | reflexivity | cbn; set_solver | cbn; unfold MAX_TRAJ; lia]. }
  apply (clear_resets_store (run_and_wait initial (sphere_form 1)) (sphere_form 1)).
  - rewrite Hst. reflexivity.
  - rewrite Hst, simulate_duplicate; [reflexivity | reflexivity | reflexivity |].
    cbn [computedKeys settled]. set_solver.
Defined.

(** ** C9: the ISA density and the altitude *)


Lemma ISA_density_rounding {M : JSMath} :
  getAirDensity 1e-300 "isa" = getAirDensity 0 "isa".
Proof. reflexivity. Qed.



(** ** C10: the playback gate *)

(** C10.  While [isRunning] is set, [simulate] and [clearAll] return at
    once: the state, with its trajectories, fingerprints and colour counter,
    is the same afterwards, and [simulate] returns no trajectory, whatever
    the form holds. *)
Theorem running_blocks_simulate_and_clear {M : JSMath} (st : App) (f : Form) :
  isRunning st = true ->
  simulate st f = (st, AlreadyRunning) /\ clearAll st = (st, WaitForSimulation).
Proof.
  intros Hr. split; [now apply simulate_running |].
  unfold clearAll. now rewrite Hr.
Qed.

Lemma running_blocks_simulate_and_clear_witness :
  let st := fst (simulate initial (sphere_form 1)) in
  simulate st (sphere_form 2) = (st, AlreadyRunning)
  /\ clearAll st = (st, WaitForSimulation).
Proof.
  apply (running_blocks_simulate_and_clear
           (fst (simulate initial (sphere_form 1))) (sphere_form 2)).
  rewrite simulate_accept;
    [reflexivity | reflexivity | reflexivity | cbn; set_solver | cbn; unfold MAX_TRAJ; lia].
Defined.

(** * Further properties of the program *)

(** ** NaN in the arithmetic *)

Lemma is_nan_nan (x : float) : JS.isNaN x = true -> x = nan.
Proof.
  intros H. apply Prim2SF_inj. change (Prim2SF nan) with S754_nan.
  rewrite is_nan_key in H. unfold float_key in H.
  destruct (Prim2SF x) as [[] | [] | | [] m e]; cbn in H; congruence.
Qed.

Lemma nan_mul_l (x : float) : (nan * x)%float = nan.
Proof. apply Prim2SF_inj. rewrite mul_spec. reflexivity. Qed.

Lemma nan_mul_r (x : float) : (x * nan)%float = nan.
Proof.
  apply Prim2SF_inj. rewrite mul_spec. change (Prim2SF nan) with S754_nan.
  now destruct (Prim2SF x) as [[] | [] | | [] m e].
Qed.

Lemma nan_add_l (x : float) : (nan + x)%float = nan.
Proof. apply Prim2SF_inj. rewrite add_spec. reflexivity. Qed.

Lemma nan_add_r (x : float) : (x + nan)%float = nan.
Proof.
  apply Prim2SF_inj. rewrite add_spec. change (Prim2SF nan) with S754_nan.
  now destruct (Prim2SF x) as [[] | [] | | [] m e].
Qed.

Lemma nan_sub_l (x : float) : (nan - x)%float = nan.
Proof. apply Prim2SF_inj. rewrite sub_spec. reflexivity. Qed.

Lemma nan_not_lt_l (x : float) : (nan <? x)%float = false.
Proof. rewrite ltb_key. reflexivity. Qed.

Lemma nan_not_lt_r (x : float) : (x <? nan)%float = false.
Proof.
  rewrite ltb_key. change (float_key nan) with (@None (Z * Z * Z)).
  now destruct (float_key x).
Qed.

Lemma nan_not_le_r (x : float) : (x <=? nan)%float = false.
Proof.
  rewrite leb_key. change (float_key nan) with (@None (Z * Z * Z)).
  now destruct (float_key x).
Qed.

(** ** Invariants of the loop of [runPhysics] *)

Section LoopInvariants.

Context {M : JSMath}.
Variables (mass cd area dt windX : float) (atmoModel : string).

(** What holds before the loop and is kept by a turn holds after it. *)
Lemma while_invariant (P : Sim -> Prop) (n : N) (s0 : Sim) :
  P s0 ->
  (forall s, P s -> loop_cond s = true ->
             P (loop_body mass cd area dt windX atmoModel s)) ->
  P (while_ n loop_cond (loop_body mass cd area dt windX atmoModel) s0).
Proof.
  intros H0 Hstep. induction n as [| n IH] using N.peano_ind; [exact H0 |].
  rewrite while_succ. unfold guarded_body.
  destruct (loop_cond _) eqn:Hc; [now apply Hstep | exact IH].
Qed.

(** A loop whose test fails at the start does nothing. *)
Lemma while_false (n : N) (s0 : Sim) :
  loop_cond s0 = false ->
  while_ n loop_cond (loop_body mass cd area dt windX atmoModel) s0 = s0.
Proof.
  intros Hc. induction n as [| n IH] using N.peano_ind; [reflexivity |].
  rewrite while_succ, IH. unfold guarded_body. now rewrite Hc.
Qed.

(** One turn, then the rest. *)
Lemma while_first (n : N) (s0 : Sim) :
  loop_cond s0 = true ->
  while_ (N.succ n) loop_cond (loop_body mass cd area dt windX atmoModel) s0
  = while_ n loop_cond (loop_body mass cd area dt windX atmoModel)
      (loop_body mass cd area dt windX atmoModel s0).
Proof.
  intros Hc. unfold while_. rewrite N.iter_succ_r. now rewrite Hc.
Qed.

Lemma path_from_body (y0 : float) (s : Sim) :
  path_from y0 s -> path_from y0 (loop_body mass cd area dt windX atmoModel s).
Proof.
  intros (rest & Hp & Hrest). unfold loop_body. cbn [s_pts].
  set (y := (s_y s + _)%float).
  destruct (keep_point (s_steps s)); [| exists rest; auto].
  rewrite Hp. eexists. split; [reflexivity |].
  apply Forall_app. split; [exact Hrest |].
  apply Forall_singleton. cbn [pt_y].
  destruct (y <? 0)%float eqn:Hy; [reflexivity | exact Hy].
Qed.

Lemma under_maxH_body (s : Sim) :
  under_maxH s -> loop_cond s = true ->
  under_maxH (loop_body mass cd area dt windX atmoModel s).
Proof.
  intros [Hpts Hy] Hc. unfold loop_cond in Hc.
  apply andb_prop in Hc as [Hc _].
  unfold under_maxH, loop_body. cbn [s_pts s_maxH s_y].
  set (y := (s_y s + _)%float).
  assert (Hold : Forall (fun p =>
             ((if (s_maxH s <? y)%float then y else s_maxH s) <? pt_y p)%float = false)
           (s_pts s)).
  { eapply Forall_impl; [exact Hpts |]. cbn beta. intros p Hp.
    destruct (s_maxH s <? y)%float eqn:Hm; [| exact Hp].
    destruct (y <? pt_y p)%float eqn:Hyp; [| reflexivity].
    rewrite <- Hp. symmetry. now apply ltb_trans with y. }
  assert (Hnew : ((if (s_maxH s <? y)%float then y else s_maxH s)
                    <? (if (y <? 0)%float then 0%float else y))%float = false).
  { destruct (s_maxH s <? y)%float eqn:Hm; destruct (y <? 0)%float eqn:Hy0;
      float_order. }
  split; [| exact Hnew].
  destruct (keep_point (s_steps s)); [| exact Hold].
  apply Forall_app. split; [exact Hold |]. now apply Forall_singleton.
Qed.

Lemma counted_body (s : Sim) :
  counted s -> loop_cond s = true ->
  counted (loop_body mass cd area dt windX atmoModel s).
Proof.
  intros (Hs & Hle & Heq) Hc. unfold loop_cond in Hc.
  apply andb_prop in Hc as [_ Hc]. apply Z.ltb_lt in Hc.
  unfold counted, loop_body, keep_point. cbn [s_pts s_steps].
  destruct (Z.ltb_spec (s_steps s) 50000) as [Hlt | Hge]; cbn [orb].
  - rewrite length_app. cbn [length]. lia.
  - destruct (_ =? 0); [rewrite length_app; cbn [length] |]; lia.
Qed.

End LoopInvariants.

(** ** [runPhysics] (source lines 66-118) *)

Section PhysicsResults.

Context {M : JSMath}.
Variables (v0 angleDeg mass cd area dt y0 windSpeed windDirDeg : float).
Variable atmoModel : string.

(** X1.  The path [runPhysics] returns starts with the launch point
    [(0, y0)], and none of the points after it is below the ground. *)
Theorem runPhysics_path_above_ground :
  exists rest,
    r_pts (runPhysics v0 angleDeg mass cd area dt y0 windSpeed windDirDeg atmoModel)
    = mkPoint 0 y0 :: rest
    /\ Forall (fun p => (pt_y p <? 0)%float = false) rest.
Proof.
  unfold runPhysics, physics_loop. cbn [r_pts].
  generalize (Z.to_N maxSteps). intros fuel.
  apply (while_invariant mass cd area dt (windX_of windSpeed windDirDeg) atmoModel
           (path_from y0) fuel (physics_init v0 angleDeg y0)).
  - exists []. split; [reflexivity | constructor].
  - intros s Hs _. now apply path_from_body.
Qed.

Lemma runPhysics_pts :
  r_pts (runPhysics v0 angleDeg mass cd area dt y0 windSpeed windDirDeg atmoModel)
  = s_pts (physics_loop v0 angleDeg mass cd area dt y0 windSpeed windDirDeg atmoModel).
Proof. unfold runPhysics. cbn [r_pts]. reflexivity. Qed.

Lemma runPhysics_maxH :
  r_maxH (runPhysics v0 angleDeg mass cd area dt y0 windSpeed windDirDeg atmoModel)
  = s_maxH (physics_loop v0 angleDeg mass cd area dt y0 windSpeed windDirDeg atmoModel).
Proof. unfold runPhysics. cbn [r_maxH]. reflexivity. Qed.

Lemma physics_loop_under_maxH :
  under_maxH (physics_loop v0 angleDeg mass cd area dt y0 windSpeed windDirDeg atmoModel).
Proof.
  unfold physics_loop. generalize (Z.to_N maxSteps). intros fuel.
  apply (while_invariant mass cd area dt (windX_of windSpeed windDirDeg) atmoModel
           under_maxH fuel (physics_init v0 angleDeg y0)).
  - split; [apply Forall_singleton |]; apply ltb_irrefl.
  - intros s Hs Hc. now apply under_maxH_body.
Qed.

(** X2.  No point of the path is above the maximum height [runPhysics]
    returns. *)
Theorem runPhysics_maxH_above_path :
  Forall
    (fun p =>
       (r_maxH (runPhysics v0 angleDeg mass cd area dt y0 windSpeed windDirDeg
                  atmoModel) <? pt_y p)%float = false)
    (r_pts (runPhysics v0 angleDeg mass cd area dt y0 windSpeed windDirDeg atmoModel)).
Proof.
  rewrite runPhysics_pts, runPhysics_maxH.
  exact (proj1 physics_loop_under_maxH).
Qed.

(** X3.  The step counter [runPhysics] returns is between 0 and the cap of
    20,000,000; the path holds the launch point and at most one point for
    each step, and exactly one for each step when there are no more than
    50,000 steps. *)
Theorem runPhysics_steps_and_points :
  let r := runPhysics v0 angleDeg mass cd area dt y0 windSpeed windDirDeg atmoModel in
  0 <= r_steps r <= 20000000
  /\ Z.of_nat (length (r_pts r)) <= r_steps r + 1
  /\ (r_steps r <= 50000 -> Z.of_nat (length (r_pts r)) = r_steps r + 1).
Proof.
  cbn zeta. unfold runPhysics, physics_loop. cbn [r_pts r_steps].
  generalize (Z.to_N maxSteps). intros fuel.
  change 20000000 with maxSteps.
  apply (while_invariant mass cd area dt (windX_of windSpeed windDirDeg) atmoModel
           counted fuel (physics_init v0 angleDeg y0)).
  - unfold counted, maxSteps. cbn [physics_init s_steps s_pts length]. lia.
  - intros s Hs Hc. now apply counted_body.
Qed.

(** X4.  The loop is left only at the step cap, or with a height that is
    NaN, or at once when the launch height fails [y0 >= 0]: a landing does
    not end it. *)
Theorem runPhysics_ends_at_cap_or_NaN :
  let s := physics_loop v0 angleDeg mass cd area dt y0 windSpeed windDirDeg atmoModel in
  r_steps (runPhysics v0 angleDeg mass cd area dt y0 windSpeed windDirDeg atmoModel)
  = s_steps s
  /\ (s_steps s = 20000000
      \/ JS.isNaN (s_y s) = true
      \/ (s_steps s = 0 /\ (0 <=? y0)%float = false)).
Proof.
  cbn zeta. split; [unfold runPhysics; cbn [r_steps]; reflexivity |].
  destruct (physics_loop_leaves_at_cap v0 angleDeg mass cd area dt y0 windSpeed
              windDirDeg atmoModel) as [H | [H | [H Hy]]].
  - left. exact H.
  - right; left. exact H.
  - right; right. rewrite H. split; [reflexivity | exact Hy].
Qed.

(** X5.  A launch height that fails [y0 >= 0] (negative, or NaN) gives no
    flight: no step, the launch point alone, range 0, and the launch speed
    as final speed. *)
Theorem runPhysics_below_ground :
  (0 <=? y0)%float = false ->
  runPhysics v0 angleDeg mass cd area dt y0 windSpeed windDirDeg atmoModel
  = let vx := (v0 * Math_cos (angleDeg * Math_PI / 180))%float in
    let vy := (v0 * Math_sin (angleDeg * Math_PI / 180))%float in
    mkResult [mkPoint 0 y0] 0 y0 (PrimFloat.sqrt (vx * vx + vy * vy)) 0.
Proof.
  intros Hy. unfold runPhysics, physics_loop.
  generalize (Z.to_N maxSteps). intros fuel.
  rewrite while_false; [reflexivity |].
  unfold loop_cond. cbn [s_y physics_init]. now rewrite Hy.
Qed.

End PhysicsResults.

Lemma runPhysics_below_ground_witness :
  runPhysics 50 45 1 0.47 0.01 0.01 (-5) 0 0 "const"
  = let vx := (50 * Math_cos (45 * Math_PI / 180))%float in
    let vy := (50 * Math_sin (45 * Math_PI / 180))%float in
    mkResult [mkPoint 0 (-5)] 0 (-5) (PrimFloat.sqrt (vx * vx + vy * vy)) 0.
Proof.
  apply (runPhysics_below_ground 50 45 1 0.47 0.01 0.01 (-5) 0 0 "const").
  reflexivity.
Defined.

Section PhysicsNaN.

Context {M : JSMath}.

(** X6.  A launch speed that is NaN (an empty speed field) with a launch
    height that passes [y0 >= 0] gives one step: the launch point and a
    point whose coordinates are NaN; the range and the final speed are NaN
    and the maximum height is the launch height. *)
Theorem runPhysics_NaN_speed
    (v0 angleDeg mass cd area dt y0 windSpeed windDirDeg : float) (atmoModel : string) :
  JS.isNaN v0 = true ->
  (0 <=? y0)%float = true ->
  runPhysics v0 angleDeg mass cd area dt y0 windSpeed windDirDeg atmoModel
  = mkResult [mkPoint 0 y0; mkPoint nan nan] nan y0 nan 1.
Proof.
  intros Hv Hy. apply is_nan_nan in Hv. subst v0.
  unfold runPhysics, physics_loop.
  change (Z.to_N maxSteps) with (N.succ 19999999).
  generalize 19999999%N. intros fuel.
  assert (H0 : physics_init nan angleDeg y0 = mkSim nan nan 0 y0 [mkPoint 0 y0] y0 0).
  { unfold physics_init. now rewrite !nan_mul_l. }
  rewrite H0.
  assert (Hc : loop_cond (mkSim nan nan 0 y0 [mkPoint 0 y0] y0 0) = true).
  { unfold loop_cond. cbn [s_y s_steps]. now rewrite Hy. }
  assert (H1 : loop_body mass cd area dt (windX_of windSpeed windDirDeg) atmoModel
                 (mkSim nan nan 0 y0 [mkPoint 0 y0] y0 0)
               = mkSim nan nan nan nan [mkPoint 0 y0; mkPoint nan nan] y0 1).
  { unfold loop_body. cbn [s_vx s_vy s_x s_y s_pts s_maxH s_steps].
    rewrite ?nan_sub_l, ?nan_mul_l, ?nan_add_l.
    change (PrimFloat.sqrt nan) with nan.
    rewrite ?nan_add_l, ?nan_mul_l, ?nan_add_r.
    rewrite ?nan_not_lt_l, ?nan_not_lt_r.
    reflexivity. }
  rewrite while_first by exact Hc. rewrite H1.
  rewrite while_false by (unfold loop_cond; cbn [s_y]; now rewrite nan_not_le_r).
  cbn [s_pts s_x s_maxH s_steps s_vx s_vy].
  rewrite nan_mul_l, nan_add_l. reflexivity.
Qed.

End PhysicsNaN.

Lemma runPhysics_NaN_speed_witness :
  runPhysics nan 45 1 0.47 0.01 0.01 0 0 0 "const"
  = mkResult [mkPoint 0 0; mkPoint nan nan] nan 0 nan 1.
Proof.
  apply (runPhysics_NaN_speed nan 45 1 0.47 0.01 0.01 0 0 0 "const");
    reflexivity.
Defined.

(** ** The playback *)

Section Playback.

Context {M : JSMath}.

Lemma playing_inv_accepted (st : App) (f : Form) : playing_inv (accepted st f).
Proof.
  unfold playing_inv. cbn [isRunning accepted].
  exists (make_entry (color_at (colorIdx st)) (readForm f)).
  cbn [pendingFrame animTraj trajectories animIdx accepted].
  split; [reflexivity |]. split; [reflexivity |]. split; [apply last_snoc |].
  pose proof (make_entry_pts_nonempty (color_at (colorIdx st)) (readForm f)). lia.
Qed.

Lemma playing_inv_simulate (st : App) (f : Form) :
  playing_inv st -> playing_inv (fst (simulate st f)).
Proof.
  intros Hinv.
  destruct (simulate_cases st f) as [H | [H | [H | [H | (_ & _ & _ & _ & H)]]]];
    rewrite H; cbn [fst]; auto using playing_inv_accepted.
Qed.

Lemma playing_inv_clearAll (st : App) :
  playing_inv st -> playing_inv (fst (clearAll st)).
Proof.
  intros Hinv. unfold clearAll.
  destruct (isRunning st) eqn:Hr; cbn [fst]; [exact Hinv |].
  unfold playing_inv. cbn [isRunning]. now split.
Qed.

Lemma playing_inv_frame (st : App) : playing_inv st -> playing_inv (frame st).
Proof.
  intros Hinv. unfold frame.
  destruct (pendingFrame st) as [traj |] eqn:Hp; [| exact Hinv].
  unfold playing_inv in Hinv.
  destruct (isRunning st) eqn:Hr; [| destruct Hinv; congruence].
  destruct Hinv as (traj' & Hp' & Ha & Hl & Hi).
  assert (traj' = traj) by congruence. subst traj'.
  unfold step, playing_inv.
  destruct (Z.leb_spec (Z.of_nat (length (e_pts traj)))
              (animIdx st + Z.max 1 (Z.of_nat (length (e_pts traj)) / 300)))
    as [Hdone | Hmore]; cbn [isRunning pendingFrame animTraj trajectories animIdx].
  - now split.
  - rewrite Hr. exists traj.
    split; [reflexivity |]. split; [exact Ha |]. split; [exact Hl |]. lia.
Qed.

Lemma playing_inv_reachable (st : App) : reachable st -> playing_inv st.
Proof.
  induction 1 as [| st ev _ IH].
  - unfold playing_inv. cbn. now split.
  - destruct ev; cbn [handle];
      auto using playing_inv_simulate, playing_inv_clearAll, playing_inv_frame.
Qed.

(** [k] frames that do not reach the end of the path advance [animIdx] by
    [k] strides. *)
Lemma frames_running (traj : Entry) (k : nat) (st : App) :
  let n := Z.of_nat (length (e_pts traj)) in
  let stride := Z.max 1 (n / 300) in
  pendingFrame st = Some traj ->
  animIdx st + Z.of_nat k * stride < n ->
  let st' := Nat.iter k frame st in
  animIdx st' = animIdx st + Z.of_nat k * stride
  /\ pendingFrame st' = Some traj
  /\ isRunning st' = isRunning st
  /\ animTraj st' = animTraj st
  /\ trajectories st' = trajectories st.
Proof.
  cbn zeta. intros Hp.
  set (n := Z.of_nat (length (e_pts traj))).
  set (stride := Z.max 1 (n / 300)).
  assert (Hs : 1 <= stride) by (subst stride; lia).
  induction k as [| k IH]; intros Hk.
  - change (Nat.iter 0 frame st) with st. change (Z.of_nat 0) with 0.
    split; [lia | auto].
  - rewrite Nat2Z.inj_succ, Z.mul_succ_l in *. rewrite Nat.iter_succ.
    destruct IH as (Hi & Hp' & Hr & Ha & Ht); [lia |].
    set (s' := Nat.iter k frame st) in *.
    unfold frame. rewrite Hp'. unfold step. fold n. fold stride. rewrite Hi.
    destruct (Z.leb_spec n (animIdx st + Z.of_nat k * stride + stride))
      as [Hdone | Hmore]; [lia |].
    cbn [animIdx pendingFrame isRunning animTraj trajectories].
    split; [lia |]. split; [reflexivity |]. split; [exact Hr |].
    split; [exact Ha | exact Ht].
Qed.

(** [k] frames that reach the end of the path end the playback. *)
Lemma frames_done (traj : Entry) (k : nat) (st : App) :
  let n := Z.of_nat (length (e_pts traj)) in
  let stride := Z.max 1 (n / 300) in
  pendingFrame st = Some traj ->
  (1 <= k)%nat ->
  n <= animIdx st + Z.of_nat k * stride ->
  Nat.iter k frame st = played traj st.
Proof.
  cbn zeta.
  set (n := Z.of_nat (length (e_pts traj))).
  set (stride := Z.max 1 (n / 300)).
  assert (Hs : 1 <= stride) by (subst stride; lia).
  revert st. induction k as [| k IH]; intros st Hp Hk Hn; [lia |].
  rewrite Nat2Z.inj_succ, Z.mul_succ_l in Hn.
  rewrite Nat.iter_succ_r. unfold frame at 2. rewrite Hp. unfold step.
  fold n. fold stride.
  destruct (Z.leb_spec n (animIdx st + stride)) as [Hdone | Hmore].
  - now rewrite frames_idle.
  - destruct k as [| k]; [cbn [Z.of_nat Z.mul] in Hn; lia |].
    rewrite IH; [reflexivity | reflexivity | lia |].
    cbn [animIdx]. lia.
Qed.

(** 599 strides cover any path. *)
Lemma stride_bound (n : Z) : 0 <= n -> n <= 599 * Z.max 1 (n / 300).
Proof.
  intros Hn. pose proof (Z.div_mod n 300 ltac:(lia)) as Hd.
  pose proof (Z.mod_pos_bound n 300 ltac:(lia)) as Hm.
  assert (0 <= n / 300) by (apply Z.div_pos; lia). lia.
Qed.

End Playback.

(** ** The store and the playback (source lines 7-13, 121-203, 410-426) *)

Section StoreResults.

Context {M : JSMath}.

(** X7.  In every state the page can reach, the colour counter and the
    number of stored fingerprints both equal the number of stored
    trajectories. *)
Theorem store_counters_agree (st : App) :
  reachable st ->
  colorIdx st = length (trajectories st)
  /\ size (computedKeys st) = length (trajectories st).
Proof.
  intros Hst. destruct (reachable_inv st Hst) as [_ Hc _ Hk _]. now split.
Qed.

(** X8.  In every state the page can reach in which a playback runs, the
    trajectory played is the last one stored and [animIdx] is an index of
    its path; when none runs, no trajectory is being played and no frame is
    requested. *)
Theorem playback_index_in_range (st : App) :
  reachable st ->
  (isRunning st = true ->
   exists traj,
     animTraj st = Some traj
     /\ last (trajectories st) = Some traj
     /\ 0 <= animIdx st < Z.of_nat (length (e_pts traj)))
  /\ (isRunning st = false -> animTraj st = None /\ pendingFrame st = None).
Proof.
  intros Hst. apply playing_inv_reachable in Hst. unfold playing_inv in Hst.
  split; intros Hr; rewrite Hr in Hst.
  - destruct Hst as (traj & _ & Ha & Hl & Hi). now exists traj.
  - now destruct Hst.
Qed.

(** X9.  The playback [animateProjectile] starts on a path of [n] points
    advances by [max 1 (floor (n / 300))] points a frame: frame [k] shows
    index [k * stride] as long as this is below [n], the first frame that
    reaches [n] ends the playback, and 599 frames always do. *)
Theorem playback_frames (traj : Entry) (st : App) :
  let n := Z.of_nat (length (e_pts traj)) in
  let stride := Z.max 1 (n / 300) in
  let st0 := animateProjectile traj st in
  (forall k : nat,
     Z.of_nat k * stride < n ->
     isRunning (Nat.iter k frame st0) = true
     /\ animIdx (Nat.iter k frame st0) = Z.of_nat k * stride)
  /\ (forall k : nat,
        (1 <= k)%nat -> n <= Z.of_nat k * stride ->
        Nat.iter k frame st0 = played traj st)
  /\ Nat.iter 599 frame st0 = played traj st.
Proof.
  cbn zeta. split; [| split].
  - intros k Hk.
    destruct (frames_running traj k (animateProjectile traj st) eq_refl)
      as (Hi & _ & Hr & _); [cbn [animIdx animateProjectile]; lia |].
    split; [exact Hr | exact Hi].
  - intros k Hk Hn.
    exact (frames_done traj k (animateProjectile traj st) eq_refl Hk Hn).
  - apply (frames_done traj 599 (animateProjectile traj st) eq_refl); [lia |].
    cbn [animIdx animateProjectile].
    pose proof (stride_bound (Z.of_nat (length (e_pts traj))) ltac:(lia)). lia.
Qed.

(** X10.  A run that is accepted cannot be repeated: the same form is
    turned down as running while its playback lasts and as already computed
    once it is over, and the state stays as it is. *)
Theorem accepted_run_is_not_repeated (st : App) (f : Form) (e : Entry) :
  snd (simulate st f) = Simulated e ->
  simulate (fst (simulate st f)) f = (fst (simulate st f), AlreadyRunning)
  /\ simulate (run_and_wait st f) f = (run_and_wait st f, AlreadyComputed)
  /\ last (trajectories (run_and_wait st f)) = Some e.
Proof.
  intros He.
  destruct (simulate_cases st f) as [H | [H | [H | [H | (Hr & Hv & Hk & Hn & H)]]]];
    rewrite H in He; try discriminate.
  cbn [snd] in He. injection He as <-.
  rewrite run_and_wait_accept by assumption. rewrite H. cbn [fst].
  split; [| split].
  - now apply simulate_running.
  - apply simulate_duplicate; [reflexivity | exact Hv |].
    cbn [computedKeys settled]. set_solver.
  - cbn [trajectories settled]. apply last_snoc.
Qed.

End StoreResults.

Lemma store_counters_agree_witness :
  let st := fst (simulate initial (sphere_form 1)) in
  colorIdx st = length (trajectories st)
  /\ size (computedKeys st) = length (trajectories st).
Proof.
  apply (store_counters_agree (fst (simulate initial (sphere_form 1)))).
  apply reachable_simulate, reachable_initial.
Defined.

Lemma playback_index_in_range_witness :
  let st := fst (simulate initial (sphere_form 1)) in
  (isRunning st = true ->
   exists traj,
     animTraj st = Some traj
     /\ last (trajectories st) = Some traj
     /\ 0 <= animIdx st < Z.of_nat (length (e_pts traj)))
  /\ (isRunning st = false -> animTraj st = None /\ pendingFrame st = None).
Proof.
  apply (playback_index_in_range (fst (simulate initial (sphere_form 1)))).
  apply reachable_simulate, reachable_initial.
Defined.

Lemma accepted_run_is_not_repeated_witness :
  let f := sphere_form 1 in
  let e := make_entry (color_at 0) (readForm f) in
  simulate (fst (simulate initial f)) f = (fst (simulate initial f), AlreadyRunning)
  /\ simulate (run_and_wait initial f) f = (run_and_wait initial f, AlreadyComputed)
  /\ last (trajectories (run_and_wait initial f)) = Some e.
Proof.
  apply (accepted_run_is_not_repeated initial (sphere_form 1)
           (make_entry (color_at 0) (readForm (sphere_form 1)))).
  rewrite simulate_accept;
    [reflexivity | reflexivity | reflexivity | cbn; set_solver
    | cbn; unfold MAX_TRAJ; lia].
Defined.

(** ** The separator of the fingerprint *)

Section Separator.
Import JS.

Lemma is_digit_not_underscore (c : ascii) : is_digit c -> c <> "_"%char.
Proof. unfold is_digit. intros H ->. vm_compute in H. lia. Qed.

Lemma digits_no_underscore (ds : list ascii) :
  Forall is_digit ds -> Forall (fun c => c <> "_"%char) ds.
Proof.
  intros H. eapply Forall_impl; [exact H | apply is_digit_not_underscore].
Qed.

Lemma format_list_no_underscore (ds : list ascii) (n : Z) :
  Forall is_digit ds -> Forall (fun c => c <> "_"%char) (format_list ds n).
Proof.
  intros Hd. apply digits_no_underscore in Hd.
  assert (Hz : forall j, Forall (fun c => c <> "_"%char) (replicate j "0"%char))
    by (intros j; now apply Forall_replicate).
  assert (He : Forall (fun c => c <> "_"%char) (digit_list (Z.abs (n - 1))))
    by apply digits_no_underscore, digit_list_is_digit.
  unfold format_list.
  repeat match goal with
    | |- context [if ?b then _ else _] => destruct b
    end;
    repeat first
      [ apply Forall_app; split
      | apply Forall_cons; split; [discriminate |]
      | apply Forall_take
      | apply Forall_drop
      | assumption
      | apply Hz ].
Qed.

Lemma Number_toString_no_underscore (x : number) :
  "_"%char ∉ list_ascii_of_string (Number_toString x).
Proof.
  intros Hin.
  assert (H : Forall (fun c => c <> "_"%char) (list_ascii_of_string (Number_toString x))).
  { unfold Number_toString.
    destruct (Prim2SF x) as [sign | [] | | sign m e];
      try (repeat constructor; discriminate).
    destruct (shortest (Zpos m) e) as [s p].
    rewrite list_ascii_of_string_app, list_ascii_of_format_decimal.
    apply Forall_app. split.
    - destruct sign; repeat constructor; discriminate.
    - apply format_list_no_underscore, digit_list_is_digit. }
  exact (proj1 (Forall_forall _ _) H _ Hin eq_refl).
Qed.

(** Cutting at the last occurrence of a character. *)
Lemma app_cons_inj_fresh_r {A : Type} (c : A) (a b a' b' : list A) :
  c ∉ b -> c ∉ b' ->
  (a ++ c :: b = a' ++ c :: b')%list -> a = a' /\ b = b'.
Proof.
  intros Hb Hb' H. apply (f_equal reverse) in H.
  rewrite !reverse_app, !reverse_cons, <- !app_assoc in H. cbn [app] in H.
  apply app_cons_inj_fresh in H; [| now rewrite elem_of_reverse ..].
  destruct H as [H1 H2]. split.
  - now rewrite <- (reverse_involutive a), H2, reverse_involutive.
  - now rewrite <- (reverse_involutive b), H1, reverse_involutive.
Qed.

(** Two strings with the printed number [x], or [y], in front of ["_"]. *)
Lemma number_prefix_inj (x y : number) (r r' : string) :
  Number_toString x ++ "_" ++ r = Number_toString y ++ "_" ++ r' ->
  SameValueZero x y /\ r = r'.
Proof.
  intros H. apply (f_equal list_ascii_of_string) in H.
  rewrite !list_ascii_of_string_app in H. cbn [list_ascii_of_string app] in H.
  apply app_cons_inj_fresh in H; auto using Number_toString_no_underscore.
  destruct H as [H1 H2]. split.
  - now apply Number_toString_inj, list_ascii_of_string_inj.
  - now apply list_ascii_of_string_inj.
Qed.

(** Two strings with the printed number [x], or [y], behind ["_"]. *)
Lemma number_suffix_inj (x y : number) (r r' : string) :
  r ++ "_" ++ Number_toString x = r' ++ "_" ++ Number_toString y ->
  r = r' /\ SameValueZero x y.
Proof.
  intros H. apply (f_equal list_ascii_of_string) in H.
  rewrite !list_ascii_of_string_app in H. cbn [list_ascii_of_string app] in H.
  apply app_cons_inj_fresh_r in H; auto using Number_toString_no_underscore.
  destruct H as [H1 H2]. split.
  - now apply list_ascii_of_string_inj.
  - now apply Number_toString_inj, list_ascii_of_string_inj.
Qed.

Lemma append_assoc (a b c : string) : (a ++ b) ++ c = a ++ b ++ c.
Proof.
  apply list_ascii_of_string_inj. rewrite !list_ascii_of_string_app.
  now rewrite app_assoc.
Qed.

End Separator.

(** ** The fingerprint (source line 139) *)

(** Peeling the two numbers in front of the atmosphere model and the seven
    behind it off the fingerprint. *)
Lemma fingerprint_eq_iff (p q : Params) :
  fingerprint p = fingerprint q <-> forall g, same_printed g p q.
Proof.
  split.
  - intros H. unfold fingerprint in H.
    apply number_prefix_inj in H as [Hdt H].
    apply number_prefix_inj in H as [Hcd H].
    rewrite <- !append_assoc in H.
    rewrite (append_assoc _ "_" (JS.Number_toString (p_y0 p))),
      (append_assoc _ "_" (JS.Number_toString (p_y0 q))) in H.
    apply number_suffix_inj in H as [H Hy0].
    rewrite (append_assoc _ "_" (JS.Number_toString (p_area p))),
      (append_assoc _ "_" (JS.Number_toString (p_area q))) in H.
    apply number_suffix_inj in H as [H Harea].
    rewrite (append_assoc _ "_" (JS.Number_toString (p_mass p))),
      (append_assoc _ "_" (JS.Number_toString (p_mass q))) in H.
    apply number_suffix_inj in H as [H Hmass].
    rewrite (append_assoc _ "_" (JS.Number_toString (p_angle p))),
      (append_assoc _ "_" (JS.Number_toString (p_angle q))) in H.
    apply number_suffix_inj in H as [H Hangle].
    rewrite (append_assoc _ "_" (JS.Number_toString (p_v0 p))),
      (append_assoc _ "_" (JS.Number_toString (p_v0 q))) in H.
    apply number_suffix_inj in H as [H Hv0].
    rewrite (append_assoc _ "_" (JS.Number_toString (p_windDir p))),
      (append_assoc _ "_" (JS.Number_toString (p_windDir q))) in H.
    apply number_suffix_inj in H as [H Hwd].
    rewrite (append_assoc _ "_" (JS.Number_toString (p_windSpeed p))),
      (append_assoc _ "_" (JS.Number_toString (p_windSpeed q))) in H.
    apply number_suffix_inj in H as [H Hws].
    intros []; cbn [same_printed]; assumption.
  - intros H. unfold fingerprint.
    rewrite (Number_toString_same _ _ (H F_dt)), (Number_toString_same _ _ (H F_cd)),
      (Number_toString_same _ _ (H F_windSpeed)),
      (Number_toString_same _ _ (H F_windDir)), (Number_toString_same _ _ (H F_v0)),
      (Number_toString_same _ _ (H F_angle)), (Number_toString_same _ _ (H F_mass)),
      (Number_toString_same _ _ (H F_area)), (Number_toString_same _ _ (H F_y0)).
    pose proof (H F_atmo) as Ha. cbn [same_printed] in Ha. now rewrite Ha.
Qed.

(** X11.  Two parameter tuples have the same fingerprint exactly when they
    hold, in each of the ten fields, the same value or the two zeros: apart
    from the sign of a zero, no two different tuples share a fingerprint,
    whatever the name of the atmosphere model is. *)
Theorem fingerprint_injective (p q : Params) :
  fingerprint p = fingerprint q <-> forall g, same_printed g p q.
Proof. exact (fingerprint_eq_iff p q). Qed.

Section DuplicateCheck.

Context {M : JSMath}.

(** X12.  After the runs of [fs] (at most 20 forms with valid time steps
    and fingerprints that differ, each run followed by its playback), a
    form with a valid time step is turned down as already computed exactly
    when one of [fs] holds, in each of the ten fields, the same value as it
    or the two zeros. *)
Theorem duplicate_iff_same_parameters (fs : list Form) (f : Form) :
  (length fs <= 20)%nat ->
  Forall (fun f => valid_step f = true) fs ->
  NoDup (map form_key fs) ->
  valid_step f = true ->
  snd (simulate (foldl run_and_wait initial fs) f) = AlreadyComputed
  <-> exists f', f' ∈ fs /\ forall g, same_printed g (readForm f) (readForm f').
Proof.
  intros Hlen Hv Hnd Hvf.
  destruct (fill_store_initial fs Hlen Hv Hnd) as (_ & Hk & Hr & _).
  cbn zeta in Hk, Hr.
  set (st := foldl run_and_wait initial fs) in *.
  assert (Hkey : form_key f ∈ computedKeys st
                 <-> exists f', f' ∈ fs
                     /\ forall g, same_printed g (readForm f) (readForm f')).
  { rewrite Hk, elem_of_list_to_set, list_elem_of_fmap.
    split; intros (f' & H1 & H2); exists f'.
    - split; [exact H2 |]. now apply fingerprint_eq_iff.
    - split; [| exact H1]. now apply fingerprint_eq_iff. }
  rewrite <- Hkey. split.
  - intros Hdup.
    destruct (decide (form_key f ∈ computedKeys st)) as [Hin | Hout]; [exact Hin |].
    destruct (le_lt_dec MAX_TRAJ (length (trajectories st))) as [Hn | Hn].
    + rewrite simulate_full in Hdup by assumption. discriminate.
    + rewrite simulate_accept in Hdup by assumption. discriminate.
  - intros Hin. now rewrite simulate_duplicate.
Qed.

End DuplicateCheck.

Lemma duplicate_iff_same_parameters_witness :
  snd (simulate (foldl run_and_wait initial [sphere_form 1]) (sphere_form 1))
  = AlreadyComputed
  <-> exists f', f' ∈ [sphere_form 1]
      /\ forall g, same_printed g (readForm (sphere_form 1)) (readForm f').
Proof.
  apply (duplicate_iff_same_parameters [sphere_form 1] (sphere_form 1)).
  - cbn. lia.
  - repeat constructor.
  - repeat constructor. set_solver.
  - reflexivity.
Defined.

(** ** The bounds of the plot and the height marker *)

Lemma number_or_positive (x d : float) :
  (0 <=? x)%float = true -> (0 <? d)%float = true ->
  (0 <? number_or x d)%float = true.
Proof.
  intros Hx Hd. unfold number_or.
  destruct (JS.isNaN x || (x =? 0)%float)%bool eqn:Hf; [exact Hd |].
  apply orb_false_elim in Hf as [_ Hf]. clear Hd. float_order.
Qed.

Lemma number_or_covers (x d w : float) :
  (0 <? d)%float = true -> (x <? w)%float = false ->
  (0 <=? x)%float = true ->
  (number_or x d <? w)%float = false.
Proof.
  intros Hd Hw Hx. unfold number_or.
  destruct (JS.isNaN x || (x =? 0)%float)%bool eqn:Hf; [| exact Hw].
  apply orb_prop in Hf as [Hf | Hf].
  - clear Hd Hw. float_order.
  - destruct (d <? w)%float eqn:Hdw; [| reflexivity].
    assert (H0 : (0 <? w)%float = true) by now apply ltb_trans with d.
    clear Hd Hdw Hx. float_order.
Qed.

Lemma grow_nonneg (m v : float) :
  (0 <=? m)%float = true -> (0 <=? (if (m <? v)%float then v else m))%float = true.
Proof.
  intros Hm. destruct (m <? v)%float eqn:Hv; [| exact Hm]. float_order.
Qed.

Lemma grow_covers_new (m v : float) :
  ((if (m <? v)%float then v else m) <? v)%float = false.
Proof. destruct (m <? v)%float eqn:Hv; [apply ltb_irrefl | exact Hv]. Qed.

Lemma grow_covers_old (m v w : float) :
  (m <? w)%float = false -> ((if (m <? v)%float then v else m) <? w)%float = false.
Proof.
  intros Hw. destruct (m <? v)%float eqn:Hv; [| exact Hw].
  destruct (v <? w)%float eqn:Hvw; [| reflexivity].
  rewrite <- Hw. symmetry. now apply ltb_trans with v.
Qed.

Lemma foldl_grow_bounds (pts : list Point) (b : float * float) :
  (0 <=? fst b)%float = true -> (0 <=? snd b)%float = true ->
  let b' := foldl grow_bounds b pts in
  (0 <=? fst b')%float = true /\ (0 <=? snd b')%float = true
  /\ (forall p, covers b p -> covers b' p)
  /\ (forall p, p ∈ pts -> covers b' p).
Proof.
  cbn zeta. revert b. induction pts as [| q pts IH]; intros b Hx Hy.
  - cbn [foldl]. split; [exact Hx |]. split; [exact Hy |]. split; [auto |].
    intros p Hp. inversion Hp.
  - cbn [foldl].
    destruct (IH (grow_bounds b q)) as (Hx' & Hy' & Hold & Hnew).
    { now apply grow_nonneg. }
    { now apply grow_nonneg. }
    split; [exact Hx' |]. split; [exact Hy' |]. split.
    + intros p [Hp1 Hp2]. apply Hold. split; now apply grow_covers_old.
    + intros p Hp. apply elem_of_cons in Hp as [-> | Hp]; [| now apply Hnew].
      apply Hold. split; apply grow_covers_new.
Qed.

Lemma foldl_trajectories_bounds (ts : list Entry) (b : float * float) :
  (0 <=? fst b)%float = true -> (0 <=? snd b)%float = true ->
  let b' := foldl (fun b t => foldl grow_bounds b (e_pts t)) b ts in
  (0 <=? fst b')%float = true /\ (0 <=? snd b')%float = true
  /\ (forall p, covers b p -> covers b' p)
  /\ (forall t p, t ∈ ts -> p ∈ e_pts t -> covers b' p).
Proof.
  cbn zeta. revert b. induction ts as [| t ts IH]; intros b Hx Hy.
  - cbn [foldl]. split; [exact Hx |]. split; [exact Hy |]. split; [auto |].
    intros t p Ht. inversion Ht.
  - cbn [foldl].
    destruct (foldl_grow_bounds (e_pts t) b Hx Hy) as (Hx1 & Hy1 & Hold1 & Hnew1).
    cbn zeta in *.
    destruct (IH _ Hx1 Hy1) as (Hx' & Hy' & Hold & Hnew).
    split; [exact Hx' |]. split; [exact Hy' |]. split.
    + intros p Hp. now apply Hold, Hold1.
    + intros t' p Ht Hp. apply elem_of_cons in Ht as [-> | Ht].
      * now apply Hold, Hnew1.
      * now apply (Hnew t').
Qed.

Lemma foldl_higher (pts : list Point) (p0 : Point) :
  let peak := foldl higher p0 pts in
  (peak = p0 \/ peak ∈ pts)
  /\ (pt_y peak <? pt_y p0)%float = false
  /\ (forall q, (pt_y p0 <? pt_y q)%float = false -> (pt_y peak <? pt_y q)%float = false)
  /\ (forall q, q ∈ pts -> (pt_y peak <? pt_y q)%float = false).
Proof.
  cbn zeta. revert p0. induction pts as [| p pts IH]; intros p0.
  - cbn [foldl]. split; [now left |]. split; [apply ltb_irrefl |].
    split; [auto |]. intros q Hq. inversion Hq.
  - cbn [foldl]. destruct (IH (higher p0 p)) as (Hin & Hself & Hold & Hnew).
    assert (Hstep : forall q, (pt_y p0 <? pt_y q)%float = false ->
                              (pt_y (higher p0 p) <? pt_y q)%float = false).
    { intros q Hq. unfold higher.
      destruct (pt_y p0 <? pt_y p)%float eqn:Hp; [| exact Hq].
      destruct (pt_y p <? pt_y q)%float eqn:Hpq; [| reflexivity].
      rewrite <- Hq. symmetry. now apply ltb_trans with (pt_y p). }
    assert (Hp : (pt_y (higher p0 p) <? pt_y p)%float = false).
    { unfold higher. destruct (pt_y p0 <? pt_y p)%float eqn:Hp;
        [apply ltb_irrefl | exact Hp]. }
    split; [| split; [| split]].
    + destruct Hin as [Heq | Hin]; [| right; now right].
      rewrite Heq. unfold higher.
      destruct (pt_y p0 <? pt_y p)%float; [right; now left | now left].
    + apply Hold, Hstep, ltb_irrefl.
    + intros q Hq. now apply Hold, Hstep.
    + intros q Hq. apply elem_of_cons in Hq as [-> | Hq]; [| now apply Hnew].
      now apply Hold.
Qed.

(** ** The drawing (source lines 206-353) *)

(** X13.  The bounds [maxX] and [maxY] of the plot are above 0, so the
    scales never divide by zero, and no point of a stored path is beyond
    them. *)
Theorem plot_bounds_cover (ts : list Entry) :
  (0 <? fst (plot_bounds ts))%float = true
  /\ (0 <? snd (plot_bounds ts))%float = true
  /\ (forall t p,
        t ∈ ts -> p ∈ e_pts t ->
        (fst (plot_bounds ts) <? pt_x p)%float = false
        /\ (snd (plot_bounds ts) <? pt_y p)%float = false).
Proof.
  unfold plot_bounds. cbn zeta. cbn [fst snd].
  destruct (foldl_trajectories_bounds ts (0%float, 0%float) eq_refl eq_refl)
    as (Hx & Hy & _ & Hnew).
  cbn zeta in *.
  set (b := foldl (fun b t => foldl grow_bounds b (e_pts t)) (0%float, 0%float) ts) in *.
  split; [now apply number_or_positive |].
  split; [now apply number_or_positive |].
  intros t p Ht Hp. destruct (Hnew t p Ht Hp) as [H1 H2].
  split; now apply number_or_covers.
Qed.

Section HeightMarker.

Context {M : JSMath}.

(** X14.  The height marker of a path that is not empty is drawn at one of
    its points, and no point of the path is above it; for a path
    [runPhysics] returns the marker is not above the maximum height
    returned with it. *)
Theorem peak_point_highest :
  (forall pts,
     match peak_point pts with
     | None => pts = []
     | Some peak =>
         peak ∈ pts /\ forall q, q ∈ pts -> (pt_y peak <? pt_y q)%float = false
     end)
  /\ (forall v0 angleDeg mass cd area dt y0 windSpeed windDirDeg atmoModel,
        let r := runPhysics v0 angleDeg mass cd area dt y0 windSpeed windDirDeg
                   atmoModel in
        exists peak,
          peak_point (r_pts r) = Some peak
          /\ (r_maxH r <? pt_y peak)%float = false).
Proof.
  assert (Hpeak : forall pts,
            match peak_point pts with
            | None => pts = []
            | Some peak =>
                peak ∈ pts
                /\ forall q, q ∈ pts -> (pt_y peak <? pt_y q)%float = false
            end).
  { intros [| p0 pts]; [reflexivity |]. cbn [peak_point].
    destruct (foldl_higher (p0 :: pts) p0) as (Hin & _ & _ & Hall).
    cbn zeta in *. split; [| exact Hall].
    destruct Hin as [-> | Hin]; [now left | exact Hin]. }
  split; [exact Hpeak |].
  intros v0 angleDeg mass cd area dt y0 windSpeed windDirDeg atmoModel. cbn zeta.
  pose proof (runPhysics_pts_nonempty v0 angleDeg mass cd area dt y0 windSpeed
                windDirDeg atmoModel) as Hne.
  pose proof (physics_loop_under_maxH v0 angleDeg mass cd area dt y0 windSpeed
                windDirDeg atmoModel) as Hmax.
  rewrite runPhysics_pts in *. rewrite runPhysics_maxH.
  revert Hne Hmax.
  generalize (physics_loop v0 angleDeg mass cd area dt y0 windSpeed windDirDeg atmoModel).
  intros s Hne [Hmax _].
  specialize (Hpeak (s_pts s)).
  destruct (peak_point (s_pts s)) as [peak |].
  - exists peak. split; [reflexivity |].
    exact (proj1 (Forall_forall _ _) Hmax peak (proj1 Hpeak)).
  - rewrite Hpeak in Hne. cbn in Hne. lia.
Qed.

End HeightMarker.

(** X15.  For an index [activeIdx] of the path, the part of the active path
    that is drawn has [activeIdx + 1] points and ends at the point of the
    animated dot, and the trail reads at most 15 points, each at an index
    from 0 to below [activeIdx]. *)
Theorem active_drawing_in_range (pts : list Point) (activeIdx : Z) :
  0 <= activeIdx < Z.of_nat (length pts) ->
  Z.of_nat (length (shown_pts pts activeIdx)) = activeIdx + 1
  /\ last (shown_pts pts activeIdx) = pts !! Z.to_nat activeIdx
  /\ is_Some (pts !! Z.to_nat activeIdx)
  /\ Forall (fun j => 0 <= j < activeIdx) (trail_indices activeIdx)
  /\ (length (trail_indices activeIdx) <= 15)%nat.
Proof.
  intros Hi. unfold shown_pts, slice_to.
  destruct (Z.ltb_spec (activeIdx + 1) 0) as [Hneg | _]; [lia |].
  replace (Z.min (activeIdx + 1) (Z.of_nat (length pts))) with (activeIdx + 1) by lia.
  assert (Hlen : length (take (Z.to_nat (activeIdx + 1)) pts) = Z.to_nat (activeIdx + 1))
    by (apply length_take_le; lia).
  split; [lia |]. split.
  { rewrite last_lookup, Hlen, lookup_take_lt by lia. f_equal. lia. }
  split; [apply lookup_lt_is_Some; lia |].
  unfold trail_indices. split.
  - apply Forall_forall. intros j Hj.
    apply list_elem_of_fmap in Hj as (k & -> & Hk).
    apply elem_of_seqZ in Hk. lia.
  - rewrite length_map, length_seqZ. lia.
Qed.

Lemma active_drawing_in_range_witness :
  let pts := [mkPoint 0 0; mkPoint 1 1; mkPoint 2 0] in
  Z.of_nat (length (shown_pts pts 1)) = 1 + 1
  /\ last (shown_pts pts 1) = pts !! Z.to_nat 1
  /\ is_Some (pts !! Z.to_nat 1)
  /\ Forall (fun j => 0 <= j < 1) (trail_indices 1)
  /\ (length (trail_indices 1) <= 15)%nat.
Proof.
  apply (active_drawing_in_range [mkPoint 0 0; mkPoint 1 1; mkPoint 2 0] 1).
  cbn. lia.
Defined.

(** ** Clearing and drawing the store *)

Section ClearAndDraw.

Context {M : JSMath}.

Lemma stored_paths_handle (st : App) (ev : event) :
  Forall (fun t => e_pts t <> []) (trajectories st) ->
  Forall (fun t => e_pts t <> []) (trajectories (handle st ev)).
Proof.
  intros H. destruct ev as [f | |]; cbn [handle].
  - destruct (simulate_cases st f) as [E | [E | [E | [E | (_ & _ & _ & _ & E)]]]];
      rewrite E; cbn [fst]; try exact H.
    cbn [trajectories accepted]. apply Forall_app. split; [exact H |].
    apply Forall_singleton. intros Hnil.
    pose proof (make_entry_pts_nonempty (color_at (colorIdx st)) (readForm f)) as Hn.
    rewrite Hnil in Hn. cbn in Hn. lia.
  - unfold clearAll. destruct (isRunning st); cbn [fst trajectories];
      [exact H | constructor].
  - unfold frame. destruct (pendingFrame st) as [traj |]; [| exact H].
    unfold step. destruct (_ <=? _); exact H.
Qed.

(** X16.  A click on Clear while no playback runs brings the page back to
    where it started: whatever was stored before, a run after it is handled
    as a run on the freshly loaded page, with the same outcome and, for a
    valid time step, the same state afterwards. *)
Theorem clear_restores_initial (st : App) (f : Form) :
  isRunning st = false ->
  snd (simulate (fst (clearAll st)) f) = snd (simulate initial f)
  /\ (valid_step f = true ->
      simulate (fst (clearAll st)) f = simulate initial f).
Proof.
  intros Hr. unfold clearAll. rewrite Hr. cbn [fst].
  set (st' := {| trajectories := []; colorIdx := 0; computedKeys := ∅;
                 pendingFrame := None; animTraj := None; animIdx := animIdx st;
                 isRunning := false |}).
  assert (Hv : valid_step f = true -> simulate st' f = simulate initial f).
  { intros Hv.
    rewrite (simulate_accept st' f), (simulate_accept initial f);
      try reflexivity; try exact Hv;
      try (cbn [computedKeys st' initial]; set_solver);
      cbn [trajectories st' initial length]; unfold MAX_TRAJ; lia. }
  split; [| exact Hv].
  destruct (valid_step f) eqn:Hvf; [now rewrite Hv |].
  now rewrite !simulate_invalid.
Qed.

(** X17.  In every state the page can reach, each stored trajectory has a
    path that is not empty: the last point and the point of the height
    marker that [drawAllTrajectories] reads of it exist. *)
Theorem stored_paths_drawable (st : App) :
  reachable st ->
  Forall
    (fun t => exists p_last p_peak,
                last (e_pts t) = Some p_last /\ peak_point (e_pts t) = Some p_peak)
    (trajectories st).
Proof.
  intros Hst.
  assert (H : Forall (fun t => e_pts t <> []) (trajectories st)).
  { induction Hst as [| st ev _ IH]; [constructor | now apply stored_paths_handle]. }
  eapply Forall_impl; [exact H |]. cbn beta. intros t Ht.
  destruct (e_pts t) as [| p0 pts] eqn:Hp; [congruence |].
  destruct (last (p0 :: pts)) as [pl |] eqn:Hl.
  - exists pl. eexists. split; reflexivity.
  - apply last_None in Hl. discriminate.
Qed.

(** X18.  The page never stays blocked: 599 animation frames after any
    state it can reach no playback runs, so that Run and Clear are served
    again, and the stored trajectories are those of that state. *)
Theorem playback_always_ends (st : App) :
  reachable st ->
  isRunning (Nat.iter 599 frame st) = false
  /\ pendingFrame (Nat.iter 599 frame st) = None
  /\ trajectories (Nat.iter 599 frame st) = trajectories st.
Proof.
  intros Hst. apply playing_inv_reachable in Hst. unfold playing_inv in Hst.
  destruct (isRunning st) eqn:Hr.
  - destruct Hst as (traj & Hp & _ & _ & Hi).
    rewrite (frames_done traj 599 st Hp); [now repeat split | lia |].
    pose proof (stride_bound (Z.of_nat (length (e_pts traj))) ltac:(lia)). lia.
  - destruct Hst as [Hp _]. rewrite frames_idle by exact Hp. now repeat split.
Qed.

End ClearAndDraw.

Lemma clear_restores_initial_witness :
  let st := run_and_wait initial (sphere_form 1) in
  snd (simulate (fst (clearAll st)) (sphere_form 2))
  = snd (simulate initial (sphere_form 2))
  /\ (valid_step (sphere_form 2) = true ->
      simulate (fst (clearAll st)) (sphere_form 2) = simulate initial (sphere_form 2)).
Proof.
  apply (clear_restores_initial (run_and_wait initial (sphere_form 1)) (sphere_form 2)).
  rewrite run_and_wait_accept;
    [reflexivity | reflexivity | reflexivity | cbn; set_solver
    | cbn; unfold MAX_TRAJ; lia].
Defined.

Lemma stored_paths_drawable_witness :
  Forall
    (fun t => exists p_last p_peak,
                last (e_pts t) = Some p_last /\ peak_point (e_pts t) = Some p_peak)
    (trajectories (fst (simulate initial (sphere_form 1)))).
Proof.
  apply (stored_paths_drawable (fst (simulate initial (sphere_form 1)))).
  apply reachable_simulate, reachable_initial.
Defined.

Lemma playback_always_ends_witness :
  let st := fst (simulate initial (sphere_form 1)) in
  isRunning (Nat.iter 599 frame st) = false
  /\ pendingFrame (Nat.iter 599 frame st) = None
  /\ trajectories (Nat.iter 599 frame st) = trajectories st.
Proof.
  apply (playback_always_ends (fst (simulate initial (sphere_form 1)))).
  apply reachable_simulate, reachable_initial.
Defined.
